(** * RGB matrix server: the display manager of [app.py] and the
      per-request threads of [pi_server.py]

    The development embeds the two servers of the repository.

    - [app.py]: a [DisplayManager] owning a FIFO queue of jobs, a
      cancellation event, a counter of job ids and one worker thread that
      pops a job at a time and renders it on the matrix.
    - [pi_server.py]: a [MatrixHandler] that starts a new thread for each
      request; the threads write to the matrix themselves.

    Threads are interleaved at the level of the statements that touch
    shared state: a schedule is a list of actions, each action being one
    request handled to completion, one step of the worker (or of a spawned
    thread), or a move of the environment (time passing, the matrix
    starting or ceasing to fail).  Module [Calls] refines the schedules of
    [app.py]: there the statements of [enqueue] are separate moves and
    the jobs are objects in a store, shared by reference.  Wall-clock
    readings and hold times are rationals (seconds); rounding of floating
    point numbers is not modelled. *)

From Stdlib Require Import ZArith NArith QArith List Sorted Bool String Ascii
  DecimalString Lia Lqa.
Import ListNotations.

Local Open Scope Z_scope.

(* ================================================================== *)
(** ** Python values used by the servers *)

Module Py.

(** A Python [str]: a sequence of Unicode code points. *)
Definition str := list N.

Definition of_string (s : string) : str :=
  map N_of_ascii (list_ascii_of_string s).

(** Exceptions raised by the modelled code. [SinkError] stands for
    whatever the matrix driver raises on a failed write. *)
Inductive Exn :=
| IndexError
| ZeroDivisionError
| ValueError
| TypeError
| AttributeError
| OSError
| SinkError.

Inductive result (A : Type) :=
| Ok (a : A)
| Raise (e : Exn).
Arguments Ok {A} a.
Arguments Raise {A} e.

(** [str.isspace] on one code point (CPython's [_PyUnicode_IsWhitespace]). *)
Definition isspace (c : N) : bool :=
  (((9 <=? c) && (c <=? 13)) || ((28 <=? c) && (c <=? 32))
   || (c =? 133) || (c =? 160) || (c =? 5760)
   || ((8192 <=? c) && (c <=? 8202))
   || (c =? 8232) || (c =? 8233) || (c =? 8239) || (c =? 8287)
   || (c =? 12288))%N.

Fixpoint lstrip (s : str) : str :=
  match s with
  | [] => []
  | c :: r => if isspace c then lstrip r else s
  end.

Definition rstrip (s : str) : str := rev (lstrip (rev s)).

(** [s.strip()] *)
Definition strip (s : str) : str := rstrip (lstrip s).

(** Truth value of a sequence: non-empty. *)
Definition truthy {A} (l : list A) : bool :=
  match l with [] => false | _ :: _ => true end.

(** Truth value of an [Optional] sequence: present and non-empty. *)
Definition opt_truthy {A} (o : option (list A)) : bool :=
  match o with Some l => truthy l | None => false end.

(** [a < b] on readings of the clock and on durations. *)
Definition ltb (a b : Q) : bool := negb (Qle_bool b a).

(** [max(a, b)]: the first argument unless the second is greater. *)
Definition max (a b : Q) : Q := if ltb a b then b else a.

(** [int(x)] of a float: truncation towards zero. *)
Definition int (x : Q) : Z := Z.quot (Qnum x) (Zpos (Qden x)).

(** [l[i]] with Python's negative indices. *)
Definition getitem {A} (l : list A) (i : Z) : result A :=
  let n := Z.of_nat (List.length l) in
  let j := if i <? 0 then i + n else i in
  if (0 <=? j) && (j <? n)
  then match nth_error l (Z.to_nat j) with
       | Some a => Ok a
       | None => Raise IndexError
       end
  else Raise IndexError.

(** An integer inside an f-string: its decimal digits. *)
Definition str_of_int (z : Z) : string := NilZero.string_of_int (Z.to_int z).

(** [a % b] on integers: the sign of the result follows [b]. *)
Definition mod_ (a b : Z) : result Z :=
  if b =? 0 then Raise ZeroDivisionError else Ok (a mod b).

End Py.

(* ================================================================== *)
(** ** Pillow images *)

Module Pil.

Definition RGB := (Z * Z * Z)%type.

Definition black : RGB := (0, 0, 0).
Definition white : RGB := (255, 255, 255).
Definition navy : RGB := (0, 0, 128).
Definition yellow : RGB := (255, 255, 0).

(** An image: its size and its pixel buffer, read by [pixel x y]
    (column [x], row [y]).  Only the pixels inside the size count. *)
Record Image := mkImage {
  width : Z;
  height : Z;
  pixel : Z -> Z -> RGB
}.

Inductive Resample := LANCZOS | NEAREST.

Definition inside (img : Image) (x y : Z) : bool :=
  (0 <=? x) && (x <? width img) && (0 <=? y) && (y <? height img).

(** [Image.new("RGB", (w, h), color)] *)
Definition new (w h : Z) (color : RGB) : Image :=
  mkImage w h (fun _ _ => color).

(** [img.crop((left, upper, right, lower))]: refuses a box whose right
    edge is left of its left edge (or lower above upper); what lies
    outside the source is black. *)
Definition crop (img : Image) (box : Z * Z * Z * Z) : Py.result Image :=
  let '(l, u, r, d) := box in
  if r <? l then Py.Raise Py.ValueError
  else if d <? u then Py.Raise Py.ValueError
  else Py.Ok (mkImage (r - l) (d - u)
                (fun x y => if inside img (x + l) (y + u)
                            then pixel img (x + l) (y + u)
                            else black)).

(** [dst.paste(src, (x0, y0))] *)
Definition paste (dst src : Image) (at_ : Z * Z) : Image :=
  let '(x0, y0) := at_ in
  mkImage (width dst) (height dst)
    (fun x y => if inside src (x - x0) (y - y0)
                then pixel src (x - x0) (y - y0)
                else pixel dst x y).

(** What the servers use of Pillow beyond the above and do not define
    themselves: resizing ([ImageOps.fit] after [convert("RGB")]) and the
    default font (its glyph mask relative to the anchor, the length
    [textlength] of a text of one line, [getbbox]).  The font is taken
    to render every string, as the default font of a Pillow with
    FreeType does. *)
Record Pillow := mkPillow {
  fit : Image -> Z * Z -> Resample -> Image;
  glyphs : Py.str -> Z -> Z -> bool;
  textlength : Py.str -> Q;
  getbbox : Py.str -> Z * Z * Z * Z
}.

(** [ImageDraw.Draw(img).text(anchor, text, fill=fill)]: paints the
    glyph pixels, keeps the size. *)
Definition draw_text (P : Pillow) (img : Image) (anchor : Z * Z)
           (text : Py.str) (fill : RGB) : Image :=
  let '(ax, ay) := anchor in
  mkImage (width img) (height img)
    (fun x y => if glyphs P text (x - ax) (y - ay) then fill
                else pixel img x y).

(** The code point of the line break. *)
Definition line_break : N := 10%N.

Definition multiline (text : Py.str) : bool :=
  existsb (N.eqb line_break) text.

(** [ImageDraw.Draw(img).textlength(text)]: Pillow refuses a text that
    contains a line break ([ValueError]: it cannot measure the length of
    a multiline text). *)
Definition draw_textlength (P : Pillow) (text : Py.str) : Py.result Q :=
  if multiline text then Py.Raise Py.ValueError
  else Py.Ok (textlength P text).

End Pil.

(* ================================================================== *)
(** ** [app.py]: the display manager *)

Module App.

Inductive JobType := IMAGE | TEXT | WEATHER | CLEAR | NOOP.

(** The dataclass [Job]: every field other than [type] has a default. *)
Record Job := mkJob {
  type : JobType;
  duration : option Q;
  id : Z;
  image : option Pil.Image;
  gif_frames : option (list Pil.Image);
  frame_delays : option (list Q);
  text : option Py.str;
  template : option Py.str
}.

(** [Job(type=t)] with the defaults of the dataclass. *)
Definition Job_ (t : JobType) : Job :=
  mkJob t None 0 None None None None None.

Definition set_id (job : Job) (i : Z) : Job :=
  mkJob (type job) (duration job) i (image job) (gif_frames job)
        (frame_delays job) (text job) (template job).

Record RGBMatrix := mkMatrix {
  matrix_width : Z;
  matrix_height : Z
}.

(** What the worker does to the outside world, in the order it does it. *)
Inductive Effect :=
| SetImage (frame : Pil.Image)
| Clear
| Sleep (secs : Q)
| Print (msg : string).

(** Where the worker thread stands in [_worker].  The loops of the
    render routines are cut at their [while] test. *)
Inductive Worker :=
| WIdle                       (* at [while self._running] / in [get()] *)
| WPopped (job : Job)         (* [get()] returned *)
| WCleared (job : Job)        (* [_cancel_evt.clear()] done *)
| WDispatch (job : Job)       (* [_current_job = job] done, in [try] *)
| WImageHold (duration : option Q) (start : Q)
| WGifLoop (frames : list Pil.Image) (delays : list Q)
           (duration : option Q) (w h : Z) (start : Q) (i : Z)
| WTextLoop (img : Pil.Image) (text_w : Q)
            (duration : option Q) (w h : Z) (start : Q) (x : Z)
| WFinally (exn : option Py.Exn)  (* entering [finally] *)
| WDead (e : Py.Exn)          (* the exception left [_worker] *)
| WExited.                    (* [_running] was found false *)

(** The manager, the world it acts on and its worker thread.  [popped]
    records the jobs in the order [get()] returned them. *)
Record DisplayManager := mkDM {
  _job_q : list Job;
  _current_job : option Job;
  _cancel_evt : bool;
  _next_id : Z;
  _running : bool;
  matrix : RGBMatrix;
  now : Q;
  faulty : bool;
  effects : list Effect;
  worker : Worker;
  popped : list Job
}.

Definition set_job_q (s : DisplayManager) (q : list Job) :=
  mkDM q (_current_job s) (_cancel_evt s) (_next_id s) (_running s)
       (matrix s) (now s) (faulty s) (effects s) (worker s) (popped s).
Definition set_current_job (s : DisplayManager) (c : option Job) :=
  mkDM (_job_q s) c (_cancel_evt s) (_next_id s) (_running s)
       (matrix s) (now s) (faulty s) (effects s) (worker s) (popped s).
Definition set_cancel_evt (s : DisplayManager) (b : bool) :=
  mkDM (_job_q s) (_current_job s) b (_next_id s) (_running s)
       (matrix s) (now s) (faulty s) (effects s) (worker s) (popped s).
Definition set_next_id (s : DisplayManager) (n : Z) :=
  mkDM (_job_q s) (_current_job s) (_cancel_evt s) n (_running s)
       (matrix s) (now s) (faulty s) (effects s) (worker s) (popped s).
Definition set_now (s : DisplayManager) (t : Q) :=
  mkDM (_job_q s) (_current_job s) (_cancel_evt s) (_next_id s) (_running s)
       (matrix s) t (faulty s) (effects s) (worker s) (popped s).
Definition set_faulty (s : DisplayManager) (b : bool) :=
  mkDM (_job_q s) (_current_job s) (_cancel_evt s) (_next_id s) (_running s)
       (matrix s) (now s) b (effects s) (worker s) (popped s).
Definition add_effect (s : DisplayManager) (e : Effect) :=
  mkDM (_job_q s) (_current_job s) (_cancel_evt s) (_next_id s) (_running s)
       (matrix s) (now s) (faulty s) (effects s ++ [e]) (worker s) (popped s).
Definition set_worker (s : DisplayManager) (w : Worker) :=
  mkDM (_job_q s) (_current_job s) (_cancel_evt s) (_next_id s) (_running s)
       (matrix s) (now s) (faulty s) (effects s) w (popped s).
Definition add_popped (s : DisplayManager) (job : Job) :=
  mkDM (_job_q s) (_current_job s) (_cancel_evt s) (_next_id s) (_running s)
       (matrix s) (now s) (faulty s) (effects s) (worker s) (popped s ++ [job]).

(** [DisplayManager(width, height)] at time [t0]: empty queue, no
    current job, event unset, first id 1, worker started. *)
Definition init (width height : Z) (t0 : Q) : DisplayManager :=
  mkDM [] None false 1 true (mkMatrix width height) t0 false [] WIdle [].

(* ---------------------------------------------------------------- *)
(** *** Producer side *)

Definition _next_job_id (s : DisplayManager) : Z * DisplayManager :=
  let jid := _next_id s in
  (jid, set_next_id s (_next_id s + 1)).

(** [enqueue] run from its first statement to its last with no other
    thread in between, on a job that the caller has just built (every
    call site of the repository does), so that the object whose [id] it
    sets is referred to from nowhere else.  [Calls.take_id],
    [Calls.store_id], [Calls.put] and [Calls.return_id] are its steps
    taken apart, on a job that may be shared. *)
Definition enqueue (job : Job) (s : DisplayManager) : Z * DisplayManager :=
  let '(jid, s1) := _next_job_id s in
  let job := set_id job jid in
  let s2 := set_job_q s1 (_job_q s1 ++ [job]) in
  (id job, s2).

Definition clear (s : DisplayManager) : DisplayManager :=
  snd (enqueue (Job_ CLEAR) s).

Definition stop_current (s : DisplayManager) : DisplayManager :=
  set_cancel_evt s true.

Record Status := mkStatus {
  current_job_id : option Z;
  current_job_type : option JobType;
  queue_size : nat
}.

Definition status (s : DisplayManager) : Status :=
  mkStatus (option_map id (_current_job s))
           (option_map type (_current_job s))
           (List.length (_job_q s)).

(* ---------------------------------------------------------------- *)
(** *** The worker's code: a state and exception monad

    A computation acts on the manager and either returns a value or
    raises; what it did before raising stays done. *)

Definition M (A : Type) : Type :=
  DisplayManager -> Py.result A * DisplayManager.

Definition ret {A} (a : A) : M A := fun s => (Py.Ok a, s).

Definition bind {A B} (m : M A) (k : A -> M B) : M B :=
  fun s => match m s with
           | (Py.Ok a, s') => k a s'
           | (Py.Raise e, s') => (Py.Raise e, s')
           end.

Definition lift {A} (r : Py.result A) : M A := fun s => (r, s).

Notation "x <- m ;; k" := (bind m (fun x => k))
  (at level 61, m at next level, right associativity).
Notation "m ;;; k" := (bind m (fun _ => k))
  (at level 61, right associativity).

Definition time_time : M Q := fun s => (Py.Ok (now s), s).

(** [time.sleep(d)]: the clock moves on by [d]. *)
Definition time_sleep (d : Q) : M unit :=
  fun s => (Py.Ok tt, add_effect (set_now s (now s + d)%Q) (Sleep d)).

Definition print (msg : string) : M unit :=
  fun s => (Py.Ok tt, add_effect s (Print msg)).

(** [self.matrix.SetImage(frame)]: raises while the matrix is failing. *)
Definition matrix_SetImage (frame : Pil.Image) : M unit :=
  fun s => if faulty s then (Py.Raise Py.SinkError, s)
           else (Py.Ok tt, add_effect s (SetImage frame)).

Definition matrix_Clear : M unit :=
  fun s => if faulty s then (Py.Raise Py.SinkError, s)
           else (Py.Ok tt, add_effect s Clear).

(** [w, h = self.matrix.width, self.matrix.height]; the module binds
    [RGBMatrix] to a class or fails to import, so [self.matrix] is
    never [None] and the dry-mode branches are not reachable. *)
Definition matrix_size : M (Z * Z) :=
  fun s => (Py.Ok (matrix_width (matrix s), matrix_height (matrix s)), s).

(** The test of the three [while] loops:
    [not self._cancel_evt.is_set() and
     (duration is None or time.time() - start < duration)]. *)
Definition keep_going (s : DisplayManager) (duration : option Q)
           (start : Q) : bool :=
  negb (_cancel_evt s) &&
  match duration with
  | None => true
  | Some d => Py.ltb (now s - start)%Q d
  end.

(** The exit condition in the specification's words:
    [cancellationSignal.isSet() OR (duration is set AND elapsed >= duration)]. *)
Definition exit_condition (s : DisplayManager) (duration : option Q)
           (start : Q) : bool :=
  _cancel_evt s ||
  match duration with
  | None => false
  | Some d => Qle_bool d (now s - start)%Q
  end.

Section Render.

Variable P : Pil.Pillow.

(** [_display_image] up to its [while] *)
Definition _display_image (img : Pil.Image) (duration : option Q)
  : M Worker :=
  start <- time_time ;;
  wh <- matrix_size ;;
  let frame := Pil.fit P img wh Pil.LANCZOS in
  matrix_SetImage frame ;;;
  ret (WImageHold duration start).

(** the body of its [while] *)
Definition _display_image_body : M unit :=
  time_sleep (5 # 100).

(** [_display_gif] up to its [while] *)
Definition _display_gif (frames : list Pil.Image) (delays : list Q)
           (duration : option Q) : M Worker :=
  start <- time_time ;;
  wh <- matrix_size ;;
  let i := 0 in
  ret (WGifLoop frames delays duration (fst wh) (snd wh) start i).

(** the body of its [while]; returns the next [i] *)
Definition _display_gif_body (frames : list Pil.Image) (delays : list Q)
           (w h : Z) (i : Z) : M Z :=
  fr <- lift (Py.getitem frames i) ;;
  let f := Pil.fit P fr (w, h) Pil.NEAREST in
  matrix_SetImage f ;;;
  d <- lift (Py.getitem delays i) ;;
  let delay := Py.max (1 # 100) d in
  time_sleep delay ;;;
  lift (Py.mod_ (i + 1) (Z.of_nat (List.length frames))).

(** [_display_text_scroll] up to its [while] *)
Definition _display_text_scroll (text : Py.str) (duration : option Q)
  : M Worker :=
  wh <- matrix_size ;;
  let '(w, h) := wh in
  let img := Pil.new 1000 h Pil.black in
  let '(_, _, _, bottom) := Pil.getbbox P text in
  let img := Pil.draw_text P img (0, (h - bottom) / 2) text Pil.white in
  text_w <- lift (Pil.draw_textlength P text) ;;
  start <- time_time ;;
  let x := 0 in
  ret (WTextLoop img text_w duration w h start x).

(** The frame shown at offset [x]: one crop, or two slices pasted
    side by side when the box passes the right edge of [img]. *)
Definition scroll_frame (img : Pil.Image) (w h : Z) (x : Z)
  : Py.result Pil.Image :=
  let box := (x, 0, x + w, h) in
  if x + w <=? Pil.width img then Pil.crop img box
  else
    match Pil.crop img (x, 0, Pil.width img, h) with
    | Py.Raise e => Py.Raise e
    | Py.Ok right_ =>
        match Pil.crop img (0, 0, w - Pil.width right_, h) with
        | Py.Raise e => Py.Raise e
        | Py.Ok left_ =>
            let frame := Pil.new w h Pil.black in
            let frame := Pil.paste frame right_ (0, 0) in
            let frame := Pil.paste frame left_ (Pil.width right_, 0) in
            Py.Ok frame
        end
    end.

(** the body of its [while]; returns the next [x] *)
Definition _display_text_scroll_body (img : Pil.Image) (text_w : Q)
           (w h : Z) (x : Z) : M Z :=
  x <- lift (Py.mod_ (x + 1) (Py.int text_w + w)) ;;
  frame <- lift (scroll_frame img w h x) ;;
  matrix_SetImage frame ;;;
  time_sleep (2 # 100) ;;;
  ret x.

Definition _display_weather_template (template : Py.str)
           (duration : option Q) : M Worker :=
  let img := Pil.new 64 32 Pil.navy in
  let label := (Py.of_string "Weather:" ++ [10%N] ++ template)%list in
  let img := Pil.draw_text P img (1, 1) label Pil.yellow in
  _display_image img duration.

(* -------------------------------------------------------------- *)
(** *** [_worker] *)

(** The [try] block, from the dispatch on [job.type] to the [while]
    of the routine it calls (or to its end). *)
Definition dispatch (job : Job) : M Worker :=
  match type job with
  | CLEAR =>
      matrix_Clear ;;;
      time_sleep (5 # 100) ;;;
      ret (WFinally None)
  | IMAGE =>
      match gif_frames job, image job with
      | Some (f :: fs), _ =>
          let frames := (f :: fs)%list in
          let delays :=
            if Py.opt_truthy (frame_delays job)
            then match frame_delays job with Some l => l | None => [] end
            else repeat (7 # 100)%Q (List.length frames) in
          _display_gif frames delays (duration job)
      | _, Some img => _display_image img (duration job)
      | _, None =>
          print "[Display] IMAGE job missing content" ;;;
          ret (WFinally None)
      end
  | TEXT =>
      let text := match text job with
                  | Some (c :: r) => (c :: r)%list
                  | _ => []
                  end in
      _display_text_scroll text (duration job)
  | WEATHER =>
      let template := match template job with
                      | Some (c :: r) => (c :: r)%list
                      | _ => Py.of_string "default"
                      end in
      _display_weather_template template (duration job)
  | NOOP =>
      time_sleep (1 # 100) ;;;
      ret (WFinally None)
  end.

(** Runs a piece of the [try] block: a normal end gives the next
    position, an exception leads to [finally] with it pending. *)
Definition in_try (m : M Worker) (s : DisplayManager) : DisplayManager :=
  match m s with
  | (Py.Ok pc, s') => set_worker s' pc
  | (Py.Raise e, s') => set_worker s' (WFinally (Some e))
  end.

(** One step of the worker thread. *)
Definition worker_step (s : DisplayManager) : DisplayManager :=
  match worker s with
  | WIdle =>
      if _running s then
        match _job_q s with
        | [] => s                                   (* blocked in [get()] *)
        | job :: rest =>
            set_worker (add_popped (set_job_q s rest) job) (WPopped job)
        end
      else set_worker s WExited
  | WPopped job =>
      set_worker (set_cancel_evt s false) (WCleared job)
  | WCleared job =>
      set_worker (set_current_job s (Some job)) (WDispatch job)
  | WDispatch job =>
      in_try (dispatch job) s
  | WImageHold duration start =>
      if keep_going s duration start
      then in_try (_display_image_body ;;;
                   ret (WImageHold duration start)) s
      else set_worker s (WFinally None)
  | WGifLoop frames delays duration w h start i =>
      if keep_going s duration start
      then in_try (i' <- _display_gif_body frames delays w h i ;;
                   ret (WGifLoop frames delays duration w h start i')) s
      else set_worker s (WFinally None)
  | WTextLoop img text_w duration w h start x =>
      if keep_going s duration start
      then in_try (x' <- _display_text_scroll_body img text_w w h x ;;
                   ret (WTextLoop img text_w duration w h start x')) s
      else set_worker s (WFinally None)
  | WFinally exn =>
      (* [finally]: the current job is cleared; [try] has no
         [except], so a pending exception then leaves [_worker] *)
      let s := set_current_job s None in
      match exn with
      | None => set_worker s WIdle
      | Some e => set_worker s (WDead e)
      end
  | WDead _ => s
  | WExited => s
  end.

End Render.

(* ---------------------------------------------------------------- *)
(** *** The HTTP endpoints

    Requests are taken after validation by their pydantic model; a
    [duration] of [None] is an explicit null. *)

Inductive Response :=
| RStatus (st : Status)
| ROk                                    (* [{"ok": True}] *)
| RJob (job_id : Z)                      (* [{"ok": True, "job_id": jid}] *)
| RImage (job_id : Z) (animated : bool)
| HTTPException (status_code : Z) (detail : string)
| Unhandled (e : Py.Exn).                (* an exception left the endpoint:
                                            the framework answers 500 *)

Record ShowTextRequest := mkShowText {
  st_text : Py.str;
  st_duration : option Q
}.

Record ShowWeatherRequest := mkShowWeather {
  sw_template : Py.str;
  sw_duration : option Q
}.

(** What fetching and opening the URL of a [ShowImageRequest] gave: the
    image and, when it is animated, its frames with the [duration]
    entry (milliseconds) of each frame's [info], if any. *)
Definition Opened : Type :=
  (Pil.Image * option (list (Pil.Image * option Q)))%type.

(** What became of the bytes received.  [Image.open] reads the header
    only; the pixels are decoded later, by [is_animated], the iteration
    over the frames and [convert("RGB")], which [show_image] calls
    outside its [try] blocks.  [msg] is [str] of the exception caught. *)
Inductive Opening :=
| OpenFailed (msg : string)            (* [Image.open] raised *)
| DecodeFailed (e : Py.Exn)            (* opened, then decoding raised *)
| Decoded (o : Opened).

Inductive Fetched :=
| FetchFailed (msg : string)           (* [requests.get] raised *)
| Got (status_code : Z) (opening : Opening).

(** [max(0.01, frame.info.get("duration", 70) / 1000.0)] *)
Definition frame_delay (fr : Pil.Image * option Q) : Q :=
  let ms := match snd fr with Some d => d | None => 70%Q end in
  Py.max (1 # 100) (ms / 1000)%Q.

(** The job [show_image] builds from an opened image. *)
Definition image_job (req_duration : option Q) (o : Opened) : Job :=
  let '(img, animated) := o in
  let gif_frames := option_map (map fst) animated in
  let delays := option_map (map frame_delay) animated in
  mkJob IMAGE req_duration 0
        (if Py.opt_truthy gif_frames then None else Some img)
        gif_frames delays None None.

Definition get_status (s : DisplayManager) : Response * DisplayManager :=
  (RStatus (status s), s).

Definition clear_matrix (s : DisplayManager) : Response * DisplayManager :=
  (ROk, clear s).

Definition post_stop_current (s : DisplayManager)
  : Response * DisplayManager :=
  (ROk, stop_current s).

Definition show_image (req_duration : option Q) (fetched : Fetched)
           (s : DisplayManager) : Response * DisplayManager :=
  match fetched with
  | FetchFailed msg =>
      (HTTPException 400 ("Failed to fetch URL: " ++ msg), s)
  | Got status_code opening =>
      if negb (status_code =? 200)
      then (HTTPException 400
              ("HTTP " ++ Py.str_of_int status_code ++ " fetching image"), s)
      else
        match opening with
        | OpenFailed msg =>
            (HTTPException 400 ("Not a valid image: " ++ msg), s)
        | DecodeFailed e => (Unhandled e, s)
        | Decoded o =>
            let job := image_job req_duration o in
            let '(jid, s') := enqueue job s in
            (RImage jid (Py.opt_truthy (gif_frames job)), s')
        end
  end.

Definition show_text (req : ShowTextRequest) (s : DisplayManager)
  : Response * DisplayManager :=
  if negb (Py.truthy (Py.strip (st_text req)))
  then (HTTPException 400 "text must not be empty", s)
  else
    let '(jid, s') :=
      enqueue (mkJob TEXT (st_duration req) 0 None None None
                     (Some (st_text req)) None) s in
    (RJob jid, s').

Definition show_weather (req : ShowWeatherRequest) (s : DisplayManager)
  : Response * DisplayManager :=
  let '(jid, s') :=
    enqueue (mkJob WEATHER (sw_duration req) 0 None None None None
                   (Some (sw_template req))) s in
  (RJob jid, s').

(* ---------------------------------------------------------------- *)
(** *** Schedules

    A request is one move: its handler runs to its end before any other
    thread moves, and the job it enqueues is an object of its own.
    Requests that overlap, and jobs enqueued twice, are the subject of
    [Calls]. *)

Inductive Action :=
| GetStatus
| PostClear
| PostStop
| PostShowImage (duration : option Q) (fetched : Fetched)
| PostShowText (req : ShowTextRequest)
| PostShowWeather (req : ShowWeatherRequest)
| CallEnqueue (job : Job)      (* [manager.enqueue(Job(...))] by other
                                  code, on a job built for the call *)
| WorkerStep
| Tick (dt : Q)                (* time passes *)
| Fault (b : bool).            (* the matrix starts or ceases to fail *)

Section Run.

Variable P : Pil.Pillow.

Definition step (s : DisplayManager) (a : Action)
  : option Response * DisplayManager :=
  match a with
  | GetStatus => let '(r, s') := get_status s in (Some r, s')
  | PostClear => let '(r, s') := clear_matrix s in (Some r, s')
  | PostStop => let '(r, s') := post_stop_current s in (Some r, s')
  | PostShowImage d f => let '(r, s') := show_image d f s in (Some r, s')
  | PostShowText req => let '(r, s') := show_text req s in (Some r, s')
  | PostShowWeather req =>
      let '(r, s') := show_weather req s in (Some r, s')
  | CallEnqueue job =>
      let '(jid, s') := enqueue job s in (Some (RJob jid), s')
  | WorkerStep => (None, worker_step P s)
  | Tick dt => (None, set_now s (now s + dt)%Q)
  | Fault b => (None, set_faulty s b)
  end.

Fixpoint run (s : DisplayManager) (sched : list Action)
  : DisplayManager :=
  match sched with
  | [] => s
  | a :: rest => run (snd (step s a)) rest
  end.

(** The answers given to the requests of a schedule, in order. *)
Fixpoint replies (s : DisplayManager) (sched : list Action)
  : list Response :=
  match sched with
  | [] => []
  | a :: rest =>
      match step s a with
      | (Some r, s') => r :: replies s' rest
      | (None, s') => replies s' rest
      end
  end.

End Run.

(** The job an action hands to [enqueue], if it hands one. *)
Definition job_of_action (a : Action) : option Job :=
  match a with
  | PostClear => Some (Job_ CLEAR)
  | PostShowImage d (Got status_code (Decoded o)) =>
      if negb (status_code =? 200) then None else Some (image_job d o)
  | PostShowText req =>
      if negb (Py.truthy (Py.strip (st_text req))) then None
      else Some (mkJob TEXT (st_duration req) 0 None None None
                       (Some (st_text req)) None)
  | PostShowWeather req =>
      Some (mkJob WEATHER (sw_duration req) 0 None None None None
                  (Some (sw_template req)))
  | CallEnqueue job => Some job
  | _ => None
  end.

(** The jobs a schedule submits, in order, numbered from [n]. *)
Fixpoint submitted (n : Z) (sched : list Action) : list Job :=
  match sched with
  | [] => []
  | a :: rest =>
      match job_of_action a with
      | Some job => set_id job n :: submitted (n + 1) rest
      | None => submitted n rest
      end
  end.

(** The invariants of a job in the specification's data model:
    a duration, if present, is positive; Image, Text and Weather jobs
    carry their payload; Clear and Noop carry none. *)
Definition spec_valid_job (job : Job) : bool :=
  match duration job with
  | Some d => Py.ltb 0 d
  | None => true
  end &&
  match type job with
  | IMAGE => Py.opt_truthy (gif_frames job)
             || match image job with Some _ => true | None => false end
  | TEXT => Py.opt_truthy (text job)
  | WEATHER => Py.opt_truthy (template job)
  | CLEAR | NOOP =>
      match image job, gif_frames job, frame_delays job,
            text job, template job with
      | None, None, None, None, None => true
      | _, _, _, _, _ => false
      end
  end.

(* ---------------------------------------------------------------- *)
(** *** Vocabulary for the statements *)

(** [n], [n+1], ..., [n+k-1] *)
Fixpoint iota (n : Z) (k : nat) : list Z :=
  match k with
  | O => []
  | S k => n :: iota (n + 1) k
  end.

(** [s] with the clock set to [t] and the effects [eff] added. *)
Definition with_world (s : DisplayManager) (t : Q) (eff : list Effect)
  : DisplayManager :=
  mkDM (_job_q s) (_current_job s) (_cancel_evt s) (_next_id s) (_running s)
       (matrix s) t (faulty s) (effects s ++ eff) (worker s) (popped s).

(** A schedule in which nobody asks to stop and the matrix does not
    start to fail. *)
Definition undisturbed (sched : list Action) : bool :=
  forallb (fun a => match a with
                    | PostStop => false
                    | Fault true => false
                    | _ => true
                    end) sched.

(** The number of steps the worker takes in a schedule. *)
Definition worker_steps (sched : list Action) : nat :=
  List.length (filter (fun a => match a with
                                | WorkerStep => true
                                | _ => false
                                end) sched).

(** The frames written to the matrix, in order. *)
Definition frames_written (eff : list Effect) : list Pil.Image :=
  flat_map (fun e => match e with
                     | SetImage f => [f]
                     | _ => []
                     end) eff.

(** A computation of the worker that touches nothing but the clock
    and the outside world. *)
Definition world_only {A} (m : M A) : Prop :=
  forall s, exists t eff, snd (m s) = with_world s t eff.

(** Positions inside a render routine or at its end. *)
Definition rendering (pc : Worker) : Prop :=
  match pc with
  | WImageHold _ _ | WGifLoop _ _ _ _ _ _ _ | WTextLoop _ _ _ _ _ _ _
  | WFinally _ => True
  | _ => False
  end.

(** A piece of the worker's code that, when it does not raise, leaves
    the worker at a position satisfying [Q]. *)
Definition lands (Q : Worker -> Prop) (m : M Worker) : Prop :=
  forall s, match fst (m s) with
            | Py.Ok pc => Q pc
            | Py.Raise _ => True
            end.



(** A schedule in which nobody asks to stop. *)
Definition no_stop (sched : list Action) : bool :=
  forallb (fun a => match a with
                    | PostStop => false
                    | _ => true
                    end) sched.

(** Where the worker can be once it is in a loop with no duration, as
    long as the event is unset: in such a loop, or ended by an
    exception. *)
Definition unexpired (pc : Worker) : Prop :=
  match pc with
  | WImageHold None _ | WGifLoop _ _ None _ _ _ _
  | WTextLoop _ _ None _ _ _ _ => True
  | WFinally (Some _) | WDead _ => True
  | _ => False
  end.


(** What the dispatch of a job does to the world before the first test
    of a loop, the matrix working: a Clear job clears, a still image
    and the weather template are written, an animation and a text write
    nothing yet. *)
Definition shown_at_dispatch (P : Pil.Pillow) (m : RGBMatrix) (job : Job)
  : list Effect :=
  let size := (matrix_width m, matrix_height m) in
  match type job with
  | CLEAR => [Clear; Sleep (5 # 100)]
  | NOOP => [Sleep (1 # 100)]
  | TEXT => []
  | WEATHER =>
      let template := match template job with
                      | Some (c :: r) => (c :: r)%list
                      | _ => Py.of_string "default"
                      end in
      let label := (Py.of_string "Weather:" ++ [10%N] ++ template)%list in
      [SetImage (Pil.fit P (Pil.draw_text P (Pil.new 64 32 Pil.navy) (1, 1)
                              label Pil.yellow) size Pil.LANCZOS)]
  | IMAGE =>
      match gif_frames job, image job with
      | Some (_ :: _), _ => []
      | _, Some img => [SetImage (Pil.fit P img size Pil.LANCZOS)]
      | _, None => [Print "[Display] IMAGE job missing content"]
      end
  end.

(** One pass of the animation at index [k]: the frame written and the
    hold that follows. *)
Definition gif_pass (P : Pil.Pillow) (frames : list Pil.Image)
           (delays : list Q) (w h : Z) (k : Z) : list Effect :=
  match nth_error frames (Z.to_nat k), nth_error delays (Z.to_nat k) with
  | Some fr, Some dl =>
      [SetImage (Pil.fit P fr (w, h) Pil.NEAREST);
       Sleep (Py.max (1 # 100) dl)]
  | _, _ => []
  end.

(** [n] passes of the animation from index [i], with wraparound. *)
Definition gif_effects (P : Pil.Pillow) (frames : list Pil.Image)
           (delays : list Q) (w h : Z) (i : Z) (n : nat) : list Effect :=
  flat_map (fun k => gif_pass P frames delays w h
                       ((i + Z.of_nat k) mod Z.of_nat (List.length frames)))
           (seq 0 n).

(** One tick of the scroll at offset [off]. *)
Definition text_pass (img : Pil.Image) (w h : Z) (off : Z) : list Effect :=
  match scroll_frame img w h off with
  | Py.Ok frame => [SetImage frame; Sleep (2 # 100)]
  | Py.Raise _ => []
  end.

(** [n] ticks of the scroll after offset [x], modulo [m]. *)
Definition text_effects (img : Pil.Image) (w h : Z) (m : Z) (x : Z)
           (n : nat) : list Effect :=
  flat_map (fun k => text_pass img w h ((x + 1 + Z.of_nat k) mod m))
           (seq 0 n).

(** The offsets at which the first [n] frames of a scroll are shown,
    [x] being the offset before the first tick. *)
Definition offsets (m : Z) (x : Z) (n : nat) : list Z :=
  map (fun k => (x + 1 + Z.of_nat k) mod m) (seq 0 n).

(** Empty or made of whitespace only. *)
Definition whitespace_only (t : Py.str) : bool := forallb Py.isspace t.

(** The job [get()] returned last. *)
Definition last_popped (s : DisplayManager) : option Job :=
  match rev (popped s) with
  | job :: _ => Some job
  | [] => None
  end.

(** How [_current_job] stands to the position of the worker: unset
    while the worker waits, has just popped a job or has ended; the job
    being processed from its publication to [finally]; and then the job
    popped last. *)
Definition current_job_ok (s : DisplayManager) : Prop :=
  match worker s with
  | WIdle | WDead _ | WExited => _current_job s = None
  | WPopped job | WCleared job =>
      _current_job s = None /\ last_popped s = Some job
  | WDispatch job =>
      _current_job s = Some job /\ last_popped s = Some job
  | WImageHold _ _ | WGifLoop _ _ _ _ _ _ _ | WTextLoop _ _ _ _ _ _ _
  | WFinally _ =>
      exists job, _current_job s = Some job /\ last_popped s = Some job
  end.

(** Jobs whose branch of [_worker] has no loop. *)
Definition quick (job : Job) : bool :=
  match type job with
  | CLEAR | NOOP => true
  | _ => false
  end.

(** What such a job does to the world when the matrix works. *)
Definition quick_effects (job : Job) : list Effect :=
  match type job with
  | CLEAR => [Clear; Sleep (5 # 100)]
  | NOOP => [Sleep (1 # 100)]
  | _ => []
  end.

(** The duration and the start time of the loop the worker is in. *)
Definition loop_of (w : Worker) : option (option Q * Q) :=
  match w with
  | WImageHold d st | WGifLoop _ _ d _ _ st _ | WTextLoop _ _ d _ _ st _ =>
      Some (d, st)
  | _ => None
  end.

End App.

(* ================================================================== *)
(** ** [app.py]: calls of [enqueue] that overlap or share a job

    In [app.py] [enqueue] is three statements:
    [job.id = self._next_job_id()], [self._job_q.put(job)] and
    [return job.id].  The lock is held only while [_next_job_id] reads
    and advances the counter: another thread can run between that call
    and the assignment to [job.id], and between any two statements.
    And a [Job] is a mutable object: the caller, the queue, the worker
    and [_current_job] refer to the same object, so that setting its
    [id] shows everywhere.  Here the jobs live in a store and the steps
    of [enqueue] are separate moves of a schedule. *)

Module Calls.

(** A reference to a [Job] object: its place in the store. *)
Definition Ref := nat.

(** The manager, the store and who refers to what.  The jobs inside
    [manager] (in [_job_q], in [_current_job] and in the position of the
    worker) are the objects as the store has them.  A call of
    [enqueue(job)] under way is in [taking] once it has taken an id, in
    [calls] once it has set it and in [returning] once it has put the
    job.  [assigned], [returned],
    [put_order] and [got_order] record what happened, in order: the
    values [_next_job_id] handed out, the values [enqueue] returned, the
    objects put on the queue and the objects [get()] returned. *)
Record State := mkState {
  manager : App.DisplayManager;
  store : list App.Job;
  queued : list Ref;          (* the object behind each entry of [_job_q] *)
  held : option Ref;          (* the object of the worker's variable [job] *)
  taking : list (Ref * Z);    (* calls between [_next_job_id()] and the
                                 assignment: the object passed, the id
                                 taken *)
  calls : list Ref;           (* calls between [job.id = ...] and
                                 [put]: the object passed *)
  returning : list Ref;       (* calls between [put] and [return] *)
  assigned : list Z;
  returned : list Z;
  put_order : list Ref;
  got_order : list Ref
}.

Definition init (width height : Z) (t0 : Q) : State :=
  mkState (App.init width height t0) [] [] None [] [] [] [] [] [] [].

Definition lookup (objects : list App.Job) (r : Ref) : App.Job :=
  nth r objects (App.Job_ App.NOOP).

Definition deref (st : State) (r : Ref) : App.Job := lookup (store st) r.

(** [objects[r] = job] *)
Fixpoint assign (objects : list App.Job) (r : Ref) (job : App.Job)
  : list App.Job :=
  match objects, r with
  | [], _ => []
  | _ :: rest, O => job :: rest
  | o :: rest, S r => o :: assign rest r job
  end.

Fixpoint remove_nth {A} (l : list A) (k : nat) : list A :=
  match l, k with
  | [], _ => []
  | _ :: rest, O => rest
  | a :: rest, S k => a :: remove_nth rest k
  end.

(** The job the worker holds at positions that carry one. *)
Definition refresh_worker (job : App.Job) (pc : App.Worker) : App.Worker :=
  match pc with
  | App.WPopped _ => App.WPopped job
  | App.WCleared _ => App.WCleared job
  | App.WDispatch _ => App.WDispatch job
  | _ => pc
  end.

(** The manager once an object has changed: every reference shows the
    object as the store now has it. *)
Definition refresh (objects : list App.Job) (queued : list Ref)
           (held : option Ref) (m : App.DisplayManager)
  : App.DisplayManager :=
  let m := App.set_job_q m (map (lookup objects) queued) in
  match held with
  | None => m
  | Some r =>
      let job := lookup objects r in
      App.set_worker
        (App.set_current_job m
           (option_map (fun _ => job) (App._current_job m)))
        (refresh_worker job (App.worker m))
  end.

(** A caller builds a [Job]. *)
Definition build (job : App.Job) (st : State) : State :=
  mkState (manager st) (store st ++ [job]) (queued st) (held st) (taking st)
          (calls st) (returning st) (assigned st) (returned st)
          (put_order st) (got_order st).

(** A call [enqueue(job)], [job] being the object [r], evaluates
    [self._next_job_id()]. *)
Definition take_id (r : Ref) (st : State) : State :=
  match nth_error (store st) r with
  | None => st
  | Some _ =>
      let '(jid, m) := App._next_job_id (manager st) in
      mkState m (store st) (queued st) (held st) (taking st ++ [(r, jid)])
              (calls st) (returning st) (assigned st ++ [jid]) (returned st)
              (put_order st) (got_order st)
  end.

(** The [k]-th of the calls that have taken an id assigns it:
    [job.id = ...]. *)
Definition store_id (k : nat) (st : State) : State :=
  match nth_error (taking st) k with
  | None => st
  | Some (r, jid) =>
      let objects := assign (store st) r (App.set_id (deref st r) jid) in
      mkState (refresh objects (queued st) (held st) (manager st)) objects
              (queued st) (held st) (remove_nth (taking st) k)
              (calls st ++ [r]) (returning st) (assigned st) (returned st)
              (put_order st) (got_order st)
  end.

(** The [k]-th of the calls that have set the id puts the job:
    [self._job_q.put(job)]. *)
Definition put (k : nat) (st : State) : State :=
  match nth_error (calls st) k with
  | None => st
  | Some r =>
      let job := deref st r in
      let m := manager st in
      mkState (App.set_job_q m (App._job_q m ++ [job])) (store st)
              (queued st ++ [r]) (held st) (taking st)
              (remove_nth (calls st) k) (returning st ++ [r]) (assigned st)
              (returned st) (put_order st ++ [r]) (got_order st)
  end.

(** The [k]-th of the calls that have put the job returns:
    [return job.id], the id the object has by then. *)
Definition return_id (k : nat) (st : State) : State :=
  match nth_error (returning st) k with
  | None => st
  | Some r =>
      mkState (manager st) (store st) (queued st) (held st) (taking st)
              (calls st) (remove_nth (returning st) k) (assigned st)
              (returned st ++ [App.id (deref st r)]) (put_order st)
              (got_order st)
  end.

(** Keeping the references in step with a move of the manager: when
    the worker has popped a job, it holds the object that was at the
    head of the queue. *)
Definition track (before : App.DisplayManager) (after : App.DisplayManager)
           (st : State) : State :=
  match App.worker before, App.worker after, queued st with
  | App.WIdle, App.WPopped _, r :: rest =>
      mkState after (store st) rest (Some r) (taking st) (calls st)
              (returning st) (assigned st) (returned st) (put_order st)
              (got_order st ++ [r])
  | _, _, _ =>
      mkState after (store st) (queued st) (held st) (taking st) (calls st)
              (returning st) (assigned st) (returned st) (put_order st)
              (got_order st)
  end.

Inductive Op :=
| Alone (a : App.Action)     (* a move of [App.step]; a request that
                                enqueues builds its job and runs
                                [enqueue] from its start to its end *)
| Build (job : App.Job)
| TakeId (r : Ref)
| StoreId (k : nat)
| Put (k : nat)
| Return (k : nat).

Section Run.

Variable P : Pil.Pillow.

Definition step (st : State) (op : Op) : State :=
  match op with
  | Alone a =>
      match App.job_of_action a with
      | Some job =>
          let st := build job st in
          let st := take_id (Nat.pred (List.length (store st))) st in
          let st := store_id (Nat.pred (List.length (taking st))) st in
          let st := put (Nat.pred (List.length (calls st))) st in
          return_id (Nat.pred (List.length (returning st))) st
      | None =>
          track (manager st) (snd (App.step P (manager st) a)) st
      end
  | Build job => build job st
  | TakeId r => take_id r st
  | StoreId k => store_id k st
  | Put k => put k st
  | Return k => return_id k st
  end.

Fixpoint run (st : State) (ops : list Op) : State :=
  match ops with
  | [] => st
  | op :: rest => run (step st op) rest
  end.

End Run.

(** The job a position of the worker carries. *)
Definition job_in_hand (pc : App.Worker) : option App.Job :=
  match pc with
  | App.WPopped job | App.WCleared job | App.WDispatch job => Some job
  | _ => None
  end.

(** The references are in step with the manager: every reference is
    to an object of the store, the queue of the manager lists the
    objects queued, the job at the worker's position and the current
    job, if any, are the object the worker holds, and no job is current
    while the worker waits. *)
Definition coherent (st : State) : Prop :=
  App._job_q (manager st) = map (deref st) (queued st)
  /\ Forall (fun r => (r < List.length (store st))%nat) (queued st)
  /\ Forall (fun c => (fst c < List.length (store st))%nat) (taking st)
  /\ Forall (fun r => (r < List.length (store st))%nat) (calls st)
  /\ Forall (fun r => (r < List.length (store st))%nat) (returning st)
  /\ (forall r, held st = Some r -> (r < List.length (store st))%nat)
  /\ (forall job, job_in_hand (App.worker (manager st)) = Some job ->
        exists r, held st = Some r /\ job = deref st r)
  /\ (forall job, App._current_job (manager st) = Some job ->
        exists r, held st = Some r /\ job = deref st r)
  /\ (App.worker (manager st) = App.WIdle ->
      App._current_job (manager st) = None).

(** The ids the jobs carried when [get()] returned them. *)
Definition popped_ids (st : State) : list Z :=
  map App.id (App.popped (manager st)).

(** The object [get()] returned last. *)
Definition last_got (st : State) : option Ref :=
  match rev (got_order st) with
  | r :: _ => Some r
  | [] => None
  end.

(** Positions of the worker from the dispatch of a job to its
    [finally]. *)
Definition processing (pc : App.Worker) : bool :=
  match pc with
  | App.WDispatch _ | App.WImageHold _ _ | App.WGifLoop _ _ _ _ _ _ _
  | App.WTextLoop _ _ _ _ _ _ _ | App.WFinally _ => true
  | _ => false
  end.

(** The worker holds the object it got last, and a job is current
    while the worker processes one. *)
Definition in_hand (st : State) : Prop :=
  held st = last_got st
  /\ (processing (App.worker (manager st)) = true ->
      App._current_job (manager st) <> None).

(** A schedule in which nobody asks to stop. *)
Definition no_stop (ops : list Op) : bool :=
  forallb (fun op => match op with
                     | Alone App.PostStop => false
                     | _ => true
                     end) ops.

End Calls.

(* ================================================================== *)
(** ** [pi_server.py]: one thread per request *)

Module PiServer.

(** A decoded JSON value, as [json.loads] returns it. *)
#[local] Unset Elimination Schemes.
Inductive JSON :=
| JNull
| JBool (b : bool)
| JNum (x : Q)
| JStr (s : Py.str)
| JArr (items : list JSON)
| JObj (members : list (string * JSON)).
#[local] Set Elimination Schemes.

(** A Python [dict] with string keys: the members of a JSON object, in
    the order of the text parsed. *)
Definition Dict := list (string * JSON).

(** [data.get(key)]; of a key given twice [json.loads] keeps the value
    given last. *)
Fixpoint get (data : Dict) (key : string) : option JSON :=
  match data with
  | [] => None
  | (k, v) :: rest =>
      match get rest key with
      | Some v' => Some v'
      | None => if String.eqb k key then Some v else None
      end
  end.

(** [data.get(key, default)]; an absent key and [None] both give [JNull]
    for [get_opt]. *)
Definition get_default (data : Dict) (key : string) (default : JSON)
  : JSON :=
  match get data key with Some v => v | None => default end.

Definition get_opt (data : Dict) (key : string) : JSON :=
  get_default data key JNull.

(** Truth value of a JSON value in an [if]. *)
Definition truthy (v : JSON) : bool :=
  match v with
  | JNull => false
  | JBool b => b
  | JNum x => negb (Qeq_bool x 0)
  | JStr s => Py.truthy s
  | JArr l => Py.truthy l
  | JObj m => Py.truthy m
  end.

(** The value as the right operand of [<] against a float:
    numbers and booleans compare, anything else is a [TypeError]. *)
Definition as_number (v : JSON) : Py.result Q :=
  match v with
  | JNum x => Py.Ok x
  | JBool true => Py.Ok 1%Q
  | JBool false => Py.Ok 0%Q
  | _ => Py.Raise Py.TypeError
  end.

(** What [urlopen(url)] followed by [Image.open] delivers. *)
Inductive Fetched :=
| Failed                                (* either call raised *)
| Still (img : Pil.Image)
| Animated (img : Pil.Image) (frames : list (Pil.Image * option Q)).

(** The outside of the server: Pillow, the web, and [str()] of a JSON
    value inside an f-string. *)
Record World := mkWorld {
  pillow : Pil.Pillow;
  web : Py.str -> Fetched;
  format : JSON -> Py.str
}.

(** Who calls the matrix: the thread serving requests, or the [n]-th
    thread started by a request. *)
Inductive Thread :=
| RequestThread
| Spawned (n : nat).

Inductive SinkOp :=
| SetImage (frame : Pil.Image)
| Clear.

(** Where a spawned thread stands in its [worker] closure. *)
Inductive ThreadPC :=
| TImage (url : JSON) (duration : JSON)
| TGifLoop (frames : list Pil.Image) (delays : list Q) (duration : JSON)
           (start_time : Q) (frame_idx : Z)
| THold (duration : JSON) (start_time : Q)     (* still image, weather *)
| TText (text : JSON) (duration : JSON)
| TTextLoop (img : Pil.Image) (text_w : Q) (duration : JSON)
            (start_time : Q) (x : Z)
| TWeather (template : JSON) (duration : JSON)
| TFinally
| TDone.

Record MatrixHandler := mkMH {
  sink : list (Thread * SinkOp);     (* calls of the matrix, with caller *)
  stop_event : bool;
  current_job : option string;
  threads : list ThreadPC;
  now : Q;
  stdout : list string
}.

Definition set_stop_event (s : MatrixHandler) (b : bool) :=
  mkMH (sink s) b (current_job s) (threads s) (now s) (stdout s).
Definition set_current_job (s : MatrixHandler) (c : option string) :=
  mkMH (sink s) (stop_event s) c (threads s) (now s) (stdout s).
Definition set_threads (s : MatrixHandler) (t : list ThreadPC) :=
  mkMH (sink s) (stop_event s) (current_job s) t (now s) (stdout s).
Definition set_now (s : MatrixHandler) (t : Q) :=
  mkMH (sink s) (stop_event s) (current_job s) (threads s) t (stdout s).
Definition add_sink (s : MatrixHandler) (who : Thread) (op : SinkOp) :=
  mkMH (sink s ++ [(who, op)]) (stop_event s) (current_job s) (threads s)
       (now s) (stdout s).
Definition add_stdout (s : MatrixHandler) (line : string) :=
  mkMH (sink s) (stop_event s) (current_job s) (threads s) (now s)
       (stdout s ++ [line]).

(** [MatrixHandler()] at time [t0] *)
Definition init (t0 : Q) : MatrixHandler :=
  mkMH [] false None [] t0 [].

(** [threading.Thread(target=worker).start()] *)
Definition start_thread (s : MatrixHandler) (pc : ThreadPC) :=
  set_threads s (threads s ++ [pc]).

Definition show_image_from_url (url duration : JSON) (s : MatrixHandler) :=
  let s := set_stop_event s false in
  let s := set_current_job s (Some "image"%string) in
  start_thread s (TImage url duration).

Definition show_text (text duration : JSON) (s : MatrixHandler) :=
  let s := set_stop_event s false in
  let s := set_current_job s (Some "text"%string) in
  start_thread s (TText text duration).

Definition show_weather (template duration : JSON) (s : MatrixHandler) :=
  let s := set_stop_event s false in
  let s := set_current_job s (Some "weather"%string) in
  start_thread s (TWeather template duration).

(** [clear] runs in the thread that serves the request. *)
Definition clear (s : MatrixHandler) :=
  let s := set_stop_event s true in
  let s := add_sink s RequestThread Clear in
  set_current_job s None.

Definition stop_current (s : MatrixHandler) :=
  let s := set_stop_event s true in
  set_current_job s None.

(* ---------------------------------------------------------------- *)
(** *** The request handler *)

Inductive Body :=
| BNone
| BStatus (current_job_type : option string) (status : string)
| BOk (message : string)                 (* [{"ok": True, ...}] *)
| BError (error : string).               (* [{"ok": False, ...}] *)

Record HttpResponse := mkResp {
  status_code : Z;
  body : Body
}.

Definition do_GET (path : string) (s : MatrixHandler)
  : HttpResponse * MatrixHandler :=
  if String.eqb path "/matrix/status"
  then (mkResp 200 (BStatus (current_job s)
                      (match current_job s with
                       | Some _ => "running"
                       | None => "idle"
                       end)), s)
  else (mkResp 404 BNone, s).

(** What [do_POST] finds in the header [Content-Length]. *)
Inductive ContentLength :=
| Missing                 (* no such header: [self.headers[...]] is [None] *)
| Malformed               (* a value that [int] refuses *)
| Given.                  (* an integer: that many bytes are read *)

(** What [json.loads(post_data.decode('utf-8'))] makes of the bytes
    read: it raises, or returns the value parsed, which need not be an
    object. *)
Inductive Payload :=
| NotJSON
| Parsed (v : JSON).

Record Request := mkRequest {
  content_length : ContentLength;
  payload : Payload
}.

(** A request whose body is the JSON object of members [data]. *)
Definition json_object (data : Dict) : Request :=
  mkRequest Given (Parsed (JObj data)).

(** [data] after the [try]: the value parsed, [{}] when parsing raised. *)
Definition data_of (p : Payload) : JSON :=
  match p with
  | NotJSON => JObj []
  | Parsed v => v
  end.

(** Looking up the attribute [get] of [data]: only a [dict] has it. *)
Definition dict_of (data : JSON) : Py.result Dict :=
  match data with
  | JObj members => Py.Ok members
  | _ => Py.Raise Py.AttributeError
  end.

(** [do_POST]: an exception leaves the handler, and no response is
    sent. *)
Definition do_POST (path : string) (req : Request) (s : MatrixHandler)
  : Py.result HttpResponse * MatrixHandler :=
  match content_length req with
  | Missing => (Py.Raise Py.TypeError, s)        (* [int(None)] *)
  | Malformed => (Py.Raise Py.ValueError, s)
  | Given =>
      let data := data_of (payload req) in
      if String.eqb path "/matrix/show/image" then
        match dict_of data with
        | Py.Raise e => (Py.Raise e, s)
        | Py.Ok data =>
            let url := get_opt data "url" in
            let duration := get_default data "duration" (JNum 10) in
            if truthy url
            then (Py.Ok (mkResp 200 (BOk "Image display started")),
                  show_image_from_url url duration s)
            else (Py.Ok (mkResp 200 (BError "URL required")), s)
        end
      else if String.eqb path "/matrix/show/text" then
        match dict_of data with
        | Py.Raise e => (Py.Raise e, s)
        | Py.Ok data =>
            let text := get_opt data "text" in
            let duration := get_default data "duration" (JNum 10) in
            if truthy text
            then (Py.Ok (mkResp 200 (BOk "Text display started")),
                  show_text text duration s)
            else (Py.Ok (mkResp 200 (BError "Text required")), s)
        end
      else if String.eqb path "/matrix/show/weather" then
        match dict_of data with
        | Py.Raise e => (Py.Raise e, s)
        | Py.Ok data =>
            let template := get_default data "template"
                              (JStr (Py.of_string "current")) in
            let duration := get_default data "duration" (JNum 10) in
            (Py.Ok (mkResp 200 (BOk "Weather display started")),
             show_weather template duration s)
        end
      else if String.eqb path "/matrix/clear" then
        (Py.Ok (mkResp 200 (BOk "Matrix cleared")), clear s)
      else if String.eqb path "/matrix/stop" then
        (Py.Ok (mkResp 200 (BOk "Current job stopped")), stop_current s)
      else (Py.Ok (mkResp 404 BNone), s)
  end.

(* ---------------------------------------------------------------- *)
(** *** The spawned threads *)

Definition M (A : Type) : Type :=
  MatrixHandler -> Py.result A * MatrixHandler.

Definition ret {A} (a : A) : M A := fun s => (Py.Ok a, s).

Definition bind {A B} (m : M A) (k : A -> M B) : M B :=
  fun s => match m s with
           | (Py.Ok a, s') => k a s'
           | (Py.Raise e, s') => (Py.Raise e, s')
           end.

Definition lift {A} (r : Py.result A) : M A := fun s => (r, s).

Definition raise {A} (e : Py.Exn) : M A := fun s => (Py.Raise e, s).

Notation "x <- m ;; k" := (bind m (fun x => k))
  (at level 61, m at next level, right associativity).
Notation "m ;;; k" := (bind m (fun _ => k))
  (at level 61, right associativity).

Definition time_time : M Q := fun s => (Py.Ok (now s), s).

Definition time_sleep (d : Q) : M unit :=
  fun s => (Py.Ok tt, set_now s (now s + d)%Q).

Definition matrix_SetImage (who : Thread) (frame : Pil.Image) : M unit :=
  fun s => (Py.Ok tt, add_sink s who (SetImage frame)).

(** [not self.stop_event.is_set() and (time.time() - start_time < duration)];
    the comparison is reached only when the event is unset. *)
Definition loop_test (duration : JSON) (start_time : Q) : M bool :=
  fun s =>
    if stop_event s then (Py.Ok false, s)
    else match as_number duration with
         | Py.Ok d => (Py.Ok (Py.ltb (now s - start_time)%Q d), s)
         | Py.Raise e => (Py.Raise e, s)
         end.

Section Threads.

Variable W : World.

(** The [try] block of the closure run by thread [who], from where it
    stands to the next test of a [while] (or to its end). *)
Definition thread_body (who : Thread) (pc : ThreadPC) : M ThreadPC :=
  match pc with
  | TImage url duration =>
      match url with
      | JStr u =>
          match web W u with
          | Failed => raise Py.OSError
          | Animated img items =>
              let frames := map fst items in
              let delays := map App.frame_delay items in
              start_time <- time_time ;;
              let frame_idx := 0 in
              ret (TGifLoop frames delays duration start_time frame_idx)
          | Still img =>
              let resized := Pil.fit (pillow W) img (64, 64) Pil.LANCZOS in
              matrix_SetImage who resized ;;;
              start_time <- time_time ;;
              ret (THold duration start_time)
          end
      | _ => raise Py.TypeError
      end
  | TGifLoop frames delays duration start_time frame_idx =>
      go <- loop_test duration start_time ;;
      if go then
        fr <- lift (Py.getitem frames frame_idx) ;;
        let resized := Pil.fit (pillow W) fr (64, 64) Pil.LANCZOS in
        matrix_SetImage who resized ;;;
        d <- lift (Py.getitem delays frame_idx) ;;
        time_sleep d ;;;
        frame_idx <- lift (Py.mod_ (frame_idx + 1)
                                   (Z.of_nat (List.length frames))) ;;
        ret (TGifLoop frames delays duration start_time frame_idx)
      else ret TFinally
  | THold duration start_time =>
      go <- loop_test duration start_time ;;
      if go then
        time_sleep (1 # 10) ;;;
        ret (THold duration start_time)
      else ret TFinally
  | TText text duration =>
      match text with
      | JStr t =>
          let img := Pil.new 1000 64 Pil.black in
          let img := Pil.draw_text (pillow W) img (0, 20) t Pil.white in
          text_w <- lift (Pil.draw_textlength (pillow W) t) ;;
          start_time <- time_time ;;
          let x := 0 in
          ret (TTextLoop img text_w duration start_time x)
      | _ => raise Py.TypeError
      end
  | TTextLoop img text_w duration start_time x =>
      go <- loop_test duration start_time ;;
      if go then
        x <- lift (Py.mod_ (x + 1) (Py.int text_w + 64)) ;;
        frame <- lift (App.scroll_frame img 64 64 x) ;;
        matrix_SetImage who frame ;;;
        time_sleep (2 # 100) ;;;
        ret (TTextLoop img text_w duration start_time x)
      else ret TFinally
  | TWeather template duration =>
      let img := Pil.new 64 64 Pil.navy in
      let label :=
        (Py.of_string "Weather:" ++ [10%N] ++ format W template)%list in
      let img := Pil.draw_text (pillow W) img (1, 1) label Pil.yellow in
      matrix_SetImage who img ;;;
      start_time <- time_time ;;
      ret (THold duration start_time)
  | TFinally => fun s => (Py.Ok TDone, set_current_job s None)
  | TDone => ret TDone
  end.

Fixpoint update {A} (l : list A) (n : nat) (a : A) : list A :=
  match l, n with
  | [], _ => []
  | _ :: r, O => a :: r
  | b :: r, S n => b :: update r n a
  end.

(** One step of the [n]-th spawned thread; an exception is printed by
    its [except] and leads to [finally]. *)
Definition thread_step (n : nat) (s : MatrixHandler) : MatrixHandler :=
  match nth_error (threads s) n with
  | None => s
  | Some pc =>
      match thread_body (Spawned n) pc s with
      | (Py.Ok pc', s') => set_threads s' (update (threads s') n pc')
      | (Py.Raise e, s') =>
          let s' := add_stdout s' "Error" in
          set_threads s' (update (threads s') n TFinally)
      end
  end.

Inductive Action :=
| Get (path : string)
| Post (path : string) (req : Request)
| ThreadStep (n : nat)
| Tick (dt : Q).

Definition step (s : MatrixHandler) (a : Action)
  : option HttpResponse * MatrixHandler :=
  match a with
  | Get path => let '(r, s') := do_GET path s in (Some r, s')
  | Post path req =>
      match do_POST path req s with
      | (Py.Ok r, s') => (Some r, s')
      | (Py.Raise _, s') => (None, s')
      end
  | ThreadStep n => (None, thread_step n s)
  | Tick dt => (None, set_now s (now s + dt)%Q)
  end.

Fixpoint run (s : MatrixHandler) (sched : list Action) : MatrixHandler :=
  match sched with
  | [] => s
  | a :: rest => run (snd (step s a)) rest
  end.

End Threads.

(** The threads that called the matrix, in the order of their calls. *)
Definition writers (s : MatrixHandler) : list Thread := map fst (sink s).

(** A spawned thread that has not finished. *)
Definition alive (s : MatrixHandler) (n : nat) : bool :=
  match nth_error (threads s) n with
  | Some TDone | None => false
  | Some _ => true
  end.

(** The duration and the start time of the loop a thread is in. *)
Definition loop_of (pc : ThreadPC) : option (JSON * Q) :=
  match pc with
  | TGifLoop _ _ d st _ | THold d st | TTextLoop _ _ d st _ => Some (d, st)
  | _ => None
  end.

(** The five paths [do_POST] knows. *)
Definition post_paths : list string :=
  ["/matrix/show/image"; "/matrix/show/text"; "/matrix/show/weather";
   "/matrix/clear"; "/matrix/stop"]%string.

(** Those whose branch reads the body. *)
Definition show_paths : list string :=
  ["/matrix/show/image"; "/matrix/show/text"; "/matrix/show/weather"]%string.

End PiServer.

(* ================================================================== *)
(** ** Concrete data for the examples *)

Module Demo.

(** A stand-in for Pillow: [fit] keeps the image, the font is six
    pixels wide per character and lights every other column of the
    top row. *)
Definition pillow : Pil.Pillow :=
  Pil.mkPillow
    (fun img _ _ => img)
    (fun text x y => (0 <=? x) && (x <? 6 * Z.of_nat (List.length text))
                     && (y =? 0) && Z.even x)
    (fun text => inject_Z (6 * Z.of_nat (List.length text)))
    (fun text => (0, 0, 6 * Z.of_nat (List.length text), 11)).

(** The same with a text of width 50 whatever the string. *)
Definition pillow50 : Pil.Pillow :=
  Pil.mkPillow
    (fun img _ _ => img)
    (fun text x y => (0 <=? x) && (x <? 50) && Z.even x)
    (fun text => 50%Q)
    (fun text => (0, 0, 50, 11)).

Definition red : Pil.Image := Pil.new 64 64 (255, 0, 0).
Definition green : Pil.Image := Pil.new 64 64 (0, 255, 0).
Definition blue : Pil.Image := Pil.new 64 64 (0, 0, 255).

Definition hello : Py.str := Py.of_string "hello".
Definition blank : Py.str := Py.of_string "   ".

(** A Clear job with a negative duration and a text. *)
Definition bad_job : App.Job :=
  App.mkJob App.CLEAR (Some (-1)%Q) 0 None None None (Some hello) None.

Definition still_job (d : option Q) : App.Job :=
  App.mkJob App.IMAGE d 0 (Some red) None None None None.

(** Three frames with the delays 0.1, 0.2 and 0.05. *)
Definition gif_job (d : option Q) : App.Job :=
  App.mkJob App.IMAGE d 0 None (Some [red; green; blue])
            (Some [(1 # 10); (2 # 10); (5 # 100)]%Q) None None.

(** Two frames but a single delay. *)
Definition short_delays_job : App.Job :=
  App.mkJob App.IMAGE (Some 10%Q) 0 None (Some [red; green])
            (Some [(1 # 10)%Q]) None None.

Definition text_job (d : option Q) : App.Job :=
  App.mkJob App.TEXT d 0 None None None (Some hello) None.

Definition dm0 : App.DisplayManager := App.init 64 64 0.

(** A matrix 20 wide and 16 high, and the strip [_display_text_scroll]
    renders for it with [pillow50]: the even columns below 50 are lit. *)
Definition dm20 : App.DisplayManager := App.init 20 16 0.

Definition strip50 : Pil.Image :=
  Pil.draw_text pillow50 (Pil.new 1000 16 Pil.black) (0, (16 - 11) / 2)
                hello Pil.white.

(** A web on which the empty URL fails, a URL of one character is a
    still image and any other URL an animation of two frames. *)
Definition world : PiServer.World :=
  PiServer.mkWorld pillow
    (fun url => match url with
                | [] => PiServer.Failed
                | [_] => PiServer.Still blue
                | _ => PiServer.Animated red
                         [(red, None); (green, Some 40%Q)]
                end)
    (fun _ => []).

Definition post_text (t : Py.str) : PiServer.Action :=
  PiServer.Post "/matrix/show/text"
    (PiServer.json_object [("text"%string, PiServer.JStr t)]).

Definition post_image (url : Py.str) : PiServer.Action :=
  PiServer.Post "/matrix/show/image"
    (PiServer.json_object [("url"%string, PiServer.JStr url)]).

Definition mh0 : PiServer.MatrixHandler := PiServer.init 0.

End Demo.

(* ================================================================== *)
(** ** Facts about the Python helpers *)

Section PyFacts.

Lemma lstrip_whitespace (t : Py.str) :
  forallb Py.isspace t = true -> Py.lstrip t = [].
Proof.
  induction t as [|c r IH]; simpl; [reflexivity|].
  intros H. apply andb_prop in H as [Hc Hr].
  rewrite Hc. auto.
Qed.

Lemma lstrip_nil_whitespace (t : Py.str) :
  Py.lstrip t = [] -> forallb Py.isspace t = true.
Proof.
  induction t as [|c r IH]; simpl; [reflexivity|].
  destruct (Py.isspace c) eqn:Hc; simpl; [assumption | discriminate].
Qed.

Lemma lstrip_suffix (t : Py.str) :
  exists pre, t = (pre ++ Py.lstrip t)%list /\ forallb Py.isspace pre = true.
Proof.
  induction t as [|c r [pre [E Hpre]]]; simpl.
  - exists []. split; reflexivity.
  - destruct (Py.isspace c) eqn:Hc.
    + exists (c :: pre). simpl. rewrite Hc, Hpre. split; [congruence | reflexivity].
    + exists []. split; reflexivity.
Qed.

(** [t.strip()] is empty exactly when [t] is empty or whitespace only. *)
Lemma strip_nil_iff (t : Py.str) :
  Py.strip t = [] <-> App.whitespace_only t = true.
Proof.
  unfold Py.strip, Py.rstrip, App.whitespace_only. split.
  - intros H.
    assert (Hr : Py.lstrip (rev (Py.lstrip t)) = []).
    { rewrite <- (rev_involutive (Py.lstrip (rev (Py.lstrip t)))), H.
      reflexivity. }
    apply lstrip_nil_whitespace in Hr.
    rewrite forallb_forall in Hr.
    destruct (lstrip_suffix t) as [pre [E Hpre]].
    rewrite E, forallb_app, Hpre. simpl.
    apply forallb_forall. intros c Hc. apply Hr, in_rev.
    rewrite rev_involutive. exact Hc.
  - intros H. rewrite (lstrip_whitespace t H). reflexivity.
Qed.

Lemma max_lower_bound (a b : Q) : (a <= Py.max a b)%Q.
Proof.
  unfold Py.max, Py.ltb.
  destruct (Qle_bool b a) eqn:E; simpl.
  - apply Qle_refl.
  - apply Qlt_le_weak, Qnot_le_lt. intros H.
    apply Qle_bool_iff in H. congruence.
Qed.



Lemma getitem_nth {A} (l : list A) (i : Z) (a : A) :
  0 <= i -> nth_error l (Z.to_nat i) = Some a -> Py.getitem l i = Py.Ok a.
Proof.
  intros Hi H. unfold Py.getitem.
  assert (Hlt : (Z.to_nat i < List.length l)%nat).
  { apply nth_error_Some. congruence. }
  destruct (i <? 0) eqn:E; [apply Z.ltb_lt in E; lia|].
  replace ((0 <=? i) && (i <? Z.of_nat (List.length l))) with true.
  - rewrite H. reflexivity.
  - symmetry. apply andb_true_intro. split.
    + apply Z.leb_le. lia.
    + apply Z.ltb_lt. lia.
Qed.

End PyFacts.

(* ================================================================== *)
(** ** The worker only acts on the clock and the matrix *)

Section WorldOnly.

Import App.
Variable P : Pil.Pillow.

Lemma with_world_id (s : DisplayManager) : with_world s (now s) [] = s.
Proof. destruct s. unfold with_world. simpl. rewrite app_nil_r. reflexivity. Qed.

Lemma with_world_twice s t e t' e' :
  with_world (with_world s t e) t' e' = with_world s t' (e ++ e').
Proof. unfold with_world. simpl. rewrite app_assoc. reflexivity. Qed.

Lemma wo_same {A} (m : M A) :
  (forall s, snd (m s) = s) -> world_only m.
Proof.
  intros H s. exists (now s), []. rewrite H. symmetry. apply with_world_id.
Qed.

Lemma wo_ret {A} (a : A) : world_only (ret a).
Proof. apply wo_same. reflexivity. Qed.

Lemma wo_lift {A} (r : Py.result A) : world_only (lift r).
Proof. apply wo_same. reflexivity. Qed.

Lemma wo_time_time : world_only time_time.
Proof. apply wo_same. reflexivity. Qed.

Lemma wo_matrix_size : world_only matrix_size.
Proof. apply wo_same. reflexivity. Qed.

Lemma wo_time_sleep d : world_only (time_sleep d).
Proof. intros s. exists (now s + d)%Q, [Sleep d]. reflexivity. Qed.

Lemma wo_print msg : world_only (print msg).
Proof. intros s. exists (now s), [Print msg]. reflexivity. Qed.

Lemma wo_matrix_SetImage f : world_only (matrix_SetImage f).
Proof.
  intros s. unfold matrix_SetImage. destruct (faulty s); simpl.
  - exists (now s), []. symmetry. apply with_world_id.
  - exists (now s), [SetImage f]. reflexivity.
Qed.

Lemma wo_matrix_Clear : world_only matrix_Clear.
Proof.
  intros s. unfold matrix_Clear. destruct (faulty s); simpl.
  - exists (now s), []. symmetry. apply with_world_id.
  - exists (now s), [Clear]. reflexivity.
Qed.

Lemma wo_bind {A B} (m : M A) (k : A -> M B) :
  world_only m -> (forall a, world_only (k a)) -> world_only (bind m k).
Proof.
  intros Hm Hk s. unfold bind.
  destruct (Hm s) as [t [e E]].
  destruct (m s) as [[a|x] s1]; simpl in E; subst s1.
  - destruct (Hk a (with_world s t e)) as [t' [e' E']].
    exists t', (e ++ e')%list. rewrite E'. apply with_world_twice.
  - exists t, e. reflexivity.
Qed.

Create HintDb world.
Hint Resolve wo_ret wo_lift wo_time_time wo_matrix_size wo_time_sleep
     wo_print wo_matrix_SetImage wo_matrix_Clear : world.

Ltac world :=
  repeat first
    [ apply wo_bind; [ | intros ? ]
    | solve [ auto with world ] ].

Lemma wo_display_image img d : world_only (_display_image P img d).
Proof. unfold _display_image. world. Qed.

Lemma wo_display_gif frames delays d :
  world_only (_display_gif frames delays d).
Proof. unfold _display_gif. world. Qed.

Lemma wo_display_gif_body frames delays w h i :
  world_only (_display_gif_body P frames delays w h i).
Proof. unfold _display_gif_body. world. Qed.

Lemma wo_display_text_scroll text d :
  world_only (_display_text_scroll P text d).
Proof.
  unfold _display_text_scroll. apply wo_bind; [auto with world|].
  intros [w h]. destruct (Pil.getbbox P text) as [[[? ?] ?] ?]. world.
Qed.

Lemma wo_display_text_scroll_body img text_w w h x :
  world_only (_display_text_scroll_body img text_w w h x).
Proof. unfold _display_text_scroll_body. world. Qed.

Lemma wo_dispatch job : world_only (dispatch P job).
Proof.
  unfold dispatch, _display_weather_template.
  destruct (type job).
  - destruct (gif_frames job) as [[|f fs]|]; destruct (image job);
      first [ apply wo_display_gif | apply wo_display_image | world ].
  - apply wo_display_text_scroll.
  - apply wo_display_image.
  - world.
  - world.
Qed.

Lemma in_try_world (m : M Worker) s :
  world_only m ->
  exists t eff pc, in_try m s = set_worker (with_world s t eff) pc.
Proof.
  intros H. unfold in_try. destruct (H s) as [t [e E]].
  destruct (m s) as [[pc|x] s1]; simpl in E; subst s1; eauto.
Qed.

(** Every step of the worker either pops the head of the queue, or sets
    one of [_cancel_evt], [_current_job], or acts on the world only; in
    each case it then moves to its next position. *)
Lemma worker_step_shape (s : DisplayManager) :
  (exists job rest, worker s = WIdle /\ _job_q s = job :: rest /\
     worker_step P s =
       set_worker (add_popped (set_job_q s rest) job) (WPopped job))
  \/ (exists job, worker s = WPopped job /\
        worker_step P s = set_worker (set_cancel_evt s false) (WCleared job))
  \/ (exists job, worker s = WCleared job /\
        worker_step P s =
          set_worker (set_current_job s (Some job)) (WDispatch job))
  \/ (exists exn, worker s = WFinally exn /\
        exists pc, worker_step P s = set_worker (set_current_job s None) pc)
  \/ (exists t eff pc, worker_step P s = set_worker (with_world s t eff) pc).
Proof.
  assert (Hsame : forall pc, exists t eff pc',
             set_worker s pc = set_worker (with_world s t eff) pc').
  { intros pc. exists (now s), [], pc. rewrite with_world_id. reflexivity. }
  assert (Hstay : forall x, x = s -> exists t eff pc,
             x = set_worker (with_world s t eff) pc).
  { intros x E. rewrite E. exists (now s), [], (worker s).
    rewrite with_world_id. destruct s; reflexivity. }
  unfold worker_step.
  destruct (worker s)
    as [ | job | job | job | d st | fr dl d w h st i | img tw d w h st x
       | exn | e | ] eqn:Ew.
  - destruct (_running s).
    + destruct (_job_q s) as [|job rest] eqn:Eq.
      * do 4 right. apply Hstay. reflexivity.
      * left. exists job, rest. auto.
    + do 4 right. apply Hsame.
  - right; left. eauto.
  - right; right; left. eauto.
  - do 4 right. apply in_try_world, wo_dispatch.
  - do 4 right. destruct (keep_going s d st).
    + apply in_try_world. unfold _display_image_body. world.
    + apply Hsame.
  - do 4 right. destruct (keep_going s d st).
    + apply in_try_world. apply wo_bind; [apply wo_display_gif_body|].
      intros ?. world.
    + apply Hsame.
  - do 4 right. destruct (keep_going s d st).
    + apply in_try_world. apply wo_bind; [apply wo_display_text_scroll_body|].
      intros ?. world.
    + apply Hsame.
  - right; right; right; left. exists exn. split; [reflexivity|].
    destruct exn; eauto.
  - do 4 right. apply Hstay. reflexivity.
  - do 4 right. apply Hstay. reflexivity.
Qed.

End WorldOnly.

(* ================================================================== *)
(** ** The queue, the counter of ids and the order of display *)

Section Queue.

Import App.
Variable P : Pil.Pillow.

Lemma submitted_ids n sched :
  map id (submitted n sched) = iota n (List.length (submitted n sched)).
Proof.
  revert n. induction sched as [|a r IH]; intros n; simpl; [reflexivity|].
  destruct (job_of_action a); simpl; [f_equal|]; apply IH.
Qed.

Lemma iota_lower n k x : In x (iota n k) -> n <= x.
Proof.
  revert n. induction k as [|k IH]; intros n; simpl; [tauto|].
  intros [E|H]; [lia|]. apply IH in H. lia.
Qed.

Lemma iota_sorted n k : StronglySorted Z.lt (iota n k).
Proof.
  revert n. induction k as [|k IH]; intros n; simpl; constructor.
  - apply IH.
  - apply Forall_forall. intros x H. apply iota_lower in H. lia.
Qed.

Lemma iota_nodup n k : NoDup (iota n k).
Proof.
  revert n. induction k as [|k IH]; intros n; simpl; constructor.
  - intros H. apply iota_lower in H. lia.
  - apply IH.
Qed.

Ltac queue_case :=
  simpl; rewrite ?app_nil_r; repeat split; try reflexivity; try lia.

(** The effect of one action on the queue, the counter and the answer. *)
Lemma step_queue s a :
  let s' := snd (step P s a) in
  let new := submitted (_next_id s) [a] in
  (popped s' ++ _job_q s' = popped s ++ _job_q s ++ new)%list
  /\ _next_id s' = _next_id s + Z.of_nat (List.length new).
Proof.
  destruct a as [ | | | d f | req | req | job | | dt | b ]; simpl.
  - queue_case.
  - queue_case.
  - queue_case.
  - unfold show_image. destruct f as [msg|code [msg|e|o]]; simpl.
    + queue_case.
    + destruct (negb (code =? 200)); queue_case.
    + destruct (negb (code =? 200)); queue_case.
    + destruct (negb (code =? 200)); queue_case.
  - unfold show_text.
    destruct (negb (Py.truthy (Py.strip (st_text req)))); queue_case.
  - queue_case.
  - queue_case.
  - rewrite app_nil_r.
    destruct (worker_step_shape P s)
      as [[job [rest [_ [Eq E]]]] | [[job [_ E]] | [[job [_ E]]
         | [[exn [_ [pc E]]] | [t [eff [pc E]]]]]]];
      rewrite E; queue_case.
    rewrite Eq, <- app_assoc. reflexivity.
  - queue_case.
  - queue_case.
Qed.

Lemma run_queue sched : forall s,
  let s' := run P s sched in
  let new := submitted (_next_id s) sched in
  (popped s' ++ _job_q s' = popped s ++ _job_q s ++ new)%list
  /\ _next_id s' = _next_id s + Z.of_nat (List.length new).
Proof.
  induction sched as [|a r IH]; intros s; simpl.
  - rewrite app_nil_r. repeat split. lia.
  - destruct (step_queue s a) as [Hq Hn].
    destruct (IH (snd (step P s a))) as [Hq' Hn'].
    simpl in Hq, Hn.
    rewrite Hq', Hn', app_assoc, Hq, Hn.
    destruct (job_of_action a) as [job|]; simpl.
    + replace (_next_id s + Z.pos (Pos.of_succ_nat 0)) with (_next_id s + 1)
        by lia.
      split.
      * rewrite <- !app_assoc. reflexivity.
      * lia.
    + rewrite !app_nil_r. replace (_next_id s + 0) with (_next_id s) by lia.
      split; [rewrite <- app_assoc; reflexivity | lia].
Qed.

Lemma worker_step_pop s job rest :
  worker s = WIdle -> _running s = true -> _job_q s = job :: rest ->
  worker_step P s =
    set_worker (add_popped (set_job_q s rest) job) (WPopped job).
Proof. intros Hw Hr Hq. unfold worker_step. rewrite Hw, Hr, Hq. reflexivity. Qed.

Lemma worker_step_clear s job :
  worker s = WPopped job ->
  worker_step P s = set_worker (set_cancel_evt s false) (WCleared job).
Proof. intros Hw. unfold worker_step. rewrite Hw. reflexivity. Qed.

Lemma worker_step_publish s job :
  worker s = WCleared job ->
  worker_step P s =
    set_worker (set_current_job s (Some job)) (WDispatch job).
Proof. intros Hw. unfold worker_step. rewrite Hw. reflexivity. Qed.

Lemma worker_step_dispatch s job :
  worker s = WDispatch job ->
  worker_step P s = in_try (dispatch P job) s.
Proof. intros Hw. unfold worker_step. rewrite Hw. reflexivity. Qed.

Lemma worker_step_finally s exn :
  worker s = WFinally exn ->
  worker_step P s =
    set_worker (set_current_job s None)
               (match exn with None => WIdle | Some e => WDead e end).
Proof. intros Hw. unfold worker_step. rewrite Hw. destruct exn; reflexivity. Qed.

End Queue.

(** C5, as stated, fails: [enqueue] takes a Clear job with a negative
    duration and a text payload like any other job; it gets id 1 and
    enters the queue. *)
Lemma enqueue_accepts_invalid_job :
  App.spec_valid_job Demo.bad_job = false
  /\ fst (App.enqueue Demo.bad_job Demo.dm0) = 1
  /\ App._job_q (snd (App.enqueue Demo.bad_job Demo.dm0))
     = [App.set_id Demo.bad_job 1].
Proof. repeat split. Qed.

(* ================================================================== *)
(** ** Requests never touch the matrix; a dead worker stays dead *)

Section Handlers.

Import App.
Variable P : Pil.Pillow.

(** Whatever is not a step of the worker leaves the worker where it
    stands, writes nothing and pops nothing. *)
Lemma handler_frame s a :
  a <> WorkerStep ->
  let s' := snd (step P s a) in
  worker s' = worker s /\ popped s' = popped s /\ effects s' = effects s
  /\ _current_job s' = _current_job s /\ _running s' = _running s
  /\ matrix s' = matrix s.
Proof.
  destruct a as [ | | | d f | req | req | job | | dt | b ]; intros Ha; simpl;
    try (repeat split; fail).
  - unfold show_image. destruct f as [msg|code [msg|e|o]]; simpl;
      try destruct (negb (code =? 200)); simpl; repeat split.
  - unfold show_text.
    destruct (negb (Py.truthy (Py.strip (st_text req)))); repeat split.
  - congruence.
Qed.

Lemma dead_forever e sched : forall s,
  worker s = WDead e ->
  let s' := run P s sched in
  worker s' = WDead e /\ popped s' = popped s /\ effects s' = effects s
  /\ _current_job s' = _current_job s.
Proof.
  induction sched as [|a r IH]; intros s Hw; simpl; [repeat split; assumption|].
  assert (H : worker (snd (step P s a)) = WDead e
              /\ popped (snd (step P s a)) = popped s
              /\ effects (snd (step P s a)) = effects s
              /\ _current_job (snd (step P s a)) = _current_job s).
  { assert (Ha : a = WorkerStep \/ a <> WorkerStep)
      by (destruct a; (left; reflexivity) || (right; discriminate)).
    destruct Ha as [-> | Ha].
    - simpl. unfold worker_step. rewrite Hw. auto.
    - destruct (handler_frame s a Ha) as [E1 [E2 [E3 [E4 _]]]].
      rewrite E1, E2, E3, E4. auto. }
  destruct H as [H1 [H2 [H3 H4]]].
  destruct (IH _ H1) as [I1 [I2 [I3 I4]]].
  rewrite I1, I2, I3, I4, H2, H3, H4. auto.
Qed.

End Handlers.

(** X14: In [app.py] no request writes to the matrix: every effect on it is
    made by a step of the worker. *)
Theorem app_only_worker_writes :
  forall (P : Pil.Pillow) (s : App.DisplayManager) (a : App.Action),
    a <> App.WorkerStep ->
    App.effects (snd (App.step P s a)) = App.effects s.
Proof. intros P s a Ha. apply (handler_frame P s a Ha). Qed.

Lemma app_only_worker_writes_witness :
  App.effects (snd (App.step Demo.pillow Demo.dm0 App.PostClear)) = [].
Proof.
  apply (app_only_worker_writes Demo.pillow Demo.dm0 App.PostClear).
  discriminate.
Defined.

(** C2 on the code: a job whose routine raises ends the worker.  Two
    frames with one delay raise an [IndexError] at the second frame; a
    failing matrix raises at the first write of a still image.  In both
    runs [finally] clears the current job, then the exception leaves
    [_worker]: the thread is dead, the job queued behind stays in the
    queue whatever happens next. *)
Theorem worker_dies_on_render_exception :
  let bad := App.run Demo.pillow Demo.dm0
               ([App.CallEnqueue Demo.short_delays_job; App.PostClear]
                ++ repeat App.WorkerStep 7) in
  let sink := App.run Demo.pillow Demo.dm0
               ([App.CallEnqueue (Demo.still_job (Some 10%Q)); App.PostClear;
                 App.Fault true] ++ repeat App.WorkerStep 5) in
  (App.worker bad = App.WDead Py.IndexError
   /\ App._current_job bad = None
   /\ App.frames_written (App.effects bad) = [Demo.red; Demo.green]
   /\ forall sched,
        let later := App.run Demo.pillow bad sched in
        App.worker later = App.WDead Py.IndexError
        /\ App.popped later = [App.set_id Demo.short_delays_job 1]
        /\ App.effects later = App.effects bad)
  /\ (App.worker sink = App.WDead Py.SinkError
      /\ App._current_job sink = None
      /\ forall sched,
           let later := App.run Demo.pillow sink sched in
           App.worker later = App.WDead Py.SinkError
           /\ App.popped later = [App.set_id (Demo.still_job (Some 10%Q)) 1]
           /\ App.effects later = []).
Proof.
  intros bad sink.
  assert (Hb : App.worker bad = App.WDead Py.IndexError) by reflexivity.
  assert (Hs : App.worker sink = App.WDead Py.SinkError) by reflexivity.
  split.
  - split; [exact Hb|]. split; [reflexivity|]. split; [reflexivity|].
    intros sched later.
    destruct (dead_forever Demo.pillow _ sched bad Hb) as [H1 [H2 [H3 _]]].
    unfold later. rewrite H1, H2, H3. repeat split.
  - split; [exact Hs|]. split; [reflexivity|].
    intros sched later.
    destruct (dead_forever Demo.pillow _ sched sink Hs) as [H1 [H2 [H3 _]]].
    unfold later. rewrite H1, H2, H3. repeat split.
Qed.

(* ================================================================== *)
(** ** The dispatch of an IMAGE job *)

Section ImageDispatch.

Import App.
Variable P : Pil.Pillow.

Lemma dispatch_image_missing s job :
  type job = IMAGE -> image job = None ->
  Py.opt_truthy (gif_frames job) = false ->
  dispatch P job s =
    (Py.Ok (WFinally None),
     add_effect s (Print "[Display] IMAGE job missing content")).
Proof.
  intros Ht Hi Hg. unfold dispatch. rewrite Ht, Hi.
  destruct (gif_frames job) as [[|f fs]|]; simpl in Hg;
    try discriminate; reflexivity.
Qed.

Lemma dispatch_image_gif s job f fs :
  type job = IMAGE -> gif_frames job = Some (f :: fs) ->
  dispatch P job s =
    (Py.Ok (WGifLoop (f :: fs)
              (if Py.opt_truthy (frame_delays job)
               then match frame_delays job with Some l => l | None => [] end
               else repeat (7 # 100)%Q (List.length (f :: fs)))
              (duration job) (matrix_width (matrix s))
              (matrix_height (matrix s)) (now s) 0), s).
Proof. intros Ht Hg. unfold dispatch. rewrite Ht, Hg. reflexivity. Qed.

(** The first pass through the loop of [_display_gif] writes the frame
    at [i] before anything in it can raise, when the matrix works. *)
Lemma gif_first_write s frames delays d w h st i fr :
  worker s = WGifLoop frames delays d w h st i ->
  keep_going s d st = true -> faulty s = false ->
  Py.getitem frames i = Py.Ok fr ->
  frames_written (effects (worker_step P s)) =
    (frames_written (effects s) ++ [Pil.fit P fr (w, h) Pil.NEAREST])%list.
Proof.
  intros Hw Hk Hf Hfr. unfold worker_step. rewrite Hw, Hk.
  unfold _display_gif_body.
  unfold in_try, bind, lift, matrix_SetImage, time_sleep, ret.
  rewrite Hfr, Hf.
  destruct (Py.getitem delays i) as [dl|e]; simpl.
  - destruct (Py.mod_ (i + 1) (Z.of_nat (List.length frames))); simpl;
      unfold frames_written; rewrite !flat_map_app; simpl;
      rewrite ?app_nil_r; reflexivity.
  - unfold frames_written. rewrite !flat_map_app. reflexivity.
Qed.

End ImageDispatch.

(** C10: an IMAGE job with neither a still image nor frames ends at
    once: the worker prints a line, writes nothing to the matrix, raises
    nothing, clears the current job and is ready for the next job of the
    queue, which it pops.  When frames and a still image are both there,
    the worker enters the loop of the animation, and the first frame it
    writes is the first frame of the animation. *)
Theorem image_job_without_content :
  forall (P : Pil.Pillow) (s : App.DisplayManager) (job : App.Job),
    App.worker s = App.WDispatch job -> App.type job = App.IMAGE ->
    (App.image job = None -> Py.opt_truthy (App.gif_frames job) = false ->
       let s1 := App.worker_step P s in
       let s2 := App.worker_step P s1 in
       App.effects s1 =
         (App.effects s ++
          [App.Print "[Display] IMAGE job missing content"])%list
       /\ App.worker s1 = App.WFinally None
       /\ App.effects s2 = App.effects s1
       /\ App._current_job s2 = None
       /\ App.worker s2 = App.WIdle
       /\ App._job_q s2 = App._job_q s
       /\ (forall next rest,
             App._running s = true -> App._job_q s = next :: rest ->
             App.worker (App.worker_step P s2) = App.WPopped next))
    /\ (forall f fs img,
          App.gif_frames job = Some (f :: fs) -> App.image job = Some img ->
          let s1 := App.worker_step P s in
          let w := App.matrix_width (App.matrix s) in
          let h := App.matrix_height (App.matrix s) in
          App.effects s1 = App.effects s
          /\ (exists delays,
                App.worker s1 =
                  App.WGifLoop (f :: fs) delays (App.duration job) w h
                               (App.now s) 0)
          /\ (App.faulty s = false ->
              App.keep_going s (App.duration job) (App.now s) = true ->
              App.frames_written (App.effects (App.worker_step P s1)) =
                (App.frames_written (App.effects s)
                 ++ [Pil.fit P f (w, h) Pil.NEAREST])%list)).
Proof.
  intros P s job Hw Ht. split.
  - intros Hi Hg s1 s2.
    assert (E1 : s1 = App.set_worker
                   (App.add_effect s
                      (App.Print "[Display] IMAGE job missing content"))
                   (App.WFinally None)).
    { unfold s1. rewrite (worker_step_dispatch P s job Hw).
      unfold App.in_try. rewrite (dispatch_image_missing P s job Ht Hi Hg).
      reflexivity. }
    assert (E2 : s2 = App.set_worker (App.set_current_job s1 None) App.WIdle).
    { unfold s2. rewrite (worker_step_finally P s1 None); [reflexivity|].
      rewrite E1. reflexivity. }
    rewrite E2, E1. simpl. repeat split.
    intros next rest Hr Hq.
    erewrite worker_step_pop; [reflexivity | reflexivity | exact Hr | exact Hq].
  - intros f fs img Hg Hi s1 w h.
    assert (E1 : s1 = App.set_worker s
                   (App.WGifLoop (f :: fs)
                      (if Py.opt_truthy (App.frame_delays job)
                       then match App.frame_delays job with
                            | Some l => l | None => [] end
                       else repeat (7 # 100)%Q (List.length (f :: fs)))
                      (App.duration job) w h (App.now s) 0)).
    { unfold s1. rewrite (worker_step_dispatch P s job Hw).
      unfold App.in_try. rewrite (dispatch_image_gif P s job f fs Ht Hg).
      reflexivity. }
    split; [rewrite E1; reflexivity|].
    split; [rewrite E1; eexists; reflexivity|].
    intros Hf Hk. rewrite E1.
    erewrite gif_first_write; [reflexivity | reflexivity | exact Hk
                               | exact Hf | reflexivity].
Qed.

(** C10 at work: an IMAGE job without content, then a job with both a
    still image and three frames. *)
Lemma image_job_without_content_witness :
  let empty := App.mkJob App.IMAGE None 0 None None None None None in
  let both := App.mkJob App.IMAGE None 0 (Some Demo.blue)
                (Some [Demo.red; Demo.green]) None None None in
  let s := App.run Demo.pillow Demo.dm0
             ([App.CallEnqueue empty; App.CallEnqueue both]
              ++ repeat App.WorkerStep 3) in
  let s' := App.run Demo.pillow s (repeat App.WorkerStep 5) in
  App.frames_written
    (App.effects (App.worker_step Demo.pillow
                    (App.worker_step Demo.pillow s))) = []
  /\ App.frames_written
       (App.effects (App.worker_step Demo.pillow
                       (App.worker_step Demo.pillow s'))) = [Demo.red].
Proof.
  intros empty both s s'. split.
  - destruct (proj1 (image_job_without_content Demo.pillow s
                       (App.set_id empty 1) eq_refl eq_refl)
                eq_refl eq_refl) as [H1 [_ [H2 _]]].
    rewrite H2, H1. reflexivity.
  - destruct (proj2 (image_job_without_content Demo.pillow s'
                       (App.set_id both 2) eq_refl eq_refl)
                Demo.red [Demo.green] Demo.blue eq_refl eq_refl)
      as [_ [_ H]].
    rewrite (H eq_refl eq_refl). reflexivity.
Defined.

(* ================================================================== *)
(** ** The cancellation event *)

Section Cancel.

Import App.
Variable P : Pil.Pillow.

Lemma lands_ret Q pc : Q pc -> lands Q (ret pc).
Proof. intros H s. exact H. Qed.

Lemma lands_bind {A} Q (m : M A) (k : A -> M Worker) :
  (forall a, lands Q (k a)) -> lands Q (bind m k).
Proof.
  intros H s. unfold bind. destruct (m s) as [[a|e] s1]; simpl; [|exact I].
  apply H.
Qed.

Ltac lands :=
  repeat first [ apply lands_bind; intros ? | apply lands_ret; exact I ].

Lemma lands_display_image img d : lands rendering (_display_image P img d).
Proof. unfold _display_image. lands. Qed.

Lemma lands_dispatch job : lands rendering (dispatch P job).
Proof.
  unfold dispatch, _display_weather_template, _display_gif,
    _display_text_scroll.
  destruct (type job).
  - destruct (gif_frames job) as [[|f fs]|]; destruct (image job);
      first [ apply lands_display_image | lands ].
  - apply lands_bind. intros [w h].
    destruct (Pil.getbbox P _) as [[[? ?] ?] ?]. lands.
  - apply lands_display_image.
  - lands.
  - lands.
Qed.

Lemma in_try_lands m s : lands rendering m -> rendering (worker (in_try m s)).
Proof.
  intros H. unfold in_try. specialize (H s).
  destruct (m s) as [[pc|e] s1]; simpl in *; [exact H | exact I].
Qed.

(** Where a step of the worker leads, by where it starts. *)
Lemma worker_step_next s :
  match worker s with
  | WIdle => worker (worker_step P s) = WIdle
             \/ worker (worker_step P s) = WExited
             \/ exists job, worker (worker_step P s) = WPopped job
  | WPopped job => worker (worker_step P s) = WCleared job
  | WCleared job => worker (worker_step P s) = WDispatch job
  | WFinally _ => worker (worker_step P s) = WIdle
                  \/ exists e, worker (worker_step P s) = WDead e
  | WDead e => worker (worker_step P s) = WDead e
  | WExited => worker (worker_step P s) = WExited
  | _ => rendering (worker (worker_step P s))
  end.
Proof.
  unfold worker_step.
  destruct (worker s)
    as [ | job | job | job | d st | fr dl d w h st i | img tw d w h st x
       | exn | e | ] eqn:Ew; try reflexivity.
  - destruct (_running s); [|right; left; reflexivity].
    destruct (_job_q s) as [|job rest]; [left; exact Ew|].
    right; right. exists job. reflexivity.
  - apply in_try_lands, lands_dispatch.
  - destruct (keep_going s d st); [|exact I].
    apply in_try_lands. lands.
  - destruct (keep_going s d st); [|exact I].
    apply in_try_lands. lands.
  - destruct (keep_going s d st); [|exact I].
    apply in_try_lands. lands.
  - destruct exn; [right; eexists|left]; reflexivity.
  - exact Ew.
  - exact Ew.
Qed.



Lemma worker_step_blocked s :
  worker s = WIdle -> _running s = true -> _job_q s = [] ->
  worker_step P s = s.
Proof. intros Hw Hr Hq. unfold worker_step. rewrite Hw, Hr, Hq. reflexivity. Qed.

Lemma worker_step_exit s :
  worker s = WIdle -> _running s = false ->
  worker_step P s = set_worker s WExited.
Proof. intros Hw Hr. unfold worker_step. rewrite Hw, Hr. reflexivity. Qed.

Lemma worker_step_exited s :
  worker s = WExited -> worker_step P s = s.
Proof. intros Hw. unfold worker_step. rewrite Hw. reflexivity. Qed.




End Cancel.

(* ================================================================== *)
(** ** The loops of the render routines *)

Section Loops.

Import App.
Variable P : Pil.Pillow.

(** The test of the loops is the negation of the exit condition. *)
Lemma keep_going_exit s d st :
  keep_going s d st = negb (exit_condition s d st).
Proof.
  unfold keep_going, exit_condition, Py.ltb.
  destruct (_cancel_evt s), d; reflexivity.
Qed.

(** Leaving a loop: nothing is written, [finally] is next. *)
Lemma loop_exit s :
  match worker s with
  | WImageHold d st | WGifLoop _ _ d _ _ st _ | WTextLoop _ _ d _ _ st _ =>
      exit_condition s d st = true ->
      worker_step P s = set_worker s (WFinally None)
  | _ => True
  end.
Proof.
  destruct (worker s) eqn:Ew; try exact I; intros H;
    unfold worker_step; rewrite Ew, keep_going_exit, H; reflexivity.
Qed.

(** One pass of the animation. *)
Lemma gif_iteration s frames delays d w h st i fr dl :
  worker s = WGifLoop frames delays d w h st i ->
  exit_condition s d st = false -> faulty s = false ->
  Py.getitem frames i = Py.Ok fr -> Py.getitem delays i = Py.Ok dl ->
  frames <> [] ->
  worker_step P s =
    set_worker
      (with_world s (now s + Py.max (1 # 100) dl)%Q
         [SetImage (Pil.fit P fr (w, h) Pil.NEAREST);
          Sleep (Py.max (1 # 100) dl)])
      (WGifLoop frames delays d w h st
         ((i + 1) mod Z.of_nat (List.length frames))).
Proof.
  intros Hw Hk Hf Hfr Hdl Hne. unfold worker_step.
  rewrite Hw, keep_going_exit, Hk. simpl negb. cbv iota.
  unfold _display_gif_body.
  unfold in_try, bind, lift, matrix_SetImage, time_sleep, ret.
  rewrite Hfr, Hf, Hdl. unfold Py.mod_.
  destruct (Z.of_nat (List.length frames) =? 0) eqn:E.
  - apply Z.eqb_eq in E. destruct frames; [congruence | simpl in E; lia].
  - unfold set_worker, with_world, add_effect, set_now. simpl.
    rewrite <- app_assoc. reflexivity.
Qed.

(** One poll of the still image. *)
Lemma image_poll s d st :
  worker s = WImageHold d st -> exit_condition s d st = false ->
  worker_step P s =
    set_worker (with_world s (now s + (5 # 100))%Q [Sleep (5 # 100)])
               (WImageHold d st).
Proof.
  intros Hw Hk. unfold worker_step.
  rewrite Hw, keep_going_exit, Hk. reflexivity.
Qed.

(** One tick of the scroll. *)
Lemma text_iteration s img text_w d w h st x frame :
  worker s = WTextLoop img text_w d w h st x ->
  exit_condition s d st = false -> faulty s = false ->
  Py.int text_w + w <> 0 ->
  scroll_frame img w h ((x + 1) mod (Py.int text_w + w)) = Py.Ok frame ->
  worker_step P s =
    set_worker
      (with_world s (now s + (2 # 100))%Q
         [SetImage frame; Sleep (2 # 100)])
      (WTextLoop img text_w d w h st ((x + 1) mod (Py.int text_w + w))).
Proof.
  intros Hw Hk Hf Hm Hfr. unfold worker_step.
  rewrite Hw, keep_going_exit, Hk. simpl negb. cbv iota.
  unfold _display_text_scroll_body.
  unfold in_try, bind, lift, matrix_SetImage, time_sleep, ret, Py.mod_.
  destruct (Py.int text_w + w =? 0) eqn:E; [apply Z.eqb_eq in E; lia|].
  rewrite Hfr, Hf.
  unfold set_worker, with_world, add_effect, set_now. simpl.
  rewrite <- app_assoc. reflexivity.
Qed.

(** A request that is not a stop, or time passing, or the matrix
    recovering, changes nothing a loop looks at but the clock. *)
Lemma undisturbed_step s a :
  a <> WorkerStep -> undisturbed [a] = true ->
  let s' := snd (step P s a) in
  worker s' = worker s /\ effects s' = effects s
  /\ _cancel_evt s' = _cancel_evt s
  /\ (faulty s = false -> faulty s' = false).
Proof.
  destruct a as [ | | | d f | req | req | job | | dt | b ]; intros Ha Hu;
    simpl in *; try discriminate; try (repeat split; auto; fail).
  - unfold show_image. destruct f as [msg|code [msg|e|o]]; simpl;
      try destruct (negb (code =? 200)); simpl; repeat split; auto.
  - unfold show_text.
    destruct (negb (Py.truthy (Py.strip (st_text req)))); repeat split; auto.
  - congruence.
  - destruct b; [discriminate|]. repeat split.
Qed.

End Loops.

(* ================================================================== *)
(** ** The frame of a scroll *)

Section ScrollFrame.

Import App.

Lemma inside_true img x y :
  0 <= x < Pil.width img -> 0 <= y < Pil.height img ->
  Pil.inside img x y = true.
Proof.
  intros Hx Hy. unfold Pil.inside.
  repeat (apply andb_true_intro; split);
    first [apply Z.leb_le | apply Z.ltb_lt]; lia.
Qed.

Lemma inside_left_of img x y : x < 0 -> Pil.inside img x y = false.
Proof.
  intros Hx. unfold Pil.inside.
  destruct (0 <=? x) eqn:E; [apply Z.leb_le in E; lia | reflexivity].
Qed.

(** Inside the strip the frame at offset [x] shows the columns
    [x .. x+w-1] of the strip, taken modulo its width. *)
Lemma scroll_frame_wraps img w h x :
  0 <= x <= Pil.width img -> 0 <= w <= Pil.width img ->
  0 <= h <= Pil.height img ->
  exists frame,
    scroll_frame img w h x = Py.Ok frame
    /\ Pil.width frame = w /\ Pil.height frame = h
    /\ forall c r, 0 <= c < w -> 0 <= r < h ->
         Pil.pixel frame c r = Pil.pixel img ((x + c) mod Pil.width img) r.
Proof.
  intros Hx Hw Hh. unfold scroll_frame, Pil.crop.
  destruct (x + w <=? Pil.width img) eqn:Efit.
  - apply Z.leb_le in Efit.
    destruct (x + w <? x) eqn:E1; [apply Z.ltb_lt in E1; lia|].
    destruct (h <? 0) eqn:E2; [apply Z.ltb_lt in E2; lia|].
    eexists. split; [reflexivity|]. simpl.
    split; [lia|]. split; [lia|].
    intros c r Hc Hr.
    rewrite inside_true by lia.
    rewrite Z.mod_small by lia. f_equal; lia.
  - apply Z.leb_gt in Efit.
    destruct (Pil.width img <? x) eqn:E1; [apply Z.ltb_lt in E1; lia|].
    destruct (h <? 0) eqn:E2; [apply Z.ltb_lt in E2; lia|].
    simpl.
    destruct (w - (Pil.width img - x) <? 0) eqn:E3;
      [apply Z.ltb_lt in E3; lia|].
    rewrite ?E2.
    eexists. split; [reflexivity|]. simpl.
    split; [reflexivity|]. split; [reflexivity|].
    intros c r Hc Hr.
    destruct (Z_lt_ge_dec c (Pil.width img - x)) as [Hlt|Hge].
    + rewrite (inside_left_of _ (c - (Pil.width img - x))) by lia.
      rewrite inside_true by (simpl; lia).
      rewrite inside_true by lia.
      rewrite Z.mod_small by lia. f_equal; lia.
    + rewrite inside_true by (simpl; lia).
      rewrite inside_true by lia.
      replace ((x + c) mod Pil.width img) with (x + c - Pil.width img).
      * f_equal; lia.
      * apply Z.mod_unique with (q := 1); lia.
Qed.

End ScrollFrame.

(* ================================================================== *)
(** ** Loops that nobody stops *)

Section Forever.

Import App.
Variable P : Pil.Pillow.

Lemma flat_map_seq_succ {A} (f : nat -> list A) n :
  flat_map f (seq 0 (S n)) = (f O ++ flat_map (fun k => f (S k)) (seq 0 n))%list.
Proof.
  simpl. f_equal. rewrite <- seq_shift.
  induction (seq 0 n) as [|k l IH]; simpl; [reflexivity|].
  rewrite IH. reflexivity.
Qed.

Lemma gif_effects_succ frames delays w h i n :
  0 <= i < Z.of_nat (List.length frames) ->
  gif_effects P frames delays w h i (S n) =
  (gif_pass P frames delays w h i ++
   gif_effects P frames delays w h
     ((i + 1) mod Z.of_nat (List.length frames)) n)%list.
Proof.
  intros Hi. unfold gif_effects. rewrite flat_map_seq_succ.
  f_equal.
  - simpl. rewrite Z.add_0_r, Z.mod_small by lia. reflexivity.
  - apply flat_map_ext. intros k. cbv beta. f_equal.
    rewrite Zplus_mod_idemp_l. f_equal. lia.
Qed.

Lemma text_effects_succ img w h m x n :
  text_effects img w h m x (S n) =
  (text_pass img w h ((x + 1) mod m) ++
   text_effects img w h m ((x + 1) mod m) n)%list.
Proof.
  unfold text_effects. rewrite flat_map_seq_succ.
  f_equal.
  - simpl. rewrite Z.add_0_r. reflexivity.
  - apply flat_map_ext. intros k. cbv beta. f_equal.
    rewrite <- (Z.add_assoc ((x + 1) mod m)), Zplus_mod_idemp_l.
    f_equal. lia.
Qed.

Lemma undisturbed_cons a r :
  undisturbed (a :: r) = true ->
  undisturbed [a] = true /\ undisturbed r = true.
Proof.
  unfold undisturbed. simpl. intros H. apply andb_prop in H as [H1 H2].
  rewrite H1. auto.
Qed.

Lemma not_worker_step (a : Action) : a = WorkerStep \/ a <> WorkerStep.
Proof. destruct a; (left; reflexivity) || (right; discriminate). Qed.

Lemma worker_steps_other a r :
  a <> WorkerStep -> worker_steps (a :: r) = worker_steps r.
Proof. intros H. unfold worker_steps. destruct a; simpl; congruence. Qed.


(** The same for the scroll. *)
Lemma text_forever img text_w w h st sched : forall s x,
  worker s = WTextLoop img text_w None w h st x ->
  _cancel_evt s = false -> faulty s = false -> undisturbed sched = true ->
  0 < Py.int text_w + w <= Pil.width img + 1 ->
  0 <= w <= Pil.width img -> 0 <= h <= Pil.height img ->
  0 <= x < Py.int text_w + w ->
  let s' := run P s sched in
  let n := worker_steps sched in
  worker s' = WTextLoop img text_w None w h st
                ((x + Z.of_nat n) mod (Py.int text_w + w))
  /\ _cancel_evt s' = false /\ faulty s' = false
  /\ effects s' =
     (effects s ++ text_effects img w h (Py.int text_w + w) x n)%list.
Proof.
  induction sched as [|a r IH]; intros s x Hw Hc Hf Hu Hm Hwd Hh Hx; simpl.
  - rewrite Z.add_0_r, Z.mod_small, app_nil_r by lia. auto.
  - apply undisturbed_cons in Hu as [Ha Hr].
    destruct (not_worker_step a) as [-> | Hna].
    + set (x' := (x + 1) mod (Py.int text_w + w)).
      assert (Hx' : 0 <= x' < Py.int text_w + w)
        by (apply Z.mod_pos_bound; lia).
      destruct (scroll_frame_wraps img w h x') as [frame [Efr _]]; try lia.
      assert (Hex : exit_condition s None st = false)
        by (unfold exit_condition; rewrite Hc; reflexivity).
      simpl step. simpl snd.
      rewrite (text_iteration P s img text_w None w h st x frame Hw Hex Hf
                 ltac:(lia) Efr).
      fold x'. set (s1 := set_worker _ _).
      destruct (IH s1 x' eq_refl Hc Hf Hr Hm Hwd Hh Hx')
        as [I1 [I2 [I3 I4]]].
      rewrite I1, I2, I3, I4.
      change (worker_steps (WorkerStep :: r)) with (S (worker_steps r)).
      rewrite text_effects_succ. fold x'.
      unfold text_pass. rewrite Efr.
      repeat split.
      * f_equal. unfold x'. rewrite Zplus_mod_idemp_l. f_equal. lia.
      * unfold s1. simpl. rewrite <- !app_assoc. reflexivity.
    + destruct (undisturbed_step P s a Hna Ha) as [U1 [U2 [U3 U4]]].
      rewrite (worker_steps_other a r Hna).
      edestruct (IH (snd (step P s a)) x) as [I1 [I2 [I3 I4]]]; eauto;
        try congruence.
      rewrite I1, I2, I3, I4, U2. auto.
Qed.


End Forever.

(* ================================================================== *)
(** ** The exit condition of the routines *)

Section ExitCondition.

Import App.
Variable P : Pil.Pillow.







End ExitCondition.




(* ================================================================== *)
(** ** The scroll *)

Section PiScroll.

Import PiServer.
Variable W : World.

(** A thread of [pi_server.py] in the scroll loop makes the same tick
    as the worker of [app.py], on a viewport of 64 by 64. *)
Lemma pi_text_tick n s img text_w duration dq st x frame :
  nth_error (threads s) n = Some (TTextLoop img text_w duration st x) ->
  stop_event s = false -> as_number duration = Py.Ok dq ->
  Py.ltb (now s - st)%Q dq = true ->
  Py.int text_w + 64 <> 0 ->
  App.scroll_frame img 64 64 ((x + 1) mod (Py.int text_w + 64))
    = Py.Ok frame ->
  thread_step W n s =
    mkMH (sink s ++ [(Spawned n, SetImage frame)]) (stop_event s)
         (current_job s)
         (update (threads s) n
            (TTextLoop img text_w duration st
               ((x + 1) mod (Py.int text_w + 64))))
         (now s + (2 # 100))%Q (stdout s).
Proof.
  intros Hn Hs Hd Hlt Hm Hfr. unfold thread_step. rewrite Hn.
  unfold thread_body.
  unfold bind, loop_test, lift, matrix_SetImage, time_sleep, ret, Py.mod_.
  rewrite Hs, Hd, Hlt.
  destruct (Py.int text_w + 64 =? 0) eqn:E; [apply Z.eqb_eq in E; lia|].
  rewrite Hfr. unfold set_threads, set_now, add_sink. simpl.
  rewrite ?Hs. reflexivity.
Qed.

End PiScroll.

Lemma text_effects_offsets img w h m x n :
  App.text_effects img w h m x n =
  flat_map (App.text_pass img w h) (App.offsets m x n).
Proof.
  unfold App.text_effects, App.offsets.
  induction (seq 0 n) as [|k l IH]; simpl; [reflexivity|].
  rewrite IH. reflexivity.
Qed.

(** C8, as stated, fails on the first frame.  A text of width 50 on a
    matrix 20 wide: the routine enters its loop with [x = 0], and its
    first tick moves to [x = 1] before it shows anything.  The first
    frame is the slice of the strip at offset 1 (its first column is
    column 1 of the strip, dark, where column 0 is lit); offset 0 is
    shown for the first time at the 70th frame. *)
Lemma scroll_first_frame_at_offset_one :
  let s := App.run Demo.pillow50 Demo.dm20
             (App.CallEnqueue (Demo.text_job None)
              :: repeat App.WorkerStep 4) in
  let s1 := App.worker_step Demo.pillow50 s in
  App.worker s = App.WTextLoop Demo.strip50 50 None 20 16 0 0
  /\ App.effects s = []
  /\ App.worker s1 = App.WTextLoop Demo.strip50 50 None 20 16 0 1
  /\ (exists frame,
        App.effects s1 = [App.SetImage frame; App.Sleep (2 # 100)]
        /\ App.scroll_frame Demo.strip50 20 16 1 = Py.Ok frame
        /\ Pil.pixel frame 0 0 = Pil.black)
  /\ (exists frame0,
        App.scroll_frame Demo.strip50 20 16 0 = Py.Ok frame0
        /\ Pil.pixel frame0 0 0 = Pil.white)
  /\ (exists img st,
        App.worker (App.run Demo.pillow50 s (repeat App.WorkerStep 69))
        = App.WTextLoop img 50 None 20 16 st 69)
  /\ (exists img st,
        App.worker (App.run Demo.pillow50 s (repeat App.WorkerStep 70))
        = App.WTextLoop img 50 None 20 16 st 0).
Proof.
  intros s s1.
  split; [reflexivity|]. split; [reflexivity|]. split; [reflexivity|].
  split; [eexists; repeat split|].
  split; [eexists; repeat split|].
  split; do 2 eexists; vm_compute; reflexivity.
Qed.

Section ScrollFailures.

Import App.
Variable P : Pil.Pillow.

(** A text of one line reaches the loop, at offset 0, on a strip 1000
    pixels wide. *)
Lemma text_scroll_enters text d s :
  Pil.multiline text = false ->
  exists strip,
    _display_text_scroll P text d s =
      (Py.Ok (WTextLoop strip (Pil.textlength P text) d
                (matrix_width (matrix s)) (matrix_height (matrix s))
                (now s) 0), s)
    /\ Pil.width strip = 1000
    /\ Pil.height strip = matrix_height (matrix s).
Proof.
  intros H.
  unfold _display_text_scroll, bind, matrix_size, time_time, ret, lift,
    Pil.draw_textlength.
  rewrite H. destruct (Pil.getbbox P text) as [[[a b] c] bottom].
  eexists. repeat split.
Qed.

(** A text with a line break is refused by [textlength]. *)
Lemma text_scroll_multiline text d s :
  Pil.multiline text = true ->
  _display_text_scroll P text d s = (Py.Raise Py.ValueError, s).
Proof.
  intros H.
  unfold _display_text_scroll, bind, matrix_size, time_time, ret, lift,
    Pil.draw_textlength.
  rewrite H. destruct (Pil.getbbox P text) as [[[a b] c] bottom].
  reflexivity.
Qed.

(** A tick whose modulus is zero. *)
Lemma text_tick_zero s img text_w d w h st x :
  worker s = WTextLoop img text_w d w h st x ->
  exit_condition s d st = false ->
  Py.int text_w + w = 0 ->
  worker_step P s = set_worker s (WFinally (Some Py.ZeroDivisionError)).
Proof.
  intros Hw Hk Hm. unfold worker_step.
  rewrite Hw, keep_going_exit, Hk. simpl negb. cbv iota.
  unfold _display_text_scroll_body.
  unfold in_try, bind, lift, Py.mod_. rewrite Hm. reflexivity.
Qed.

(** A tick whose crop fails. *)
Lemma text_tick_raises s img text_w d w h st x e :
  worker s = WTextLoop img text_w d w h st x ->
  exit_condition s d st = false ->
  Py.int text_w + w <> 0 ->
  scroll_frame img w h ((x + 1) mod (Py.int text_w + w)) = Py.Raise e ->
  worker_step P s = set_worker s (WFinally (Some e)).
Proof.
  intros Hw Hk Hm Hfr. unfold worker_step.
  rewrite Hw, keep_going_exit, Hk. simpl negb. cbv iota.
  unfold _display_text_scroll_body.
  unfold in_try, bind, lift, Py.mod_.
  destruct (Py.int text_w + w =? 0) eqn:E; [apply Z.eqb_eq in E; lia|].
  rewrite Hfr. reflexivity.
Qed.

(** A tick whose frame the matrix refuses. *)
Lemma text_tick_sink_fails s img text_w d w h st x frame :
  worker s = WTextLoop img text_w d w h st x ->
  exit_condition s d st = false -> faulty s = true ->
  Py.int text_w + w <> 0 ->
  scroll_frame img w h ((x + 1) mod (Py.int text_w + w)) = Py.Ok frame ->
  worker_step P s = set_worker s (WFinally (Some Py.SinkError)).
Proof.
  intros Hw Hk Hf Hm Hfr. unfold worker_step.
  rewrite Hw, keep_going_exit, Hk. simpl negb. cbv iota.
  unfold _display_text_scroll_body.
  unfold in_try, bind, lift, matrix_SetImage, Py.mod_.
  destruct (Py.int text_w + w =? 0) eqn:E; [apply Z.eqb_eq in E; lia|].
  rewrite Hfr, Hf. reflexivity.
Qed.

(** Beyond the right edge of the strip [crop] refuses the box. *)
Lemma scroll_frame_beyond img w h off :
  0 <= w -> Pil.width img < off ->
  scroll_frame img w h off = Py.Raise Py.ValueError.
Proof.
  intros Hw Hoff. unfold scroll_frame.
  destruct (off + w <=? Pil.width img) eqn:E; [apply Z.leb_le in E; lia|].
  unfold Pil.crop.
  destruct (Pil.width img <? off) eqn:E2; [reflexivity|].
  apply Z.ltb_ge in E2. lia.
Qed.

End ScrollFailures.

Section PiScrollFailures.

Import PiServer.
Variable W : World.

(** The same failing tick in a thread of [pi_server.py]: the error is
    printed and the thread goes to its [finally]. *)
Lemma pi_text_tick_raises n s img text_w duration dq st x e :
  nth_error (threads s) n = Some (TTextLoop img text_w duration st x) ->
  stop_event s = false -> as_number duration = Py.Ok dq ->
  Py.ltb (now s - st)%Q dq = true ->
  Py.int text_w + 64 <> 0 ->
  App.scroll_frame img 64 64 ((x + 1) mod (Py.int text_w + 64))
    = Py.Raise e ->
  thread_step W n s =
    mkMH (sink s) (stop_event s) (current_job s)
         (update (threads s) n TFinally) (now s) (stdout s ++ ["Error"%string]).
Proof.
  intros Hn Hs Hd Hlt Hm Hfr. unfold thread_step. rewrite Hn.
  unfold thread_body.
  unfold bind, loop_test, lift, matrix_SetImage, time_sleep, ret, Py.mod_.
  rewrite Hs, Hd, Hlt.
  destruct (Py.int text_w + 64 =? 0) eqn:E; [apply Z.eqb_eq in E; lia|].
  rewrite Hfr. unfold set_threads, add_stdout. simpl.
  rewrite ?Hs. reflexivity.
Qed.

End PiScrollFailures.

(** C8, as amended.  The routine renders the text on a strip 1000 pixels
    wide and, the text having no line break, enters its loop with
    [x = 0]; a text with a line break is refused by [textlength] with
    [ValueError] before the loop.  Each tick first advances
    [x = (x + 1) mod (textWidth + viewportWidth)] ([ZeroDivisionError]
    when the sum is 0), then crops the frame at the new [x], shows it and
    sleeps 20 ms; a crop that raises, or a matrix that refuses the frame,
    ends the routine with that exception and nothing shown.  The offsets of the frames shown are thus
    1, 2, ..., 69, 0, 1, ... for a text 50 wide seen through 20 columns.
    At an offset up to the width of the strip the frame is the slice
    [x, x+viewportWidth) of the strip, columns being taken modulo the
    width of the strip (1000): when the window passes the right edge, the
    tail and the head of the strip are pasted side by side.  Beyond the
    width of the strip [crop] raises [ValueError]: a scroll whose modulus
    exceeds the width of the strip by more than one ends so at the tick
    after the last column.  With a modulus between 1 and the width of the
    strip plus one, a viewport no larger than the strip, no duration,
    nobody stopping it and a working matrix the scroll goes on, one frame
    per step of the worker.  The threads of [pi_server.py] make the same
    tick on a viewport of 64 columns, and print the error of a failing
    crop. *)
Theorem scroll_offsets_and_frames :
  forall (P : Pil.Pillow) (s : App.DisplayManager) (img : Pil.Image)
         (text_w : Q) (d : option Q) (w h : Z) (st : Q) (x : Z),
    let m := Py.int text_w + w in
    (forall text,
       (Pil.multiline text = false ->
        exists strip,
          App._display_text_scroll P text d s =
            (Py.Ok (App.WTextLoop strip (Pil.textlength P text) d
                      (App.matrix_width (App.matrix s))
                      (App.matrix_height (App.matrix s)) (App.now s) 0), s)
          /\ Pil.width strip = 1000
          /\ Pil.height strip = App.matrix_height (App.matrix s))
       /\ (Pil.multiline text = true ->
           App._display_text_scroll P text d s
           = (Py.Raise Py.ValueError, s)))
    /\ (App.worker s = App.WTextLoop img text_w d w h st x ->
        App.exit_condition s d st = false ->
        (m = 0 ->
         App.worker_step P s =
           App.set_worker s (App.WFinally (Some Py.ZeroDivisionError)))
        /\ (m <> 0 ->
            match App.scroll_frame img w h ((x + 1) mod m) with
            | Py.Ok frame =>
                App.worker_step P s =
                  if App.faulty s
                  then App.set_worker s (App.WFinally (Some Py.SinkError))
                  else
                    App.set_worker
                      (App.with_world s (App.now s + (2 # 100))%Q
                         [App.SetImage frame; App.Sleep (2 # 100)])
                      (App.WTextLoop img text_w d w h st ((x + 1) mod m))
            | Py.Raise e =>
                App.worker_step P s =
                  App.set_worker s (App.WFinally (Some e))
            end))
    /\ (forall off,
          0 <= off <= Pil.width img -> 0 <= w <= Pil.width img ->
          0 <= h <= Pil.height img ->
          exists frame,
            App.scroll_frame img w h off = Py.Ok frame
            /\ Pil.width frame = w /\ Pil.height frame = h
            /\ forall c r, 0 <= c < w -> 0 <= r < h ->
                 Pil.pixel frame c r =
                 Pil.pixel img ((off + c) mod Pil.width img) r)
    /\ (forall off,
          0 <= w -> Pil.width img < off ->
          App.scroll_frame img w h off = Py.Raise Py.ValueError)
    /\ (App.worker s = App.WTextLoop img text_w d w h st x ->
        App.exit_condition s d st = false ->
        0 <= w -> x = Pil.width img -> Pil.width img + 1 < m ->
        0 <= Pil.width img ->
        App.worker_step P s =
          App.set_worker s (App.WFinally (Some Py.ValueError)))
    /\ (forall sched,
          App.worker s = App.WTextLoop img text_w None w h st x ->
          App._cancel_evt s = false -> App.faulty s = false ->
          App.undisturbed sched = true ->
          0 < m <= Pil.width img + 1 ->
          0 <= w <= Pil.width img -> 0 <= h <= Pil.height img ->
          0 <= x < m ->
          let s' := App.run P s sched in
          let n := App.worker_steps sched in
          App.effects s' =
            (App.effects s
             ++ flat_map (App.text_pass img w h) (App.offsets m x n))%list
          /\ App.worker s' =
               App.WTextLoop img text_w None w h st ((x + Z.of_nat n) mod m))
    /\ App.offsets (50 + 20) 0 71 = (map Z.of_nat (seq 1 69) ++ [0; 1])%list
    /\ (forall (W : PiServer.World) (n : nat) (ps : PiServer.MatrixHandler)
               (duration : PiServer.JSON) (dq : Q),
          nth_error (PiServer.threads ps) n =
            Some (PiServer.TTextLoop img text_w duration st x) ->
          PiServer.stop_event ps = false ->
          PiServer.as_number duration = Py.Ok dq ->
          Py.ltb (PiServer.now ps - st)%Q dq = true ->
          Py.int text_w + 64 <> 0 ->
          match App.scroll_frame img 64 64 ((x + 1) mod (Py.int text_w + 64))
          with
          | Py.Ok frame =>
              PiServer.thread_step W n ps =
                PiServer.mkMH
                  (PiServer.sink ps
                   ++ [(PiServer.Spawned n, PiServer.SetImage frame)])
                  (PiServer.stop_event ps) (PiServer.current_job ps)
                  (PiServer.update (PiServer.threads ps) n
                     (PiServer.TTextLoop img text_w duration st
                        ((x + 1) mod (Py.int text_w + 64))))
                  (PiServer.now ps + (2 # 100))%Q (PiServer.stdout ps)
          | Py.Raise _ =>
              PiServer.thread_step W n ps =
                PiServer.mkMH
                  (PiServer.sink ps) (PiServer.stop_event ps)
                  (PiServer.current_job ps)
                  (PiServer.update (PiServer.threads ps) n PiServer.TFinally)
                  (PiServer.now ps)
                  (PiServer.stdout ps ++ ["Error"%string])
          end).
Proof.
  intros P s img text_w d w h st x m.
  split.
  { intros text. split.
    - apply text_scroll_enters.
    - apply text_scroll_multiline. }
  split.
  { intros Hw Hk. split.
    - intros Hm. eapply text_tick_zero; eauto.
    - intros Hm.
      destruct (App.scroll_frame img w h ((x + 1) mod m)) as [frame|e] eqn:E.
      + destruct (App.faulty s) eqn:Hf.
        * eapply text_tick_sink_fails; eauto.
        * eapply text_iteration; eauto.
      + eapply text_tick_raises; eauto. }
  split; [intros off; apply scroll_frame_wraps|].
  split; [intros off; apply scroll_frame_beyond|].
  split.
  { intros Hw Hk H0 Hx Hm Hwd.
    eapply text_tick_raises; eauto; [unfold m in Hm; lia|].
    apply scroll_frame_beyond; [assumption|].
    fold m. rewrite Z.mod_small; lia. }
  split.
  { intros sched Hw Hc Hf Hu Hm Hwd Hh Hx s' n.
    destruct (text_forever P img text_w w h st sched s x Hw Hc Hf Hu Hm Hwd
                Hh Hx) as [I1 [_ [_ I4]]].
    rewrite <- text_effects_offsets. split; assumption. }
  split; [vm_compute; reflexivity|].
  intros W n ps duration dq Hn Hs Hd Hlt Hm.
  destruct (App.scroll_frame img 64 64 ((x + 1) mod (Py.int text_w + 64)))
    as [frame|e] eqn:E.
  - eapply pi_text_tick; eauto.
  - eapply pi_text_tick_raises; eauto.
Qed.

(** C8 at work: the text of width 50 on the matrix 20 wide; after three
    ticks three frames have been written and the offset is 3. *)
Lemma scroll_offsets_and_frames_witness :
  let s := App.run Demo.pillow50 Demo.dm20
             (App.CallEnqueue (Demo.text_job None)
              :: repeat App.WorkerStep 4) in
  let s' := App.run Demo.pillow50 s (repeat App.WorkerStep 3) in
  App.worker s' = App.WTextLoop Demo.strip50 50 None 20 16 0 3
  /\ List.length (App.frames_written (App.effects s')) = 3%nat.
Proof.
  intros s s'.
  destruct (proj1 (proj2 (proj2 (proj2 (proj2 (proj2
              (scroll_offsets_and_frames Demo.pillow50 s Demo.strip50 50
                 None 20 16 0 0))))))
              (repeat App.WorkerStep 3) eq_refl eq_refl eq_refl eq_refl
              ltac:(simpl; lia) ltac:(simpl; lia) ltac:(simpl; lia)
              ltac:(simpl; lia)) as [E Hw].
  split.
  - exact Hw.
  - unfold s'. rewrite E. reflexivity.
Defined.

(* ================================================================== *)
(** ** Blank text *)

(** X15: In [app.py] a text that is empty or whitespace only is refused with
    status 400 and the manager is left as it was: nothing enters the
    queue, the counter of ids does not move.  Any other text is
    enqueued. *)
Theorem app_show_text_rejects_blank :
  forall (req : App.ShowTextRequest) (s : App.DisplayManager),
    (App.whitespace_only (App.st_text req) = true ->
     App.show_text req s = (App.HTTPException 400 "text must not be empty", s))
    /\ (App.whitespace_only (App.st_text req) = false ->
        App.show_text req s =
          (App.RJob (App._next_id s),
           snd (App.enqueue
                  (App.mkJob App.TEXT (App.st_duration req) 0 None None None
                             (Some (App.st_text req)) None) s))).
Proof.
  intros req s. unfold App.show_text.
  destruct (Py.strip (App.st_text req)) as [|c r] eqn:E; simpl.
  - split; [reflexivity|]. intros H.
    apply strip_nil_iff in E. congruence.
  - split; [|reflexivity]. intros H.
    apply strip_nil_iff in H. congruence.
Qed.

Lemma app_show_text_rejects_blank_witness :
  let req := App.mkShowText Demo.blank (Some 10%Q) in
  let sched := [App.PostShowText req] in
  App.replies Demo.pillow Demo.dm0 sched
  = [App.HTTPException 400 "text must not be empty"]
  /\ App.run Demo.pillow Demo.dm0 sched = Demo.dm0.
Proof.
  intros req sched. unfold sched.
  cbn [App.replies App.run App.step].
  rewrite (proj1 (app_show_text_rejects_blank req Demo.dm0) eq_refl).
  split; reflexivity.
Defined.

(** C9 on the code of [pi_server.py]: [do_POST] only tests the truth
    value of the text.  A text of three spaces is accepted with status
    200; a thread is started for it, and two of its steps later a frame
    is on the matrix.  The empty text is refused, with [ok: false] under
    status 200. *)
Theorem pi_server_accepts_blank_text :
  let r := PiServer.do_POST "/matrix/show/text"
             (PiServer.json_object
                [("text"%string, PiServer.JStr Demo.blank)]) Demo.mh0 in
  let later := PiServer.run Demo.world (snd r)
                 [PiServer.ThreadStep 0; PiServer.ThreadStep 0] in
  App.whitespace_only Demo.blank = true
  /\ fst r
     = Py.Ok (PiServer.mkResp 200 (PiServer.BOk "Text display started"))
  /\ PiServer.threads (snd r)
     = [PiServer.TText (PiServer.JStr Demo.blank) (PiServer.JNum 10)]
  /\ PiServer.current_job (snd r) = Some "text"%string
  /\ PiServer.writers later = [PiServer.Spawned 0]
  /\ PiServer.do_POST "/matrix/show/text"
       (PiServer.json_object [("text"%string, PiServer.JStr [])]) Demo.mh0
     = (Py.Ok (PiServer.mkResp 200 (PiServer.BError "Text required")),
        Demo.mh0).
Proof. repeat split. Qed.

(* ================================================================== *)
(** ** Who writes to the matrix *)

(** C4 on the code of [pi_server.py]: every request starts a thread of
    its own and the threads write to the matrix themselves.  Two image
    requests, then two text requests: the two threads of each pair are
    alive together and their writes alternate.  A clear request writes
    from the thread that serves the requests. *)
Theorem pi_server_concurrent_writers :
  let gif := Py.of_string "gif" in
  let images := PiServer.run Demo.world Demo.mh0
                  [Demo.post_image gif; Demo.post_image gif;
                   PiServer.ThreadStep 0; PiServer.ThreadStep 0;
                   PiServer.ThreadStep 1; PiServer.ThreadStep 1;
                   PiServer.ThreadStep 0; PiServer.ThreadStep 1] in
  let texts := PiServer.run Demo.world Demo.mh0
                 [Demo.post_text Demo.hello; Demo.post_text Demo.hello;
                  PiServer.ThreadStep 0; PiServer.ThreadStep 0;
                  PiServer.ThreadStep 1; PiServer.ThreadStep 1;
                  PiServer.ThreadStep 0; PiServer.ThreadStep 1] in
  let cleared := PiServer.run Demo.world Demo.mh0
                   [PiServer.Post "/matrix/clear" (PiServer.json_object [])] in
  (PiServer.sink images
   = [(PiServer.Spawned 0, PiServer.SetImage Demo.red);
      (PiServer.Spawned 1, PiServer.SetImage Demo.red);
      (PiServer.Spawned 0, PiServer.SetImage Demo.green);
      (PiServer.Spawned 1, PiServer.SetImage Demo.green)]
   /\ PiServer.alive images 0 = true /\ PiServer.alive images 1 = true)
  /\ (PiServer.writers texts
      = [PiServer.Spawned 0; PiServer.Spawned 1;
         PiServer.Spawned 0; PiServer.Spawned 1]
      /\ PiServer.alive texts 0 = true /\ PiServer.alive texts 1 = true)
  /\ PiServer.sink cleared = [(PiServer.RequestThread, PiServer.Clear)].
Proof. repeat split. Qed.

(* ================================================================== *)
(** ** What status shows *)

Section StatusFacts.

Import App.
Variable P : Pil.Pillow.

Lemma last_popped_snoc s job :
  last_popped (add_popped s job) = Some job.
Proof. unfold last_popped. simpl. rewrite rev_app_distr. reflexivity. Qed.

(** In a render position a step of the worker acts on the world only
    and stays in a render position. *)
Lemma render_step_world s :
  rendering (worker s) -> (forall exn, worker s <> WFinally exn) ->
  exists t eff pc,
    worker_step P s = set_worker (with_world s t eff) pc /\ rendering pc.
Proof.
  intros Hr Hnf.
  pose proof (worker_step_next P s) as N.
  destruct (worker_step_shape P s)
    as [[job [rest [Ew _]]] | [[job [Ew _]] | [[job [Ew _]]
       | [[exn [Ew _]] | [t [eff [pc E]]]]]]];
    try (rewrite Ew in Hr; contradiction).
  - exfalso. apply (Hnf exn Ew).
  - exists t, eff, pc. split; [exact E|].
    rewrite E in N. destruct (worker s); try contradiction; try exact N.
    exfalso. apply (Hnf exn). reflexivity.
Qed.

Lemma dispatch_step_world s job :
  worker s = WDispatch job ->
  exists t eff pc,
    worker_step P s = set_worker (with_world s t eff) pc /\ rendering pc.
Proof.
  intros Ew. pose proof (worker_step_next P s) as N.
  destruct (worker_step_shape P s)
    as [[j [rest [Ew' _]]] | [[j [Ew' _]] | [[j [Ew' _]]
       | [[exn [Ew' _]] | [t [eff [pc E]]]]]]]; try congruence.
  exists t, eff, pc. split; [exact E|].
  rewrite E, Ew in N. exact N.
Qed.

Lemma current_job_ok_step s a :
  current_job_ok s -> current_job_ok (snd (step P s a)).
Proof.
  intros H. destruct (not_worker_step a) as [-> | Ha].
  - simpl. unfold current_job_ok in *.
    destruct (worker s)
      as [ | job | job | job | d st | fr dl d w h st i | img tw d w h st x
         | exn | e | ] eqn:Ew.
    + destruct (_running s) eqn:Er.
      * destruct (_job_q s) as [|job rest] eqn:Eq.
        -- rewrite (worker_step_blocked P s Ew Er Eq), Ew. exact H.
        -- rewrite (worker_step_pop P s job rest Ew Er Eq). simpl.
           split; [exact H|]. apply (last_popped_snoc (set_job_q s rest)).
      * rewrite (worker_step_exit P s Ew Er). exact H.
    + rewrite (worker_step_clear P s job Ew). exact H.
    + rewrite (worker_step_publish P s job Ew). simpl.
      split; [reflexivity | apply H].
    + destruct (dispatch_step_world s job Ew) as [t [eff [pc [E Hr]]]].
      rewrite E. simpl.
      assert (G : exists j, _current_job s = Some j /\ last_popped s = Some j)
        by (exists job; exact H).
      destruct pc; try contradiction; exact G.
    + destruct (render_step_world s) as [t [eff [pc [E Hr]]]];
        [rewrite Ew; exact I | intros exn; congruence|].
      rewrite E. simpl. destruct pc; try contradiction; exact H.
    + destruct (render_step_world s) as [t [eff [pc [E Hr]]]];
        [rewrite Ew; exact I | intros exn; congruence|].
      rewrite E. simpl. destruct pc; try contradiction; exact H.
    + destruct (render_step_world s) as [t [eff [pc [E Hr]]]];
        [rewrite Ew; exact I | intros exn; congruence|].
      rewrite E. simpl. destruct pc; try contradiction; exact H.
    + rewrite (worker_step_finally P s exn Ew). simpl.
      destruct exn; reflexivity.
    + unfold worker_step. rewrite Ew. simpl. rewrite Ew. exact H.
    + rewrite (worker_step_exited P s Ew), Ew. exact H.
  - destruct (handler_frame P s a Ha) as [F1 [F2 [_ [F4 _]]]].
    unfold current_job_ok, last_popped in *. rewrite F1, F2, F4. exact H.
Qed.

Lemma running_step s a :
  _running s = true /\ worker s <> WExited ->
  _running (snd (step P s a)) = true /\ worker (snd (step P s a)) <> WExited.
Proof.
  intros [Hr Hw]. destruct (not_worker_step a) as [-> | Ha].
  - simpl. split.
    + destruct (worker_step_shape P s)
        as [[job [rest [_ [_ E]]]] | [[job [_ E]] | [[job [_ E]]
           | [[exn [_ [pc E]]] | [t [eff [pc E]]]]]]];
        rewrite E; exact Hr.
    + pose proof (worker_step_next P s) as N.
      destruct (worker s) eqn:Ew; try congruence;
        try (intros C; rewrite C in N; contradiction).
      * unfold worker_step. rewrite Ew, Hr.
        destruct (_job_q s); simpl; congruence.
      * destruct N as [N | [e N]]; congruence.
  - destruct (handler_frame P s a Ha) as [F1 [_ [_ [_ [F5 _]]]]].
    rewrite F1, F5. auto.
Qed.

End StatusFacts.

(** X1: The size of the queue that [status()] reports, added to the number
    of jobs the worker has popped, is the number of jobs submitted since
    the manager was created. *)
Theorem status_queue_size :
  forall (P : Pil.Pillow) (w h : Z) (t0 : Q) (sched : list App.Action),
    let s := App.run P (App.init w h t0) sched in
    (App.queue_size (App.status s) + List.length (App.popped s))%nat
    = List.length (App.submitted 1 sched).
Proof.
  intros P w h t0 sched s.
  destruct (run_queue P sched (App.init w h t0)) as [Hq _].
  simpl in Hq. fold s in Hq.
  rewrite <- Hq, length_app. simpl. lia.
Qed.

(** X2: In every state the manager can reach, [_current_job] is unset while
    the worker waits for a job, between [get()] and the publication, and
    once the worker has ended; otherwise it is the job popped last.  So
    status never shows a job other than the one being processed. *)
Theorem current_job_is_last_popped :
  forall (P : Pil.Pillow) (w h : Z) (t0 : Q) (sched : list App.Action),
    App.current_job_ok (App.run P (App.init w h t0) sched).
Proof.
  intros P w h t0 sched.
  assert (G : forall s, App.current_job_ok s ->
                        App.current_job_ok (App.run P s sched)).
  { induction sched as [|a r IH]; intros s H; simpl; [exact H|].
    apply IH, current_job_ok_step, H. }
  apply G. reflexivity.
Qed.

(** X3: Nothing sets [_running] to false: in every reachable state it is
    true and the worker has not left its loop by the [while] test. *)
Theorem worker_loop_never_exits :
  forall (P : Pil.Pillow) (w h : Z) (t0 : Q) (sched : list App.Action),
    let s := App.run P (App.init w h t0) sched in
    App._running s = true /\ App.worker s <> App.WExited.
Proof.
  intros P w h t0 sched.
  assert (G : forall s, App._running s = true /\ App.worker s <> App.WExited ->
                        App._running (App.run P s sched) = true
                        /\ App.worker (App.run P s sched) <> App.WExited).
  { induction sched as [|a r IH]; intros s H; simpl; [exact H|].
    apply IH, running_step, H. }
  apply G. split; [reflexivity | discriminate].
Qed.



(* ================================================================== *)
(** ** Jobs without a loop; leaving a loop *)

Section Lifecycle.

Import App.
Variable P : Pil.Pillow.

Lemma run_app sched1 sched2 : forall s,
  run P s (sched1 ++ sched2) = run P (run P s sched1) sched2.
Proof. induction sched1 as [|a r IH]; intros s; simpl; auto. Qed.

Lemma dispatch_quick s job :
  faulty s = false -> quick job = true ->
  exists t, in_try (dispatch P job) s =
            set_worker (with_world s t (quick_effects job)) (WFinally None).
Proof.
  intros Hf Hq. unfold quick in Hq. unfold in_try, dispatch, quick_effects.
  destruct (type job); try discriminate;
    unfold bind, matrix_Clear, time_sleep, ret; rewrite ?Hf; simpl;
    eexists; unfold set_worker, with_world, add_effect, set_now; simpl;
    rewrite <- ?app_assoc; reflexivity.
Qed.

(** A Clear or Noop job takes five steps of the worker, from [get()]
    back to [get()]. *)
Lemma quick_job_cycle s job rest :
  worker s = WIdle -> _running s = true -> faulty s = false ->
  _job_q s = job :: rest -> quick job = true ->
  let s' := run P s (repeat WorkerStep 5) in
  worker s' = WIdle /\ _running s' = true /\ faulty s' = false
  /\ _job_q s' = rest /\ popped s' = (popped s ++ [job])%list
  /\ effects s' = (effects s ++ quick_effects job)%list
  /\ _current_job s' = None /\ _cancel_evt s' = false.
Proof.
  intros Hw Hr Hf Hq Hk. simpl.
  rewrite (worker_step_pop P s job rest Hw Hr Hq).
  set (s1 := set_worker _ (WPopped job)).
  rewrite (worker_step_clear P s1 job eq_refl).
  set (s2 := set_worker _ (WCleared job)).
  rewrite (worker_step_publish P s2 job eq_refl).
  set (s3 := set_worker _ (WDispatch job)).
  rewrite (worker_step_dispatch P s3 job eq_refl).
  destruct (dispatch_quick s3 job Hf Hk) as [t E]. rewrite E.
  set (s4 := set_worker _ (WFinally None)).
  rewrite (worker_step_finally P s4 None eq_refl).
  simpl. repeat split; assumption.
Qed.

Lemma quick_jobs_drain jobs : forall s rest,
  worker s = WIdle -> _running s = true -> faulty s = false ->
  _job_q s = (jobs ++ rest)%list -> forallb quick jobs = true ->
  let s' := run P s (repeat WorkerStep (5 * List.length jobs)) in
  worker s' = WIdle /\ _job_q s' = rest
  /\ popped s' = (popped s ++ jobs)%list
  /\ effects s' = (effects s ++ flat_map quick_effects jobs)%list.
Proof.
  induction jobs as [|job r IH]; intros s rest Hw Hr Hf Hq Hk.
  - simpl. rewrite !app_nil_r. auto.
  - simpl in Hk. apply andb_prop in Hk as [Hk1 Hk2].
    replace (5 * List.length (job :: r))%nat
      with (5 + 5 * List.length r)%nat by (simpl; lia).
    rewrite repeat_app, run_app.
    destruct (quick_job_cycle s job (r ++ rest) Hw Hr Hf Hq Hk1)
      as [C1 [C2 [C3 [C4 [C5 [C6 _]]]]]].
    destruct (IH _ rest C1 C2 C3 C4 Hk2) as [I1 [I2 [I3 I4]]].
    cbv zeta. rewrite I1, I2, I3, I4, C5, C6. simpl.
    rewrite <- !app_assoc. auto.
Qed.




End Lifecycle.

(** X5: The worker works off a run of Clear and Noop jobs in five steps
    each, in the order of the queue: each Clear blanks the matrix and
    sleeps 50 ms, each Noop sleeps 10 ms, whatever their durations and
    whether or not a stop was requested before. *)
Theorem worker_drains_quick_jobs :
  forall (P : Pil.Pillow) (s : App.DisplayManager) (jobs rest : list App.Job),
    App.worker s = App.WIdle -> App._running s = true ->
    App.faulty s = false ->
    App._job_q s = (jobs ++ rest)%list -> forallb App.quick jobs = true ->
    let s' := App.run P s (repeat App.WorkerStep (5 * List.length jobs)) in
    App.worker s' = App.WIdle /\ App._job_q s' = rest
    /\ App.popped s' = (App.popped s ++ jobs)%list
    /\ App.effects s' =
       (App.effects s ++ flat_map App.quick_effects jobs)%list.
Proof. intros P s jobs rest. apply quick_jobs_drain. Qed.

Lemma worker_drains_quick_jobs_witness :
  let s := App.run Demo.pillow Demo.dm0
             [App.PostStop; App.PostClear;
              App.CallEnqueue (App.mkJob App.NOOP (Some 3%Q) 0 None None
                                         None None None);
              App.PostClear] in
  App.effects (App.run Demo.pillow s (repeat App.WorkerStep 15))
  = [App.Clear; App.Sleep (5 # 100); App.Sleep (1 # 100);
     App.Clear; App.Sleep (5 # 100)].
Proof.
  intros s.
  destruct (worker_drains_quick_jobs Demo.pillow s (App._job_q s) []
              eq_refl eq_refl eq_refl (eq_sym (app_nil_r _)) eq_refl)
    as [_ [_ [_ E]]].
  exact E.
Defined.



(* ================================================================== *)
(** ** A still image with a duration; a stop during a loop *)

Section Expiry.

Import App.
Variable P : Pil.Pillow.

Lemma image_expires n : forall s d st,
  worker s = WImageHold (Some d) st ->
  (d <= now s - st + inject_Z (Z.of_nat n) * (5 # 100))%Q ->
  exists k, (k <= n)%nat
    /\ worker (run P s (repeat WorkerStep (S k))) = WFinally None
    /\ effects (run P s (repeat WorkerStep (S k)))
       = (effects s ++ repeat (Sleep (5 # 100)) k)%list.
Proof.
  induction n as [|n IH]; intros s d st Hw Hd.
  - exists O. split; [lia|]. simpl.
    assert (Hex : exit_condition s (Some d) st = true).
    { unfold exit_condition. apply orb_true_intro. right.
      apply Qle_bool_iff.
      change (inject_Z (Z.of_nat 0)) with 0%Q in Hd. lra. }
    pose proof (loop_exit P s) as L. rewrite Hw in L.
    rewrite (L Hex). simpl. rewrite app_nil_r. auto.
  - destruct (exit_condition s (Some d) st) eqn:Hex.
    + exists O. split; [lia|]. simpl.
      pose proof (loop_exit P s) as L. rewrite Hw in L.
      rewrite (L Hex). simpl. rewrite app_nil_r. auto.
    + pose proof (image_poll P s (Some d) st Hw Hex) as E.
      set (s1 := set_worker
                   (with_world s (now s + (5 # 100))%Q [Sleep (5 # 100)])
                   (WImageHold (Some d) st)) in *.
      destruct (IH s1 d st eq_refl) as [k [Hk [R1 R2]]].
      { assert (Hle : Qle_bool d (now s - st)%Q = false).
        { unfold exit_condition in Hex. apply orb_false_elim in Hex.
          apply Hex. }
        rewrite Nat2Z.inj_succ, <- Z.add_1_r, inject_Z_plus in Hd.
        change (inject_Z 1) with 1%Q in Hd.
        change (now s1) with (now s + (5 # 100))%Q. lra. }
      exists (S k). split; [lia|].
      change (repeat WorkerStep (S (S k)))
        with (WorkerStep :: repeat WorkerStep (S k)).
      cbn [run step snd]. rewrite E, R1, R2. simpl.
      rewrite <- app_assoc. auto.
Qed.

(** A stop reaches a routine at the next test of its loop. *)
Lemma stopped_loop_exits s d st :
  loop_of (worker s) = Some (d, st) -> _cancel_evt s = true ->
  worker_step P s = set_worker s (WFinally None).
Proof.
  intros Hl Hc. pose proof (loop_exit P s) as L.
  destruct (worker s); try discriminate; injection Hl as -> ->;
    apply L; unfold exit_condition; rewrite Hc; reflexivity.
Qed.

End Expiry.

(** X7: A still image with duration [d] is taken down: when the worker runs
    alone, each test that finds time left is followed by a sleep of
    50 ms, and the routine returns at the latest at the test after [n]
    sleeps if [n] sleeps suffice to use up [d]; no frame is written
    meanwhile. *)
Theorem still_image_expires :
  forall (P : Pil.Pillow) (n : nat) (s : App.DisplayManager) (d st : Q),
    App.worker s = App.WImageHold (Some d) st ->
    (d <= App.now s - st + inject_Z (Z.of_nat n) * (5 # 100))%Q ->
    exists k, (k <= n)%nat
      /\ App.worker (App.run P s (repeat App.WorkerStep (S k)))
         = App.WFinally None
      /\ App.effects (App.run P s (repeat App.WorkerStep (S k)))
         = (App.effects s ++ repeat (App.Sleep (5 # 100)) k)%list.
Proof. intros P n s d st. apply image_expires. Qed.

Lemma still_image_expires_witness :
  let s := App.run Demo.pillow Demo.dm0
             (App.CallEnqueue (Demo.still_job (Some (12 # 100)%Q))
              :: repeat App.WorkerStep 4) in
  exists k, (k <= 3)%nat
    /\ App.worker (App.run Demo.pillow s (repeat App.WorkerStep (S k)))
       = App.WFinally None
    /\ App.effects (App.run Demo.pillow s (repeat App.WorkerStep (S k)))
       = (App.effects s ++ repeat (App.Sleep (5 # 100)) k)%list.
Proof.
  intros s.
  apply (still_image_expires Demo.pillow 3 s (12 # 100)%Q 0).
  - reflexivity.
  - vm_compute. discriminate.
Defined.

(** X8: A stop during a loop ends the job at the next test, without a
    further write; the worker then clears the current job, pops the next
    job of the queue and clears the event: the stop does not reach the
    jobs that wait. *)
Theorem stop_ends_current_job_only :
  forall (P : Pil.Pillow) (s : App.DisplayManager) (d : option Q) (st : Q)
         (next : App.Job) (rest : list App.Job),
    App.loop_of (App.worker s) = Some (d, st) ->
    App._running s = true -> App._job_q s = next :: rest ->
    let s1 := App.run P s [App.PostStop; App.WorkerStep] in
    let s4 := App.run P s1 (repeat App.WorkerStep 3) in
    (App.worker s1 = App.WFinally None /\ App.effects s1 = App.effects s)
    /\ (App.worker s4 = App.WCleared next
        /\ App._cancel_evt s4 = false
        /\ App._current_job s4 = None
        /\ App.popped s4 = (App.popped s ++ [next])%list
        /\ App._job_q s4 = rest
        /\ App.effects s4 = App.effects s).
Proof.
  intros P s d st next rest Hl Hr Hq s1 s4.
  assert (E1 : s1 = App.set_worker (App.stop_current s) (App.WFinally None)).
  { unfold s1. cbn [App.run App.step snd App.post_stop_current].
    apply (stopped_loop_exits P (App.stop_current s) d st); [exact Hl|].
    reflexivity. }
  split; [rewrite E1; split; reflexivity|].
  unfold s4. rewrite E1. cbn [App.run App.step snd repeat].
  set (s1' := App.set_worker (App.stop_current s) (App.WFinally None)).
  rewrite (worker_step_finally P s1' None eq_refl).
  set (s2 := App.set_worker _ App.WIdle).
  rewrite (worker_step_pop P s2 next rest eq_refl Hr Hq).
  set (s3 := App.set_worker _ (App.WPopped next)).
  rewrite (worker_step_clear P s3 next eq_refl).
  simpl. repeat split.
Qed.

Lemma stop_ends_current_job_only_witness :
  let s := App.run Demo.pillow Demo.dm0
             ([App.CallEnqueue (Demo.gif_job None); App.PostClear]
              ++ repeat App.WorkerStep 6) in
  let s4 := App.run Demo.pillow
              (App.run Demo.pillow s [App.PostStop; App.WorkerStep])
              (repeat App.WorkerStep 3) in
  App.frames_written (App.effects s) = [Demo.red; Demo.green]
  /\ App.effects s4 = App.effects s
  /\ App.worker s4 = App.WCleared (App.set_id (App.Job_ App.CLEAR) 2)
  /\ App._cancel_evt s4 = false.
Proof.
  intros s s4. split; [vm_compute; reflexivity|].
  destruct (proj2 (stop_ends_current_job_only Demo.pillow s None 0
                     (App.set_id (App.Job_ App.CLEAR) 2) []
                     ltac:(vm_compute; reflexivity)
                     ltac:(vm_compute; reflexivity)
                     ltac:(vm_compute; reflexivity)))
    as [H1 [H2 [_ [_ [_ H6]]]]].
  split; [exact H6|]. split; [exact H1 | exact H2].
Defined.

(* ================================================================== *)
(** ** The image endpoint of [app.py] *)

Section ShowImage.

Import App.

Lemma frame_delay_floor fr : (1 # 100 <= frame_delay fr)%Q.
Proof. unfold frame_delay. apply max_lower_bound. Qed.

Lemma frame_delays_floor items :
  Forall (fun x => (1 # 100 <= x)%Q) (map frame_delay items).
Proof.
  induction items as [|fr r IH]; simpl; constructor;
    [apply frame_delay_floor | exact IH].
Qed.

Lemma nth_error_repeat_some {A} (x : A) n k :
  (k < n)%nat -> nth_error (repeat x n) k = Some x.
Proof.
  revert k. induction n as [|n IH]; intros k Hk; [lia|].
  destruct k as [|k]; simpl; [reflexivity|]. apply IH. lia.
Qed.

End ShowImage.

(** X9: The job [show_image] builds from an opened image can always be
    shown: it carries either frames or a still image, never both and
    never neither, so the worker does not take its "missing content"
    branch; it has one delay per frame, none below 10 ms. *)
Theorem image_job_well_formed :
  forall (P : Pil.Pillow) (d : option Q) (img : Pil.Image)
         (animated : option (list (Pil.Image * option Q)))
         (s : App.DisplayManager),
    let job := App.image_job d (img, animated) in
    App.type job = App.IMAGE /\ App.duration job = d
    /\ App.image job =
       (if Py.opt_truthy (App.gif_frames job) then None else Some img)
    /\ option_map (@List.length Q) (App.frame_delays job)
       = option_map (@List.length Pil.Image) (App.gif_frames job)
    /\ match App.frame_delays job with
       | Some delays => Forall (fun x => (1 # 100 <= x)%Q) delays
       | None => True
       end
    /\ fst (App.dispatch P job s) <> Py.Ok (App.WFinally None).
Proof.
  intros P d img animated s job. unfold job, App.image_job.
  destruct animated as [items|]; simpl.
  - repeat split.
    + rewrite !length_map. reflexivity.
    + apply frame_delays_floor.
    + unfold App.dispatch. simpl.
      destruct items as [|fr r]; simpl.
      * unfold App._display_image, App.bind, App.time_time, App.matrix_size,
          App.matrix_SetImage, App.ret.
        destruct (App.faulty s); simpl; discriminate.
      * discriminate.
  - repeat split. unfold App.dispatch. simpl.
    unfold App._display_image, App.bind, App.time_time, App.matrix_size,
      App.matrix_SetImage, App.ret.
    destruct (App.faulty s); simpl; discriminate.
Qed.

(** X10: [show_image] answers 400 and leaves the manager untouched when the
    fetch fails, when the status is not 200 and when [Image.open] refuses
    the bytes, the detail naming the cause.  When the image opens but
    its decoding raises, the exception is caught by nothing: it leaves
    the endpoint (status 500) and nothing is enqueued.  Otherwise the
    job built from the image is enqueued and the answer carries its id
    and whether it is animated. *)
Theorem show_image_errors :
  forall (d : option Q) (s : App.DisplayManager),
    (forall msg,
       App.show_image d (App.FetchFailed msg) s =
         (App.HTTPException 400 ("Failed to fetch URL: " ++ msg), s))
    /\ (forall code opening,
          code <> 200 ->
          App.show_image d (App.Got code opening) s =
            (App.HTTPException 400
               ("HTTP " ++ Py.str_of_int code ++ " fetching image"), s))
    /\ (forall msg,
          App.show_image d (App.Got 200 (App.OpenFailed msg)) s =
            (App.HTTPException 400 ("Not a valid image: " ++ msg), s))
    /\ (forall e,
          App.show_image d (App.Got 200 (App.DecodeFailed e)) s =
            (App.Unhandled e, s))
    /\ (forall o,
          App.show_image d (App.Got 200 (App.Decoded o)) s =
            (App.RImage (App._next_id s)
               (Py.opt_truthy (App.gif_frames (App.image_job d o))),
             App.set_job_q (App.set_next_id s (App._next_id s + 1))
               (App._job_q s
                ++ [App.set_id (App.image_job d o) (App._next_id s)])))
    /\ (forall fetched,
          (forall o, fetched <> App.Got 200 (App.Decoded o)) ->
          snd (App.show_image d fetched s) = s).
Proof.
  intros d s.
  split; [reflexivity|].
  split.
  { intros code opening Hc. unfold App.show_image.
    destruct (code =? 200) eqn:E; [apply Z.eqb_eq in E; congruence|].
    reflexivity. }
  split; [reflexivity|].
  split; [reflexivity|].
  split; [reflexivity|].
  intros fetched Hn. unfold App.show_image.
  destruct fetched as [msg|code [msg|e|o]]; try reflexivity;
    destruct (code =? 200) eqn:E; try reflexivity.
  apply Z.eqb_eq in E. subst code. destruct (Hn o). reflexivity.
Qed.

Lemma show_image_errors_witness :
  App.show_image (Some 10%Q) (App.Got 404 (App.Decoded (Demo.red, None)))
                 Demo.dm0
  = (App.HTTPException 400 "HTTP 404 fetching image", Demo.dm0)
  /\ snd (App.show_image (Some 10%Q)
            (App.Got 200 (App.DecodeFailed Py.OSError)) Demo.dm0)
     = Demo.dm0.
Proof.
  split.
  - apply (proj1 (proj2 (show_image_errors (Some 10%Q) Demo.dm0))).
    discriminate.
  - apply (proj2 (proj2 (proj2 (proj2 (proj2
             (show_image_errors (Some 10%Q) Demo.dm0)))))).
    intros o. discriminate.
Defined.

(** X11: An IMAGE job with frames and no delays (or an empty list of delays)
    is played with 70 ms per frame: the dispatch enters the loop with a
    list of delays of 0.07 s, one per frame, and each pass of the worker
    through the loop writes its frame and then sleeps 0.07 s. *)
Theorem gif_default_delays :
  forall (P : Pil.Pillow) (s : App.DisplayManager) (job : App.Job)
         (f : Pil.Image) (fs : list Pil.Image),
    App.worker s = App.WDispatch job -> App.type job = App.IMAGE ->
    App.gif_frames job = Some (f :: fs) ->
    Py.opt_truthy (App.frame_delays job) = false ->
    let frames := f :: fs in
    let delays := repeat (7 # 100)%Q (List.length frames) in
    let w := App.matrix_width (App.matrix s) in
    let h := App.matrix_height (App.matrix s) in
    App.worker_step P s =
      App.set_worker s
        (App.WGifLoop frames delays (App.duration job) w h (App.now s) 0)
    /\ forall (s' : App.DisplayManager) (k : nat) (fr : Pil.Image),
         App.worker s' =
           App.WGifLoop frames delays (App.duration job) w h (App.now s)
                        (Z.of_nat k) ->
         App.exit_condition s' (App.duration job) (App.now s) = false ->
         App.faulty s' = false ->
         nth_error frames k = Some fr ->
         App.worker_step P s' =
           App.set_worker
             (App.with_world s' (App.now s' + (7 # 100))%Q
                [App.SetImage (Pil.fit P fr (w, h) Pil.NEAREST);
                 App.Sleep (7 # 100)])
             (App.WGifLoop frames delays (App.duration job) w h (App.now s)
                ((Z.of_nat k + 1) mod Z.of_nat (List.length frames))).
Proof.
  intros P s job f fs Hw Ht Hg Hd frames delays w h. split.
  - rewrite (worker_step_dispatch P s job Hw). unfold App.in_try.
    rewrite (dispatch_image_gif P s job f fs Ht Hg), Hd. reflexivity.
  - intros s' k fr Hw' Hk Hf Hfr.
    assert (Hdl : nth_error delays k = Some (7 # 100)%Q).
    { unfold delays. rewrite nth_error_repeat_some; [reflexivity|].
      apply nth_error_Some. congruence. }
    rewrite (gif_iteration P s' frames delays (App.duration job) w h
               (App.now s) (Z.of_nat k) fr (7 # 100)%Q Hw' Hk Hf).
    + reflexivity.
    + apply getitem_nth; [lia | rewrite Nat2Z.id; exact Hfr].
    + apply getitem_nth; [lia | rewrite Nat2Z.id; exact Hdl].
    + discriminate.
Qed.

Lemma gif_default_delays_witness :
  let job := App.mkJob App.IMAGE None 0 None (Some [Demo.red; Demo.green])
               (Some []) None None in
  let s := App.run Demo.pillow Demo.dm0
             (App.CallEnqueue job :: repeat App.WorkerStep 3) in
  let s' := App.worker_step Demo.pillow (App.worker_step Demo.pillow s) in
  App.effects s' = [App.SetImage Demo.red; App.Sleep (7 # 100)]
  /\ App.effects (App.worker_step Demo.pillow s')
     = [App.SetImage Demo.red; App.Sleep (7 # 100);
        App.SetImage Demo.green; App.Sleep (7 # 100)].
Proof.
  intros job s s'.
  pose proof (proj2 (gif_default_delays Demo.pillow s (App.set_id job 1)
                       Demo.red [Demo.green] eq_refl eq_refl eq_refl eq_refl)
                s' 1%nat Demo.green
                ltac:(vm_compute; reflexivity) ltac:(vm_compute; reflexivity)
                ltac:(vm_compute; reflexivity) eq_refl) as E.
  split; [vm_compute; reflexivity|].
  rewrite E. vm_compute. reflexivity.
Defined.

(* ================================================================== *)
(** ** The request handler and the threads of [pi_server.py] *)

Section PiFacts.

Import PiServer.
Variable W : World.

Lemma nth_error_update_same {A} (l : list A) n a b :
  nth_error l n = Some b -> nth_error (update l n a) n = Some a.
Proof.
  revert n. induction l as [|c r IH]; intros [|n] H; simpl in *;
    try discriminate; [reflexivity | apply IH, H].
Qed.

Lemma nth_error_update_other {A} (l : list A) n m a :
  m <> n -> nth_error (update l n a) m = nth_error l m.
Proof.
  revert n m. induction l as [|c r IH]; intros [|n] [|m] H; simpl;
    try reflexivity; try congruence.
  apply IH. congruence.
Qed.

(** A thread whose loop test finds the event set ends there. *)
Lemma stopped_thread s n pc d st :
  nth_error (threads s) n = Some pc -> loop_of pc = Some (d, st) ->
  stop_event s = true ->
  thread_step W n s = set_threads s (update (threads s) n TFinally).
Proof.
  intros Hn Hl Hs. unfold thread_step. rewrite Hn.
  destruct pc; try discriminate; simpl;
    unfold bind, loop_test; rewrite Hs; reflexivity.
Qed.

(** A thread whose loop test cannot compare the duration raises. *)
Lemma bad_duration_thread s n pc d st e :
  nth_error (threads s) n = Some pc -> loop_of pc = Some (d, st) ->
  stop_event s = false -> as_number d = Py.Raise e ->
  thread_step W n s =
    set_threads (add_stdout s "Error") (update (threads s) n TFinally).
Proof.
  intros Hn Hl Hs Hd. unfold thread_step. rewrite Hn.
  destruct pc; try discriminate; injection Hl as -> ->; simpl;
    unfold bind, loop_test; rewrite Hs, Hd; reflexivity.
Qed.

Lemma finally_thread s n :
  nth_error (threads s) n = Some TFinally ->
  thread_step W n s =
    set_threads (set_current_job s None) (update (threads s) n TDone).
Proof. intros Hn. unfold thread_step. rewrite Hn. reflexivity. Qed.

Lemma pi_gif_tick n s frames delays d dq st idx fr dl :
  nth_error (threads s) n = Some (TGifLoop frames delays d st idx) ->
  stop_event s = false -> as_number d = Py.Ok dq ->
  Py.ltb (now s - st)%Q dq = true ->
  0 <= idx -> nth_error frames (Z.to_nat idx) = Some fr ->
  nth_error delays (Z.to_nat idx) = Some dl ->
  thread_step W n s =
    mkMH (sink s ++ [(Spawned n,
                      SetImage (Pil.fit (pillow W) fr (64, 64) Pil.LANCZOS))])
         (stop_event s) (current_job s)
         (update (threads s) n
            (TGifLoop frames delays d st
               ((idx + 1) mod Z.of_nat (List.length frames))))
         (now s + dl)%Q (stdout s).
Proof.
  intros Hn Hs Hd Hlt Hi Hfr Hdl. unfold thread_step. rewrite Hn.
  unfold thread_body.
  unfold bind, loop_test, lift, matrix_SetImage, time_sleep, ret, Py.mod_.
  rewrite Hs, Hd, Hlt.
  rewrite (getitem_nth frames idx fr Hi Hfr).
  rewrite (getitem_nth delays idx dl Hi Hdl).
  destruct (Z.of_nat (List.length frames) =? 0) eqn:E.
  - apply Z.eqb_eq in E. destruct frames; [|simpl in E; lia].
    destruct (Z.to_nat idx); discriminate.
  - unfold set_threads, set_now, add_sink. simpl. rewrite ?Hs. reflexivity.
Qed.

End PiFacts.

(** X16: [do_GET] never changes the handler.  [do_POST] raises before it
    looks at the path when the header [Content-Length] is missing or is
    no integer: no response is sent and nothing changes.  Otherwise it
    answers 404, and changes nothing, for the paths that are not one of
    its five endpoints; it answers 200 on [/matrix/clear] and
    [/matrix/stop] whatever the body; on the three endpoints that read
    the body it answers 200 - also when it refuses the request - when
    the body is a JSON object or is not JSON at all, and raises
    [AttributeError], sending no response and changing nothing, when the
    body is JSON of another kind (a list, a string, a number, [null]). *)
Theorem pi_server_status_codes :
  forall (path : string) (req : PiServer.Request)
         (s : PiServer.MatrixHandler),
    snd (PiServer.do_GET path s) = s
    /\ (PiServer.content_length req = PiServer.Missing ->
        PiServer.do_POST path req s = (Py.Raise Py.TypeError, s))
    /\ (PiServer.content_length req = PiServer.Malformed ->
        PiServer.do_POST path req s = (Py.Raise Py.ValueError, s))
    /\ (PiServer.content_length req = PiServer.Given ->
        (~ In path PiServer.post_paths ->
         PiServer.do_POST path req s
         = (Py.Ok (PiServer.mkResp 404 PiServer.BNone), s))
        /\ (path = "/matrix/clear"%string \/ path = "/matrix/stop"%string ->
            exists b,
              fst (PiServer.do_POST path req s)
              = Py.Ok (PiServer.mkResp 200 b))
        /\ (In path PiServer.show_paths ->
            (forall data,
               PiServer.data_of (PiServer.payload req) = PiServer.JObj data ->
               exists b,
                 fst (PiServer.do_POST path req s)
                 = Py.Ok (PiServer.mkResp 200 b))
            /\ ((forall data,
                   PiServer.data_of (PiServer.payload req)
                   <> PiServer.JObj data) ->
                PiServer.do_POST path req s
                = (Py.Raise Py.AttributeError, s)))).
Proof.
  intros path req s. split; [|split; [|split]].
  - unfold PiServer.do_GET. destruct (String.eqb path _); reflexivity.
  - intros H. unfold PiServer.do_POST. rewrite H. reflexivity.
  - intros H. unfold PiServer.do_POST. rewrite H. reflexivity.
  - intros H. unfold PiServer.do_POST. rewrite H. split; [|split].
    + intros Hn. unfold PiServer.post_paths in Hn. simpl in Hn.
      destruct (String.eqb path "/matrix/show/image") eqn:E1;
        [apply String.eqb_eq in E1; exfalso; apply Hn; rewrite E1; auto 10|].
      destruct (String.eqb path "/matrix/show/text") eqn:E2;
        [apply String.eqb_eq in E2; exfalso; apply Hn; rewrite E2; auto 10|].
      destruct (String.eqb path "/matrix/show/weather") eqn:E3;
        [apply String.eqb_eq in E3; exfalso; apply Hn; rewrite E3; auto 10|].
      destruct (String.eqb path "/matrix/clear") eqn:E4;
        [apply String.eqb_eq in E4; exfalso; apply Hn; rewrite E4; auto 10|].
      destruct (String.eqb path "/matrix/stop") eqn:E5;
        [apply String.eqb_eq in E5; exfalso; apply Hn; rewrite E5; auto 10|].
      reflexivity.
    + intros [-> | ->]; eexists; reflexivity.
    + intros Hp. split.
      * intros data Hd. rewrite Hd.
        destruct Hp as [<- | [<- | [<- | []]]]; simpl.
        -- destruct (PiServer.truthy _); eexists; reflexivity.
        -- destruct (PiServer.truthy _); eexists; reflexivity.
        -- eexists; reflexivity.
      * intros Hd.
        assert (E : PiServer.dict_of (PiServer.data_of (PiServer.payload req))
                    = Py.Raise Py.AttributeError).
        { destruct (PiServer.data_of (PiServer.payload req)) as [|b|x|t|l|m];
            try reflexivity.
          destruct (Hd m). reflexivity. }
        rewrite E.
        destruct Hp as [<- | [<- | [<- | []]]]; reflexivity.
Qed.

Lemma pi_server_status_codes_witness :
  PiServer.do_POST "/matrix/show"
    (PiServer.mkRequest PiServer.Given PiServer.NotJSON) Demo.mh0
  = (Py.Ok (PiServer.mkResp 404 PiServer.BNone), Demo.mh0)
  /\ PiServer.do_POST "/matrix/show/text"
       (PiServer.mkRequest PiServer.Given
          (PiServer.Parsed (PiServer.JArr [PiServer.JNum 1]))) Demo.mh0
     = (Py.Raise Py.AttributeError, Demo.mh0)
  /\ PiServer.do_POST "/matrix/clear"
       (PiServer.mkRequest PiServer.Missing PiServer.NotJSON) Demo.mh0
     = (Py.Raise Py.TypeError, Demo.mh0).
Proof.
  split; [|split].
  - apply (proj1 (proj2 (proj2 (proj2 (pi_server_status_codes "/matrix/show"
             (PiServer.mkRequest PiServer.Given PiServer.NotJSON) Demo.mh0)))
             eq_refl)).
    simpl. intros [H|[H|[H|[H|[H|[]]]]]]; discriminate.
  - apply (proj2 (proj2 (proj2 (proj2 (proj2 (pi_server_status_codes
             "/matrix/show/text"
             (PiServer.mkRequest PiServer.Given
                (PiServer.Parsed (PiServer.JArr [PiServer.JNum 1])))
             Demo.mh0))) eq_refl))).
    + simpl. auto.
    + intros data. discriminate.
  - apply (proj1 (proj2 (pi_server_status_codes "/matrix/clear"
             (PiServer.mkRequest PiServer.Missing PiServer.NotJSON)
             Demo.mh0))).
    reflexivity.
Defined.

(** X17: In [pi_server.py], for a request with a [Content-Length] whose
    body is a JSON object (or is not JSON, which counts as the empty
    object): a text (or a URL) that is missing, null, empty, zero or
    false is refused with [ok: false] and nothing is started; a weather
    request without keys shows the template "current" for ten seconds.
    A body that is JSON but not an object has no text either, and gets
    no answer at all: the handler raises [AttributeError]. *)
Theorem pi_server_refuses_falsy :
  forall (req : PiServer.Request) (data : PiServer.Dict)
         (s : PiServer.MatrixHandler),
    (forall key, PiServer.get data key = None ->
                 PiServer.truthy (PiServer.get_opt data key) = false)
    /\ (PiServer.content_length req = PiServer.Given ->
        PiServer.data_of (PiServer.payload req) = PiServer.JObj data ->
        (PiServer.truthy (PiServer.get_opt data "text") = false ->
         PiServer.do_POST "/matrix/show/text" req s
         = (Py.Ok (PiServer.mkResp 200 (PiServer.BError "Text required")),
            s))
        /\ (PiServer.truthy (PiServer.get_opt data "url") = false ->
            PiServer.do_POST "/matrix/show/image" req s
            = (Py.Ok (PiServer.mkResp 200 (PiServer.BError "URL required")),
               s))
        /\ (data = [] ->
            PiServer.do_POST "/matrix/show/weather" req s
            = (Py.Ok (PiServer.mkResp 200
                        (PiServer.BOk "Weather display started")),
               PiServer.show_weather (PiServer.JStr (Py.of_string "current"))
                                     (PiServer.JNum 10) s)))
    /\ (PiServer.content_length req = PiServer.Given ->
        (forall members,
           PiServer.data_of (PiServer.payload req)
           <> PiServer.JObj members) ->
        PiServer.do_POST "/matrix/show/text" req s
        = (Py.Raise Py.AttributeError, s)
        /\ PiServer.do_POST "/matrix/show/image" req s
           = (Py.Raise Py.AttributeError, s)).
Proof.
  intros req data s. split; [|split].
  - intros key H. unfold PiServer.get_opt, PiServer.get_default.
    rewrite H. reflexivity.
  - intros Hc Hd. unfold PiServer.do_POST. rewrite Hc, Hd. simpl.
    split; [|split].
    + intros H. rewrite H. reflexivity.
    + intros H. rewrite H. reflexivity.
    + intros ->. reflexivity.
  - intros Hc Hd. unfold PiServer.do_POST. rewrite Hc.
    assert (E : PiServer.dict_of (PiServer.data_of (PiServer.payload req))
                = Py.Raise Py.AttributeError).
    { destruct (PiServer.data_of (PiServer.payload req)) as [|b|x|t|l|m];
        try reflexivity.
      destruct (Hd m). reflexivity. }
    simpl. rewrite E. split; reflexivity.
Qed.

Lemma pi_server_refuses_falsy_witness :
  PiServer.do_POST "/matrix/show/text"
    (PiServer.json_object
       [("duration"%string, PiServer.JNum 3);
        ("text"%string, PiServer.JNum 0)])
    Demo.mh0
  = (Py.Ok (PiServer.mkResp 200 (PiServer.BError "Text required")),
     Demo.mh0)
  /\ PiServer.do_POST "/matrix/show/image"
       (PiServer.mkRequest PiServer.Given PiServer.NotJSON) Demo.mh0
     = (Py.Ok (PiServer.mkResp 200 (PiServer.BError "URL required")),
        Demo.mh0)
  /\ PiServer.do_POST "/matrix/show/text"
       (PiServer.mkRequest PiServer.Given (PiServer.Parsed PiServer.JNull))
       Demo.mh0
     = (Py.Raise Py.AttributeError, Demo.mh0).
Proof.
  split; [|split].
  - apply (proj1 (proj1 (proj2 (pi_server_refuses_falsy
             (PiServer.json_object
                [("duration"%string, PiServer.JNum 3);
                 ("text"%string, PiServer.JNum 0)])
             [("duration"%string, PiServer.JNum 3);
              ("text"%string, PiServer.JNum 0)] Demo.mh0)) eq_refl eq_refl)).
    reflexivity.
  - apply (proj1 (proj2 (proj1 (proj2 (pi_server_refuses_falsy
             (PiServer.mkRequest PiServer.Given PiServer.NotJSON)
             [] Demo.mh0)) eq_refl eq_refl))).
    reflexivity.
  - apply (proj1 (proj2 (proj2 (pi_server_refuses_falsy
             (PiServer.mkRequest PiServer.Given
                (PiServer.Parsed PiServer.JNull)) [] Demo.mh0))
             eq_refl ltac:(intros members; discriminate))).
Defined.

(** X18: A duration that is no number (null, a string, a list) makes the
    loop test of the thread raise at its first evaluation: a text is
    never shown, a still image is written once and left on the matrix; in
    both cases the thread prints the error, clears [current_job] and
    ends. *)
Theorem bad_duration_ends_thread :
  forall (W : PiServer.World) (s : PiServer.MatrixHandler) (n : nat)
         (duration : PiServer.JSON) (e : Py.Exn),
    PiServer.stop_event s = false ->
    PiServer.as_number duration = Py.Raise e ->
    let s3 := PiServer.run W s [PiServer.ThreadStep n; PiServer.ThreadStep n;
                                PiServer.ThreadStep n] in
    (forall t,
       nth_error (PiServer.threads s) n
       = Some (PiServer.TText (PiServer.JStr t) duration) ->
       PiServer.sink s3 = PiServer.sink s
       /\ PiServer.stdout s3 = (PiServer.stdout s ++ ["Error"%string])%list
       /\ PiServer.current_job s3 = None
       /\ nth_error (PiServer.threads s3) n = Some PiServer.TDone)
    /\ (forall u img,
          nth_error (PiServer.threads s) n
          = Some (PiServer.TImage (PiServer.JStr u) duration) ->
          PiServer.web W u = PiServer.Still img ->
          PiServer.sink s3 =
            (PiServer.sink s
             ++ [(PiServer.Spawned n,
                  PiServer.SetImage
                    (Pil.fit (PiServer.pillow W) img (64, 64) Pil.LANCZOS))])%list
          /\ PiServer.stdout s3 = (PiServer.stdout s ++ ["Error"%string])%list
          /\ PiServer.current_job s3 = None
          /\ nth_error (PiServer.threads s3) n = Some PiServer.TDone).
Proof.
  intros W s n duration e Hs Hd s3. split.
  - intros t Hn. unfold s3. cbn [PiServer.run PiServer.step snd].
    destruct (Pil.multiline t) eqn:Hml.
    { (* the text has a line break: [textlength] raises first *)
      assert (E1 : PiServer.thread_step W n s =
                   PiServer.set_threads (PiServer.add_stdout s "Error")
                     (PiServer.update (PiServer.threads s) n
                        PiServer.TFinally)).
      { unfold PiServer.thread_step. rewrite Hn.
        unfold PiServer.thread_body, PiServer.bind, PiServer.lift,
          Pil.draw_textlength. rewrite Hml. reflexivity. }
      rewrite E1. set (s1 := PiServer.set_threads _ _).
      rewrite (finally_thread W s1 n)
        by (apply (nth_error_update_same _ n _ _ Hn)).
      set (s2 := PiServer.set_threads _ _).
      assert (E3 : PiServer.thread_step W n s2 =
                   PiServer.set_threads s2
                     (PiServer.update (PiServer.threads s2) n PiServer.TDone)).
      { unfold PiServer.thread_step.
        assert (H2 : nth_error (PiServer.threads s2) n = Some PiServer.TDone)
          by (simpl; eapply nth_error_update_same, nth_error_update_same, Hn).
        rewrite H2. reflexivity. }
      rewrite E3. simpl. repeat split.
      eapply nth_error_update_same, nth_error_update_same,
        nth_error_update_same, Hn. }
    assert (E1 : PiServer.thread_step W n s =
                 PiServer.set_threads s
                   (PiServer.update (PiServer.threads s) n
                      (PiServer.TTextLoop
                         (Pil.draw_text (PiServer.pillow W)
                            (Pil.new 1000 64 Pil.black) (0, 20) t Pil.white)
                         (Pil.textlength (PiServer.pillow W) t) duration
                         (PiServer.now s) 0))).
    { unfold PiServer.thread_step. rewrite Hn.
      unfold PiServer.thread_body, PiServer.bind, PiServer.lift,
        Pil.draw_textlength. rewrite Hml. reflexivity. }
    rewrite E1. set (s1 := PiServer.set_threads s _).
    rewrite (bad_duration_thread W s1 n _ duration (PiServer.now s) e
               (nth_error_update_same _ n _ _ Hn) eq_refl Hs Hd).
    set (s2 := PiServer.set_threads _ _).
    rewrite (finally_thread W s2 n).
    + simpl. repeat split.
      eapply nth_error_update_same, nth_error_update_same,
        nth_error_update_same, Hn.
    + simpl. eapply nth_error_update_same, nth_error_update_same, Hn.
  - intros u img Hn Hweb. unfold s3. cbn [PiServer.run PiServer.step snd].
    assert (E1 : PiServer.thread_step W n s =
                 PiServer.set_threads
                   (PiServer.add_sink s (PiServer.Spawned n)
                      (PiServer.SetImage
                         (Pil.fit (PiServer.pillow W) img (64, 64)
                                  Pil.LANCZOS)))
                   (PiServer.update (PiServer.threads s) n
                      (PiServer.THold duration (PiServer.now s)))).
    { unfold PiServer.thread_step. rewrite Hn. simpl. rewrite Hweb.
      reflexivity. }
    rewrite E1. set (s1 := PiServer.set_threads _ _).
    rewrite (bad_duration_thread W s1 n _ duration (PiServer.now s) e
               (nth_error_update_same _ n _ _ Hn) eq_refl Hs Hd).
    set (s2 := PiServer.set_threads _ _).
    rewrite (finally_thread W s2 n).
    + simpl. repeat split.
      eapply nth_error_update_same, nth_error_update_same,
        nth_error_update_same, Hn.
    + simpl. eapply nth_error_update_same, nth_error_update_same, Hn.
Qed.

Lemma bad_duration_ends_thread_witness :
  let s := PiServer.run Demo.world Demo.mh0
             [PiServer.Post "/matrix/show/text"
                (PiServer.json_object
                   [("text"%string, PiServer.JStr Demo.hello);
                    ("duration"%string, PiServer.JNull)])] in
  let s3 := PiServer.run Demo.world s
              [PiServer.ThreadStep 0; PiServer.ThreadStep 0;
               PiServer.ThreadStep 0] in
  PiServer.sink s3 = [] /\ PiServer.stdout s3 = ["Error"%string]
  /\ PiServer.current_job s3 = None.
Proof.
  intros s s3.
  destruct (proj1 (bad_duration_ends_thread Demo.world s 0 PiServer.JNull
                     Py.TypeError eq_refl eq_refl) Demo.hello eq_refl)
    as [H1 [H2 [H3 _]]].
  split; [exact H1|]. split; [exact H2 | exact H3].
Defined.

(** X19: A stop ends every thread that is in a loop at its next test, with
    no write and no error, whatever its duration.  But the next show
    request clears the event again: a thread that has not yet made that
    test goes on writing beside the new one. *)
Theorem stop_then_show_revives_thread :
  forall (W : PiServer.World) (s : PiServer.MatrixHandler) (n : nat)
         (pc : PiServer.ThreadPC) (d : PiServer.JSON) (st : Q),
    nth_error (PiServer.threads s) n = Some pc ->
    PiServer.loop_of pc = Some (d, st) ->
    let stopped := PiServer.stop_current s in
    let ended := PiServer.thread_step W n stopped in
    (PiServer.sink ended = PiServer.sink s
     /\ PiServer.stdout ended = PiServer.stdout s
     /\ nth_error (PiServer.threads ended) n = Some PiServer.TFinally)
    /\ (forall text duration img text_w x dq frame,
          pc = PiServer.TTextLoop img text_w d st x ->
          PiServer.as_number d = Py.Ok dq ->
          Py.ltb (PiServer.now s - st)%Q dq = true ->
          Py.int text_w + 64 <> 0 ->
          App.scroll_frame img 64 64 ((x + 1) mod (Py.int text_w + 64))
            = Py.Ok frame ->
          let again := PiServer.show_text text duration stopped in
          PiServer.stop_event again = false
          /\ PiServer.sink (PiServer.thread_step W n again) =
             (PiServer.sink s
              ++ [(PiServer.Spawned n, PiServer.SetImage frame)])%list).
Proof.
  intros W s n pc d st Hn Hl stopped ended. split.
  - unfold ended.
    rewrite (stopped_thread W stopped n pc d st Hn Hl eq_refl). simpl.
    repeat split. eapply nth_error_update_same, Hn.
  - intros text duration img text_w x dq frame -> Hd Hlt Hm Hfr again.
    split; [reflexivity|].
    rewrite (pi_text_tick W n again img text_w d dq st x frame);
      try assumption; try reflexivity.
    unfold again, PiServer.show_text, PiServer.start_thread. simpl.
    rewrite nth_error_app1; [exact Hn|].
    apply nth_error_Some. congruence.
Qed.

Lemma stop_then_show_revives_thread_witness :
  let s := PiServer.run Demo.world Demo.mh0
             [Demo.post_text Demo.hello; PiServer.ThreadStep 0] in
  let ended := PiServer.thread_step Demo.world 0 (PiServer.stop_current s) in
  PiServer.sink ended = []
  /\ nth_error (PiServer.threads ended) 0 = Some PiServer.TFinally.
Proof.
  intros s ended.
  destruct (proj1 (stop_then_show_revives_thread Demo.world s 0 _
                     (PiServer.JNum 10) 0 eq_refl eq_refl))
    as [H1 [_ H3]].
  split; [exact H1 | exact H3].
Defined.

(** X20: A thread that ends clears [current_job] whatever the other threads
    do, and touches none of them: the status then says "idle" although a
    thread started later may still be writing. *)
Theorem ending_thread_clears_current_job :
  forall (W : PiServer.World) (s : PiServer.MatrixHandler) (n : nat),
    nth_error (PiServer.threads s) n = Some PiServer.TFinally ->
    let s' := PiServer.thread_step W n s in
    PiServer.current_job s' = None
    /\ fst (PiServer.do_GET "/matrix/status" s')
       = PiServer.mkResp 200 (PiServer.BStatus None "idle")
    /\ PiServer.sink s' = PiServer.sink s
    /\ nth_error (PiServer.threads s') n = Some PiServer.TDone
    /\ forall m, m <> n ->
         nth_error (PiServer.threads s') m = nth_error (PiServer.threads s) m.
Proof.
  intros W s n Hn s'. unfold s'. rewrite (finally_thread W s n Hn). simpl.
  repeat split.
  - eapply nth_error_update_same, Hn.
  - intros m Hm. apply nth_error_update_other, Hm.
Qed.

Lemma ending_thread_clears_current_job_witness :
  let s := PiServer.run Demo.world Demo.mh0
             [PiServer.Post "/matrix/show/text"
                (PiServer.json_object
                   [("text"%string, PiServer.JStr Demo.hello);
                    ("duration"%string, PiServer.JNull)]);
              Demo.post_text Demo.hello;
              PiServer.ThreadStep 0; PiServer.ThreadStep 0;
              PiServer.ThreadStep 1; PiServer.ThreadStep 1] in
  let s' := PiServer.thread_step Demo.world 0 s in
  PiServer.current_job s' = None /\ PiServer.alive s' 1 = true
  /\ PiServer.writers s' = [PiServer.Spawned 1].
Proof.
  intros s s'.
  destruct (ending_thread_clears_current_job Demo.world s 0 eq_refl)
    as [H1 [_ [H3 [_ H5]]]].
  split; [exact H1|]. split.
  - unfold PiServer.alive. fold s' in H5. rewrite (H5 1%nat); [reflexivity|].
    discriminate.
  - unfold PiServer.writers. fold s' in H3. rewrite H3. reflexivity.
Defined.

(** X21: A pass of the animation in a thread of [pi_server.py]: the frame at
    the index is resized to 64 by 64 and written, held for its delay,
    and the index moves on modulo the number of frames.  The delays are
    those of the frames, 70 ms where a frame has none, raised to 10 ms
    where they are shorter, one per frame. *)
Theorem pi_server_gif_pass :
  forall (W : PiServer.World) (s : PiServer.MatrixHandler) (n : nat),
    (forall u d img items,
       nth_error (PiServer.threads s) n
       = Some (PiServer.TImage (PiServer.JStr u) d) ->
       PiServer.web W u = PiServer.Animated img items ->
       PiServer.thread_step W n s =
         PiServer.set_threads s
           (PiServer.update (PiServer.threads s) n
              (PiServer.TGifLoop (map fst items) (map App.frame_delay items)
                                 d (PiServer.now s) 0))
       /\ List.length (map App.frame_delay items)
          = List.length (map fst items)
       /\ Forall (fun x => (1 # 100 <= x)%Q) (map App.frame_delay items))
    /\ (forall frames delays d dq st idx fr dl,
          nth_error (PiServer.threads s) n
          = Some (PiServer.TGifLoop frames delays d st idx) ->
          PiServer.stop_event s = false ->
          PiServer.as_number d = Py.Ok dq ->
          Py.ltb (PiServer.now s - st)%Q dq = true ->
          0 <= idx -> nth_error frames (Z.to_nat idx) = Some fr ->
          nth_error delays (Z.to_nat idx) = Some dl ->
          PiServer.thread_step W n s =
            PiServer.mkMH
              (PiServer.sink s
               ++ [(PiServer.Spawned n,
                    PiServer.SetImage
                      (Pil.fit (PiServer.pillow W) fr (64, 64) Pil.LANCZOS))])
              (PiServer.stop_event s) (PiServer.current_job s)
              (PiServer.update (PiServer.threads s) n
                 (PiServer.TGifLoop frames delays d st
                    ((idx + 1) mod Z.of_nat (List.length frames))))
              (PiServer.now s + dl)%Q (PiServer.stdout s)).
Proof.
  intros W s n. split.
  - intros u d img items Hn Hweb. split; [|split].
    + unfold PiServer.thread_step. rewrite Hn. simpl. rewrite Hweb.
      reflexivity.
    + rewrite !length_map. reflexivity.
    + apply frame_delays_floor.
  - intros frames delays d dq st idx fr dl. apply pi_gif_tick.
Qed.

Lemma pi_server_gif_pass_witness :
  let s := PiServer.run Demo.world Demo.mh0
             [Demo.post_image (Py.of_string "gif"); PiServer.ThreadStep 0] in
  PiServer.sink (PiServer.thread_step Demo.world 0 s)
  = [(PiServer.Spawned 0, PiServer.SetImage Demo.red)].
Proof.
  intros s.
  rewrite (proj2 (pi_server_gif_pass Demo.world s 0)
             [Demo.red; Demo.green] _ (PiServer.JNum 10) 10%Q 0%Q 0 Demo.red
             _ eq_refl eq_refl eq_refl eq_refl ltac:(lia) eq_refl eq_refl).
  reflexivity.
Defined.

(* ================================================================== *)
(** ** Fewer delays than frames; a stop before the publication *)

Section ShortDelays.

Import App.
Variable P : Pil.Pillow.

Lemma getitem_beyond {A} (l : list A) (i : Z) :
  Z.of_nat (List.length l) <= i -> Py.getitem l i = Py.Raise Py.IndexError.
Proof.
  intros H. unfold Py.getitem.
  destruct (i <? 0) eqn:E; [apply Z.ltb_lt in E; lia|].
  destruct (i <? Z.of_nat (List.length l)) eqn:E2;
    [apply Z.ltb_lt in E2; lia|].
  rewrite andb_false_r. reflexivity.
Qed.

(** While the index is below the number of delays the animation runs
    as usual. *)
Lemma gif_prefix frames delays w h st m : forall s i,
  worker s = WGifLoop frames delays None w h st (Z.of_nat i) ->
  _cancel_evt s = false -> faulty s = false ->
  (i + m <= List.length delays)%nat ->
  (List.length delays < List.length frames)%nat ->
  let s' := run P s (repeat WorkerStep m) in
  worker s' = WGifLoop frames delays None w h st (Z.of_nat (i + m))
  /\ _cancel_evt s' = false /\ faulty s' = false
  /\ _current_job s' = _current_job s
  /\ effects s' =
     (effects s ++ gif_effects P frames delays w h (Z.of_nat i) m)%list.
Proof.
  induction m as [|m IH]; intros s i Hw Hc Hf Him Hlen.
  - simpl. rewrite Nat.add_0_r, app_nil_r. auto.
  - destruct (nth_error frames i) as [fr|] eqn:Efr;
      [|apply nth_error_None in Efr; lia].
    destruct (nth_error delays i) as [dl|] eqn:Edl;
      [|apply nth_error_None in Edl; lia].
    assert (Hex : exit_condition s None st = false)
      by (unfold exit_condition; rewrite Hc; reflexivity).
    assert (Hne : frames <> []) by (intros ->; simpl in Hlen; lia).
    change (repeat WorkerStep (S m)) with (WorkerStep :: repeat WorkerStep m).
    cbn [run step snd].
    assert (Gfr : Py.getitem frames (Z.of_nat i) = Py.Ok fr)
      by (apply getitem_nth; [lia | rewrite Nat2Z.id; exact Efr]).
    assert (Gdl : Py.getitem delays (Z.of_nat i) = Py.Ok dl)
      by (apply getitem_nth; [lia | rewrite Nat2Z.id; exact Edl]).
    rewrite (gif_iteration P s frames delays None w h st (Z.of_nat i) fr dl
               Hw Hex Hf Gfr Gdl Hne).
    replace ((Z.of_nat i + 1) mod Z.of_nat (List.length frames))
      with (Z.of_nat (S i)) by (rewrite Z.mod_small; lia).
    set (s1 := set_worker _ _).
    destruct (IH s1 (S i) eq_refl Hc Hf ltac:(lia) Hlen)
      as [I1 [I2 [I3 [I4 I5]]]].
    rewrite I1, I2, I3, I4, I5.
    rewrite (gif_effects_succ P frames delays w h (Z.of_nat i) m) by lia.
    replace ((Z.of_nat i + 1) mod Z.of_nat (List.length frames))
      with (Z.of_nat (S i)) by (rewrite Z.mod_small; lia).
    unfold gif_pass. rewrite Nat2Z.id, Efr, Edl.
    replace (i + S m)%nat with (S i + m)%nat by lia.
    unfold s1. simpl. rewrite <- !app_assoc. auto.
Qed.

(** At the first index without a delay the frame is written, then
    [delays[i]] raises. *)
Lemma gif_missing_delay s frames delays d w h st i fr :
  worker s = WGifLoop frames delays d w h st i ->
  exit_condition s d st = false -> faulty s = false ->
  Py.getitem frames i = Py.Ok fr ->
  Z.of_nat (List.length delays) <= i ->
  worker_step P s =
    set_worker (add_effect s (SetImage (Pil.fit P fr (w, h) Pil.NEAREST)))
               (WFinally (Some Py.IndexError)).
Proof.
  intros Hw Hk Hf Hfr Hi. unfold worker_step.
  rewrite Hw, keep_going_exit, Hk. simpl negb. cbv iota.
  unfold _display_gif_body.
  unfold in_try, bind, lift, matrix_SetImage, time_sleep, ret.
  rewrite Hfr, Hf, (getitem_beyond delays i Hi). reflexivity.
Qed.

End ShortDelays.

(** X12: An animation with fewer delays than frames plays the frames that
    have a delay, writes the first frame that has none and then fails on
    [delays[i]]: [finally] clears the current job and the [IndexError]
    ends the worker thread. *)
Theorem gif_short_delays_raise :
  forall (P : Pil.Pillow) (s : App.DisplayManager)
         (frames : list Pil.Image) (delays : list Q) (w h : Z) (st : Q),
    App.worker s = App.WGifLoop frames delays None w h st 0 ->
    App._cancel_evt s = false -> App.faulty s = false ->
    (List.length delays < List.length frames)%nat ->
    let k := List.length delays in
    let s1 := App.run P s (repeat App.WorkerStep k) in
    let s2 := App.run P s1 [App.WorkerStep; App.WorkerStep] in
    App.effects s1 =
      (App.effects s ++ App.gif_effects P frames delays w h 0 k)%list
    /\ App.worker s1 = App.WGifLoop frames delays None w h st (Z.of_nat k)
    /\ (exists fr,
          nth_error frames k = Some fr
          /\ App.effects s2 =
             (App.effects s1
              ++ [App.SetImage (Pil.fit P fr (w, h) Pil.NEAREST)])%list)
    /\ App.worker s2 = App.WDead Py.IndexError
    /\ App._current_job s2 = None.
Proof.
  intros P s frames delays w h st Hw Hc Hf Hlen k s1 s2.
  destruct (gif_prefix P frames delays w h st k s 0%nat Hw Hc Hf
              ltac:(simpl; lia) Hlen) as [I1 [I2 [I3 [_ I5]]]].
  fold s1 in I1, I2, I3, I5. simpl in I1.
  destruct (nth_error frames k) as [fr|] eqn:Efr;
    [|apply nth_error_None in Efr; lia].
  assert (Hex : App.exit_condition s1 None st = false)
    by (unfold App.exit_condition; rewrite I2; reflexivity).
  assert (E2 : s2 = App.set_worker
                 (App.set_current_job
                    (App.add_effect s1
                       (App.SetImage (Pil.fit P fr (w, h) Pil.NEAREST)))
                    None)
                 (App.WDead Py.IndexError)).
  { assert (Gfr : Py.getitem frames (Z.of_nat k) = Py.Ok fr)
      by (apply getitem_nth; [lia | rewrite Nat2Z.id; exact Efr]).
    assert (Hk : Z.of_nat (List.length delays) <= Z.of_nat k)
      by (unfold k; lia).
    unfold s2. cbn [App.run App.step snd].
    rewrite (gif_missing_delay P s1 frames delays None w h st (Z.of_nat k) fr
               I1 Hex I3 Gfr Hk).
    set (s1' := App.set_worker _ _).
    rewrite (worker_step_finally P s1' (Some Py.IndexError) eq_refl).
    reflexivity. }
  split; [exact I5|]. split; [exact I1|].
  split; [exists fr; split; [reflexivity | rewrite E2; reflexivity]|].
  rewrite E2. split; reflexivity.
Qed.

Lemma gif_short_delays_raise_witness :
  let s := App.run Demo.pillow Demo.dm0
             (App.CallEnqueue
                (App.mkJob App.IMAGE None 0 None
                           (Some [Demo.red; Demo.green])
                           (Some [(1 # 10)%Q]) None None)
              :: repeat App.WorkerStep 4) in
  let s1 := App.run Demo.pillow s (repeat App.WorkerStep 1) in
  let s2 := App.run Demo.pillow s1 [App.WorkerStep; App.WorkerStep] in
  App.worker s2 = App.WDead Py.IndexError.
Proof.
  intros s s1 s2.
  destruct (gif_short_delays_raise Demo.pillow s [Demo.red; Demo.green]
              [(1 # 10)%Q] 64 64 0 eq_refl eq_refl eq_refl
              ltac:(simpl; lia)) as [_ [_ [_ [H _]]]].
  exact H.
Defined.

(** X13: A stop that arrives after the worker has cleared the event for an
    animation it has popped, and before it has published it, ends that
    animation at the first test of its loop: no frame of it is written,
    although no current job was visible when the stop was sent. *)
Theorem stop_before_publication_cancels_job :
  forall (P : Pil.Pillow) (s : App.DisplayManager) (job : App.Job)
         (f : Pil.Image) (fs : list Pil.Image),
    App.worker s = App.WCleared job -> App.type job = App.IMAGE ->
    App.gif_frames job = Some (f :: fs) ->
    let s' := App.run P s (App.PostStop :: repeat App.WorkerStep 3) in
    App.worker s' = App.WFinally None
    /\ App.effects s' = App.effects s
    /\ App._current_job s' = Some job
    /\ App.current_job_id (App.status (App.stop_current s))
       = App.current_job_id (App.status s).
Proof.
  intros P s job f fs Hw Ht Hg s'. unfold s'.
  cbn [App.run App.step snd repeat App.post_stop_current].
  set (s0 := App.stop_current s).
  rewrite (worker_step_publish P s0 job Hw).
  set (s1 := App.set_worker _ (App.WDispatch job)).
  rewrite (worker_step_dispatch P s1 job eq_refl). unfold App.in_try.
  rewrite (dispatch_image_gif P s1 job f fs Ht Hg).
  set (s2 := App.set_worker s1 _).
  rewrite (stopped_loop_exits P s2 (App.duration job) (App.now s1));
    repeat split.
Qed.

Lemma stop_before_publication_cancels_job_witness :
  let s := App.run Demo.pillow Demo.dm0
             [App.CallEnqueue (Demo.gif_job None); App.WorkerStep;
              App.WorkerStep] in
  let s' := App.run Demo.pillow s
              (App.PostStop :: repeat App.WorkerStep 3) in
  App.current_job_id (App.status s) = None
  /\ App.worker s' = App.WFinally None /\ App.effects s' = [].
Proof.
  intros s s'. split; [reflexivity|].
  destruct (stop_before_publication_cancels_job Demo.pillow s
              (App.set_id (Demo.gif_job None) 1) Demo.red
              [Demo.green; Demo.blue] eq_refl eq_refl eq_refl)
    as [H1 [H2 _]].
  split; [exact H1 | exact H2].
Defined.

(** X22: A text that is a non-zero number or [true] is accepted by
    [do_POST]; the thread started for it raises before it draws anything,
    prints the error, clears [current_job] and ends. *)
Theorem pi_server_non_string_text :
  forall (W : PiServer.World) (s : PiServer.MatrixHandler)
         (text duration : PiServer.JSON),
    PiServer.truthy text = true ->
    (exists x, text = PiServer.JNum x) \/ text = PiServer.JBool true ->
    let n := List.length (PiServer.threads s) in
    let data := [("text"%string, text); ("duration"%string, duration)] in
    let r := PiServer.do_POST "/matrix/show/text"
               (PiServer.json_object data) s in
    let s2 := PiServer.run W (snd r)
                [PiServer.ThreadStep n; PiServer.ThreadStep n] in
    fst r = Py.Ok (PiServer.mkResp 200 (PiServer.BOk "Text display started"))
    /\ PiServer.sink s2 = PiServer.sink s
    /\ PiServer.stdout s2 = (PiServer.stdout s ++ ["Error"%string])%list
    /\ PiServer.current_job s2 = None
    /\ nth_error (PiServer.threads s2) n = Some PiServer.TDone.
Proof.
  intros W s text duration Ht Hns n data r s2.
  assert (Er : r = (Py.Ok (PiServer.mkResp 200
                              (PiServer.BOk "Text display started")),
                    PiServer.show_text text duration s)).
  { unfold r, data, PiServer.do_POST. simpl.
    unfold PiServer.get_opt, PiServer.get_default. simpl. rewrite Ht.
    reflexivity. }
  assert (Hn : nth_error (PiServer.threads (PiServer.show_text text duration s))
                 n = Some (PiServer.TText text duration)).
  { unfold PiServer.show_text, PiServer.start_thread. simpl.
    rewrite nth_error_app2 by (unfold n; lia).
    unfold n. rewrite Nat.sub_diag. reflexivity. }
  unfold s2. rewrite Er. cbn [fst snd PiServer.run PiServer.step].
  set (s0 := PiServer.show_text text duration s) in *.
  assert (E1 : PiServer.thread_step W n s0 =
               PiServer.set_threads (PiServer.add_stdout s0 "Error")
                 (PiServer.update (PiServer.threads s0) n PiServer.TFinally)).
  { unfold PiServer.thread_step. rewrite Hn.
    destruct Hns as [[x ->] | ->]; reflexivity. }
  rewrite E1. set (s1 := PiServer.set_threads _ _).
  rewrite (finally_thread W s1 n).
  - simpl. repeat split.
    eapply nth_error_update_same, nth_error_update_same, Hn.
  - simpl. eapply nth_error_update_same, Hn.
Qed.

Lemma pi_server_non_string_text_witness :
  let r := PiServer.do_POST "/matrix/show/text"
             (PiServer.json_object
                [("text"%string, PiServer.JNum 5);
                 ("duration"%string, PiServer.JNum 3)]) Demo.mh0 in
  let s2 := PiServer.run Demo.world (snd r)
              [PiServer.ThreadStep 0; PiServer.ThreadStep 0] in
  fst r = Py.Ok (PiServer.mkResp 200 (PiServer.BOk "Text display started"))
  /\ PiServer.sink s2 = [] /\ PiServer.stdout s2 = ["Error"%string].
Proof.
  intros r s2.
  destruct (pi_server_non_string_text Demo.world Demo.mh0 (PiServer.JNum 5)
              (PiServer.JNum 3) eq_refl
              (or_introl (ex_intro _ 5%Q eq_refl)))
    as [H1 [H2 [H3 _]]].
  split; [exact H1|]. split; [exact H2 | exact H3].
Defined.

(* ================================================================== *)
(** ** A stop while no job is current *)

Section Reachable.

Import App.
Variable P : Pil.Pillow.





End Reachable.




(* ================================================================== *)
(** ** A job without duration never returns *)

Section NeverExpires.

Import App.
Variable P : Pil.Pillow.

(** A request that is not a stop leaves the event as it is. *)
Lemma no_stop_handler s a :
  a <> WorkerStep -> no_stop [a] = true ->
  _cancel_evt (snd (step P s a)) = _cancel_evt s.
Proof.
  destruct a as [ | | | d f | req | req | job | | dt | b ]; intros Ha Hn;
    simpl in *; try discriminate; try reflexivity.
  - unfold show_image. destruct f as [msg|code [msg|e|o]]; simpl;
      try destruct (negb (code =? 200)); reflexivity.
  - unfold show_text.
    destruct (negb (Py.truthy (Py.strip (st_text req)))); reflexivity.
  - congruence.
Qed.

(** The worker never sets the event. *)
Lemma worker_keeps_unset s :
  _cancel_evt s = false -> _cancel_evt (worker_step P s) = false.
Proof.
  intros Hc.
  destruct (worker_step_shape P s)
    as [[job [rest [_ [_ E]]]] | [[job [_ E]] | [[job [_ E]]
       | [[exn [_ [pc E]]] | [t [eff [pc E]]]]]]];
    rewrite E; simpl; auto.
Qed.

Lemma in_try_unexpired {A} (m : M A) (k : A -> Worker) s :
  (forall a, unexpired (k a)) ->
  unexpired (worker (in_try (bind m (fun a => ret (k a))) s)).
Proof.
  intros Hk. unfold in_try, bind, ret.
  destruct (m s) as [[a|e] s1]; simpl; [apply Hk | exact I].
Qed.

(** In a loop without duration, the event unset, a step of the worker
    leads to the same kind of loop or to the end by an exception. *)
Lemma unexpired_step s :
  unexpired (worker s) -> _cancel_evt s = false ->
  unexpired (worker (worker_step P s)).
Proof.
  intros Hu Hc. unfold worker_step.
  destruct (worker s)
    as [ | job | job | job | d st | fr dl d w h st i | img tw d w h st x
       | exn | e | ] eqn:Ew; try contradiction.
  - destruct d; [contradiction|]. unfold keep_going. rewrite Hc.
    cbv beta iota delta [negb andb].
    apply (in_try_unexpired _display_image_body
             (fun _ => WImageHold None st) s (fun _ => I)).
  - destruct d; [contradiction|]. unfold keep_going. rewrite Hc.
    cbv beta iota delta [negb andb].
    apply (in_try_unexpired (_display_gif_body P fr dl w h i)
             (fun i' => WGifLoop fr dl None w h st i') s (fun _ => I)).
  - destruct d; [contradiction|]. unfold keep_going. rewrite Hc.
    cbv beta iota delta [negb andb].
    apply (in_try_unexpired (_display_text_scroll_body img tw w h x)
             (fun x' => WTextLoop img tw None w h st x') s (fun _ => I)).
  - destruct exn; [exact I | contradiction].
  - rewrite Ew. exact I.
Qed.



End NeverExpires.



(* ================================================================== *)
(** ** The store of jobs *)

Section StoreFacts.

Import Calls.

Lemma lookup_nth_error objects r job :
  nth_error objects r = Some job -> lookup objects r = job.
Proof. intros H. unfold lookup. apply nth_error_nth. exact H. Qed.

Lemma lookup_app objects x r :
  (r < List.length objects)%nat ->
  lookup (objects ++ [x]) r = lookup objects r.
Proof. intros H. unfold lookup. apply app_nth1. exact H. Qed.

Lemma map_lookup_app objects x refs :
  Forall (fun r => (r < List.length objects)%nat) refs ->
  map (lookup (objects ++ [x])) refs = map (lookup objects) refs.
Proof.
  intros H. apply map_ext_in. intros r Hr. apply lookup_app.
  rewrite Forall_forall in H. apply H, Hr.
Qed.

Lemma length_assign objects r job :
  List.length (assign objects r job) = List.length objects.
Proof.
  revert r. induction objects as [|o rest IH]; intros [|r]; simpl; auto.
Qed.

Lemma nth_error_assign_same objects r job old :
  nth_error objects r = Some old ->
  nth_error (assign objects r job) r = Some job.
Proof.
  revert r. induction objects as [|o rest IH]; intros [|r] H; simpl in *;
    try discriminate; [reflexivity | apply IH, H].
Qed.

Lemma nth_error_assign_other objects r r' job :
  r' <> r -> nth_error (assign objects r job) r' = nth_error objects r'.
Proof.
  revert r r'. induction objects as [|o rest IH]; intros [|r] [|r'] H; simpl;
    try reflexivity; try congruence.
  apply IH. congruence.
Qed.

Lemma lookup_assign_other objects r r' job :
  r' <> r -> lookup (assign objects r job) r' = lookup objects r'.
Proof.
  intros H. unfold lookup. revert r r' H. induction objects as [|o rest IH]; intros [|r] [|r'] H;
    simpl; try reflexivity; try congruence.
  apply IH. congruence.
Qed.

Lemma assign_last objects x job :
  assign (objects ++ [x]) (List.length objects) job = (objects ++ [job])%list.
Proof.
  induction objects as [|o rest IH]; simpl; [reflexivity|].
  rewrite IH. reflexivity.
Qed.

Lemma nth_error_last {A} (l : list A) (x : A) :
  nth_error (l ++ [x]) (List.length l) = Some x.
Proof.
  rewrite nth_error_app2 by lia. rewrite Nat.sub_diag. reflexivity.
Qed.

Lemma Forall_remove_nth {A} (Q : A -> Prop) (l : list A) k :
  Forall Q l -> Forall Q (remove_nth l k).
Proof.
  revert k. induction l as [|a rest IH]; intros [|k] H; simpl;
    try exact H; inversion H; subst; auto.
Qed.

Lemma iota_app n k1 k2 :
  App.iota n (k1 + k2) = (App.iota n k1 ++ App.iota (n + Z.of_nat k1) k2)%list.
Proof.
  revert n. induction k1 as [|k IH]; intros n; simpl.
  - replace (n + 0) with n by lia. reflexivity.
  - rewrite IH. do 3 f_equal. lia.
Qed.

End StoreFacts.

(* ================================================================== *)
(** ** Calls of [enqueue] over the store *)

Section CallsFacts.

Variable P : Pil.Pillow.

(** A request that enqueues: the counter moves on by one and the job,
    numbered, is appended. *)
Lemma step_enqueues s a job :
  App.job_of_action a = Some job ->
  snd (App.step P s a) =
    App.set_job_q (App.set_next_id s (App._next_id s + 1))
      (App._job_q s ++ [App.set_id job (App._next_id s)]).
Proof.
  destruct a as [ | | | d f | req | req | j | | dt | b ]; simpl;
    try discriminate.
  - intros E. injection E as <-. reflexivity.
  - destruct f as [msg|code [msg|e|o]]; try discriminate.
    unfold App.show_image.
    destruct (negb (code =? 200)); [discriminate|].
    intros E. injection E as <-. reflexivity.
  - unfold App.show_text.
    destruct (negb (Py.truthy (Py.strip (App.st_text req))));
      [discriminate|].
    intros E. injection E as <-. reflexivity.
  - intros E. injection E as <-. reflexivity.
  - intros E. injection E as <-. reflexivity.
Qed.

(** A request that does not enqueue leaves the queue and the counter. *)
Lemma handler_keeps_queue s a :
  a <> App.WorkerStep -> App.job_of_action a = None ->
  App._job_q (snd (App.step P s a)) = App._job_q s
  /\ App._next_id (snd (App.step P s a)) = App._next_id s.
Proof.
  destruct a as [ | | | d f | req | req | j | | dt | b ]; simpl;
    intros Ha Hj; try discriminate; try (split; reflexivity).
  - unfold App.show_image. destruct f as [msg|code [msg|e|o]]; simpl;
      try (split; reflexivity);
      destruct (negb (code =? 200)); try discriminate; split; reflexivity.
  - unfold App.show_text.
    destruct (negb (Py.truthy (Py.strip (App.st_text req))));
      [split; reflexivity | discriminate].
  - congruence.
Qed.

(** The worker never moves the counter. *)
Lemma worker_keeps_counter s :
  App._next_id (App.worker_step P s) = App._next_id s.
Proof.
  destruct (worker_step_shape P s)
    as [[job [rest [_ [_ E]]]] | [[job [_ E]] | [[job [_ E]]
       | [[exn [_ [pc E]]] | [t [eff [pc E]]]]]]];
    rewrite E; reflexivity.
Qed.

(** What a step of the worker does to the jobs the manager refers to:
    it pops the head of the queue, or it leaves the queue alone and
    refers to no job it did not refer to before. *)
Lemma worker_step_refs s :
  (App.worker s = App.WIdle ->  App._current_job s = None) ->
  let s' := App.worker_step P s in
  (exists job rest,
     App.worker s = App.WIdle /\ App._job_q s = job :: rest
     /\ App._job_q s' = rest /\ App.worker s' = App.WPopped job
     /\ App._current_job s' = App._current_job s)
  \/ (App._job_q s' = App._job_q s
      /\ ~ (App.worker s = App.WIdle
            /\ exists job, App.worker s' = App.WPopped job)
      /\ (forall job, Calls.job_in_hand (App.worker s') = Some job ->
            Calls.job_in_hand (App.worker s) = Some job)
      /\ (forall job, App._current_job s' = Some job ->
            App._current_job s = Some job
            \/ Calls.job_in_hand (App.worker s) = Some job)
      /\ (App.worker s' = App.WIdle -> App._current_job s' = None)).
Proof.
  intros Hidle s'. unfold s'.
  assert (Hno : forall w w' : App.Worker,
            w <> App.WIdle \/ (forall job, w' <> App.WPopped job) ->
            ~ (w = App.WIdle /\ exists job, w' = App.WPopped job)).
  { intros w w' [H|H] [C [job Hj]]; [congruence | apply (H job Hj)]. }
  assert (Hrender : forall pc, App.rendering pc ->
            (forall job, Calls.job_in_hand pc = Some job -> False)
            /\ pc <> App.WIdle
            /\ (forall job, pc <> App.WPopped job)).
  { intros pc Hr. destruct pc; try contradiction;
      repeat split; intros; discriminate. }
  destruct (App.worker s)
    as [ | job | job | job | d st | fr dl d w h st i | img tw d w h st x
       | exn | e | ] eqn:Ew.
  - destruct (App._running s) eqn:Er.
    + destruct (App._job_q s) as [|job rest] eqn:Eq.
      * right. rewrite (worker_step_blocked P s Ew Er Eq), Ew.
        split; [exact Eq|]. split; [apply Hno; right; discriminate|].
        split; [auto|]. split; [auto | exact Hidle].
      * left. exists job, rest.
        rewrite (worker_step_pop P s job rest Ew Er Eq). repeat split.
    + right. rewrite (worker_step_exit P s Ew Er). simpl.
      split; [reflexivity|]. split; [apply Hno; right; discriminate|].
      split; [discriminate|]. split; [auto | discriminate].
  - right. rewrite (worker_step_clear P s job Ew). simpl.
    split; [reflexivity|]. split; [apply Hno; left; discriminate|].
    split; [auto|]. split; [auto | discriminate].
  - right. rewrite (worker_step_publish P s job Ew). simpl.
    split; [reflexivity|]. split; [apply Hno; left; discriminate|].
    split; [auto|]. split; [auto | discriminate].
  - right. destruct (dispatch_step_world P s job Ew) as [t [eff [pc [E Hr]]]].
    destruct (Hrender pc Hr) as [R1 [R2 R3]].
    rewrite E. simpl.
    split; [reflexivity|]. split; [apply Hno; left; discriminate|].
    split; [intros j Hj; destruct (R1 j Hj)|].
    split; [auto | intros C; destruct (R2 C)].
  - right. destruct (render_step_world P s) as [t [eff [pc [E Hr]]]];
      [rewrite Ew; exact I | intros exn; congruence|].
    destruct (Hrender pc Hr) as [R1 [R2 R3]].
    rewrite E. simpl.
    split; [reflexivity|]. split; [apply Hno; left; discriminate|].
    split; [intros j Hj; destruct (R1 j Hj)|].
    split; [auto | intros C; destruct (R2 C)].
  - right. destruct (render_step_world P s) as [t [eff [pc [E Hr]]]];
      [rewrite Ew; exact I | intros exn; congruence|].
    destruct (Hrender pc Hr) as [R1 [R2 R3]].
    rewrite E. simpl.
    split; [reflexivity|]. split; [apply Hno; left; discriminate|].
    split; [intros j Hj; destruct (R1 j Hj)|].
    split; [auto | intros C; destruct (R2 C)].
  - right. destruct (render_step_world P s) as [t [eff [pc [E Hr]]]];
      [rewrite Ew; exact I | intros exn; congruence|].
    destruct (Hrender pc Hr) as [R1 [R2 R3]].
    rewrite E. simpl.
    split; [reflexivity|]. split; [apply Hno; left; discriminate|].
    split; [intros j Hj; destruct (R1 j Hj)|].
    split; [auto | intros C; destruct (R2 C)].
  - right. rewrite (worker_step_finally P s exn Ew). simpl.
    split; [reflexivity|]. split; [apply Hno; left; discriminate|].
    split; [intros j Hj; destruct exn; discriminate|].
    split; [discriminate | reflexivity].
  - right.
    assert (E : App.worker_step P s = s)
      by (unfold App.worker_step; rewrite Ew; reflexivity).
    rewrite E, Ew.
    split; [reflexivity|]. split; [apply Hno; left; discriminate|].
    split; [auto|]. split; [auto | discriminate].
  - right. rewrite (worker_step_exited P s Ew), Ew.
    split; [reflexivity|]. split; [apply Hno; left; discriminate|].
    split; [auto|]. split; [auto | discriminate].
Qed.

End CallsFacts.

(* ================================================================== *)
(** ** The references stay in step with the manager *)

Section Coherence.

Import Calls.
Variable P : Pil.Pillow.

Lemma set_job_q_same m : App.set_job_q m (App._job_q m) = m.
Proof. destruct m; reflexivity. Qed.

Lemma refresh_queue objects refs h m :
  App._job_q (refresh objects refs h m) = map (lookup objects) refs.
Proof. unfold refresh. destruct h; reflexivity. Qed.

Lemma refresh_counter objects refs h m :
  App._next_id (refresh objects refs h m) = App._next_id m.
Proof. unfold refresh. destruct h; reflexivity. Qed.

Lemma refresh_popped objects refs h m :
  App.popped (refresh objects refs h m) = App.popped m.
Proof. unfold refresh. destruct h; reflexivity. Qed.

Lemma refresh_in_hand objects refs h m job :
  job_in_hand (App.worker (refresh objects refs h m)) = Some job ->
  (exists r, h = Some r /\ job = lookup objects r)
  \/ (h = None /\ job_in_hand (App.worker m) = Some job).
Proof.
  unfold refresh. destruct h as [r|]; simpl.
  - intros H. left. exists r. split; [reflexivity|].
    destruct (App.worker m); simpl in H; congruence.
  - intros H. right. split; [reflexivity | exact H].
Qed.

Lemma refresh_current objects refs h m job :
  App._current_job (refresh objects refs h m) = Some job ->
  (exists r, h = Some r /\ job = lookup objects r)
  \/ (h = None /\ App._current_job m = Some job).
Proof.
  unfold refresh. destruct h as [r|]; simpl.
  - intros H. left. exists r. split; [reflexivity|].
    destruct (App._current_job m); simpl in H; congruence.
  - intros H. right. split; [reflexivity | exact H].
Qed.

Lemma refresh_idle objects refs h m :
  App.worker (refresh objects refs h m) = App.WIdle ->
  App.worker m = App.WIdle
  /\ (App._current_job m = None ->
      App._current_job (refresh objects refs h m) = None).
Proof.
  unfold refresh. destruct h as [r|]; simpl.
  - intros H. split.
    + destruct (App.worker m); simpl in H; congruence.
    + intros ->. reflexivity.
  - auto.
Qed.

(** Nothing changes when the objects referred to have not changed. *)
Lemma refresh_id objects refs h m :
  App._job_q m = map (lookup objects) refs ->
  (forall job, job_in_hand (App.worker m) = Some job ->
     exists r, h = Some r /\ job = lookup objects r) ->
  (forall job, App._current_job m = Some job ->
     exists r, h = Some r /\ job = lookup objects r) ->
  refresh objects refs h m = m.
Proof.
  intros Hq Hw Hc. unfold refresh. rewrite <- Hq, set_job_q_same.
  destruct h as [r|]; [|reflexivity].
  assert (Ec : option_map (fun _ => lookup objects r) (App._current_job m)
               = App._current_job m).
  { destruct (App._current_job m) as [j|]; [|reflexivity].
    destruct (Hc j eq_refl) as [r' [Hr ->]]. injection Hr as ->.
    reflexivity. }
  assert (Ew : refresh_worker (lookup objects r) (App.worker m)
               = App.worker m).
  { destruct (App.worker m); try reflexivity; simpl;
      destruct (Hw job eq_refl) as [r' [Hr ->]]; injection Hr as ->;
      reflexivity. }
  rewrite Ec, Ew. destruct m; reflexivity.
Qed.

Lemma track_manager before after st : manager (track before after st) = after.
Proof.
  unfold track. destruct (App.worker before); try reflexivity.
  destruct (App.worker after); try reflexivity.
  destruct (queued st); reflexivity.
Qed.

Lemma track_other before after st :
  ~ (App.worker before = App.WIdle
     /\ exists job, App.worker after = App.WPopped job) ->
  track before after st =
    mkState after (store st) (queued st) (held st) (taking st) (calls st)
            (returning st) (assigned st) (returned st) (put_order st)
            (got_order st).
Proof.
  intros H. unfold track.
  destruct (App.worker before) eqn:E1; try reflexivity.
  destruct (App.worker after) eqn:E2; try reflexivity.
  exfalso. apply H. split; eauto.
Qed.

Lemma track_pop before after st job r rest :
  App.worker before = App.WIdle -> App.worker after = App.WPopped job ->
  queued st = r :: rest ->
  track before after st =
    mkState after (store st) rest (Some r) (taking st) (calls st)
            (returning st) (assigned st) (returned st) (put_order st)
            (got_order st ++ [r]).
Proof. intros E1 E2 E3. unfold track. rewrite E1, E2, E3. reflexivity. Qed.

Lemma remove_nth_last {A} (l : list A) (x : A) :
  remove_nth (l ++ [x]) (List.length l) = l.
Proof. induction l as [|a r IH]; simpl; [reflexivity | rewrite IH; reflexivity]. Qed.

Lemma pred_length_last {A} (l : list A) (x : A) :
  Nat.pred (List.length (l ++ [x])) = List.length l.
Proof. rewrite length_app. simpl. lia. Qed.

(** A property that every step of [enqueue], every object built and
    every move of the manager passes on is passed on by every move of a
    schedule. *)
Lemma step_passes_on (R : State -> State -> Prop) (ok : App.Action -> Prop) :
  (forall a b c, R a b -> R b c -> R a c) ->
  (forall job st, R st (build job st)) ->
  (forall r st, R st (take_id r st)) ->
  (forall k st, R st (store_id k st)) ->
  (forall k st, R st (put k st)) ->
  (forall k st, R st (return_id k st)) ->
  (forall a st, App.job_of_action a = None -> ok a ->
     R st (track (manager st) (snd (App.step P (manager st) a)) st)) ->
  forall st op,
    (forall a, op = Alone a -> ok a) -> R st (step P st op).
Proof.
  intros Ht Hb Hk Hs Hp Hr Ha st op Hok.
  destruct op as [a | job | r | k | k | k]; cbn [step]; auto.
  destruct (App.job_of_action a) as [job|] eqn:Hj.
  - eapply Ht; [|apply Hr]. eapply Ht; [|apply Hp].
    eapply Ht; [|apply Hs]. eapply Ht; [|apply Hk]. apply Hb.
  - apply Ha; [exact Hj | apply Hok; reflexivity].
Qed.

Lemma coherent_init w h t0 : coherent (init w h t0).
Proof.
  unfold coherent, init. simpl. repeat split; auto; try discriminate.
Qed.

Lemma coherent_build job st : coherent st -> coherent (build job st).
Proof.
  intros [Hq [Hr [Htk [Hcalls [Hret [Hh [Hw [Hc Hi]]]]]]]].
  assert (Hlt : forall r, (r < List.length (store st))%nat ->
                          (r < List.length (store st ++ [job]))%nat).
  { intros r Hlt. rewrite length_app. simpl. lia. }
  assert (Hgrow : forall refs,
            Forall (fun r => (r < List.length (store st))%nat) refs ->
            Forall (fun r => (r < List.length (store st ++ [job]))%nat) refs).
  { intros refs H. eapply Forall_impl; [|exact H]. intros r. apply Hlt. }
  unfold coherent, build, deref in *. simpl.
  split; [rewrite Hq; symmetry; apply map_lookup_app; exact Hr|].
  split; [apply Hgrow, Hr|].
  split; [eapply Forall_impl; [|exact Htk]; intros c; apply Hlt|].
  split; [apply Hgrow, Hcalls|]. split; [apply Hgrow, Hret|].
  split; [intros r H; apply Hlt, Hh, H|].
  split.
  { intros j Hj. destruct (Hw j Hj) as [r [E ->]]. exists r.
    split; [exact E|]. symmetry. apply lookup_app, Hh, E. }
  split; [|exact Hi].
  intros j Hj. destruct (Hc j Hj) as [r [E ->]]. exists r.
  split; [exact E|]. symmetry. apply lookup_app, Hh, E.
Qed.

Lemma coherent_take_id r st : coherent st -> coherent (take_id r st).
Proof.
  intros H. unfold take_id.
  destruct (nth_error (store st) r) as [job|] eqn:En; [|exact H].
  destruct H as [Hq [Hr [Htk [Hcalls [Hret [Hh [Hw [Hc Hi]]]]]]]].
  unfold App._next_job_id. cbv zeta.
  unfold coherent, deref in *. simpl.
  split; [exact Hq|]. split; [exact Hr|].
  split.
  { apply Forall_app. split; [exact Htk|]. constructor; [|constructor].
    simpl. apply nth_error_Some. congruence. }
  repeat split; assumption.
Qed.

Lemma coherent_store_id k st : coherent st -> coherent (store_id k st).
Proof.
  intros H. unfold store_id.
  destruct (nth_error (taking st) k) as [[r jid]|] eqn:En; [|exact H].
  destruct H as [Hq [Hr [Htk [Hcalls [Hret [Hh [Hw [Hc Hi]]]]]]]].
  set (objects := assign (store st) r _).
  unfold coherent, deref. simpl.
  assert (Hlen : List.length objects = List.length (store st))
    by apply length_assign.
  assert (Hin : (r < List.length (store st))%nat).
  { rewrite Forall_forall in Htk.
    apply (Htk (r, jid)). eapply nth_error_In, En. }
  split; [apply refresh_queue|].
  split; [rewrite Hlen; exact Hr|].
  split; [rewrite Hlen; apply Forall_remove_nth, Htk|].
  split.
  { rewrite Hlen. apply Forall_app. split; [exact Hcalls|].
    constructor; [exact Hin | constructor]. }
  split; [rewrite Hlen; exact Hret|].
  split; [rewrite Hlen; exact Hh|].
  split.
  { intros j Hj. apply refresh_in_hand in Hj as [Hj | [Hn Hj]]; [exact Hj|].
    destruct (Hw j Hj) as [r' [E _]]. congruence. }
  split.
  { intros j Hj. apply refresh_current in Hj as [Hj | [Hn Hj]]; [exact Hj|].
    destruct (Hc j Hj) as [r' [E _]]. congruence. }
  intros Hidle. apply refresh_idle in Hidle as [Hidle Hnone].
  apply Hnone, Hi, Hidle.
Qed.

Lemma coherent_put k st : coherent st -> coherent (put k st).
Proof.
  intros H. unfold put.
  destruct (nth_error (calls st) k) as [r|] eqn:En; [|exact H].
  destruct H as [Hq [Hr [Htk [Hcalls [Hret [Hh [Hw [Hc Hi]]]]]]]].
  unfold coherent, deref in *. simpl.
  assert (Hin : (r < List.length (store st))%nat).
  { rewrite Forall_forall in Hcalls. apply Hcalls.
    eapply nth_error_In, En. }
  split; [rewrite map_app, Hq; reflexivity|].
  split.
  { apply Forall_app. split; [exact Hr|]. constructor; [exact Hin|].
    constructor. }
  split; [exact Htk|].
  split; [apply Forall_remove_nth, Hcalls|].
  split.
  { apply Forall_app. split; [exact Hret|]. constructor; [exact Hin|].
    constructor. }
  repeat split; assumption.
Qed.

Lemma coherent_return_id k st : coherent st -> coherent (return_id k st).
Proof.
  intros H. unfold return_id.
  destruct (nth_error (returning st) k) as [r|]; [|exact H].
  destruct H as [Hq [Hr [Htk [Hcalls [Hret [Hh [Hw [Hc Hi]]]]]]]].
  unfold coherent, deref in *. simpl.
  split; [exact Hq|]. split; [exact Hr|]. split; [exact Htk|].
  split; [exact Hcalls|].
  split; [apply Forall_remove_nth, Hret|].
  repeat split; assumption.
Qed.

(** A move of the manager that enqueues nothing. *)
Lemma coherent_track a st :
  App.job_of_action a = None -> coherent st ->
  coherent (track (manager st) (snd (App.step P (manager st) a)) st).
Proof.
  intros Hj [Hq [Hr [Htk [Hcalls [Hret [Hh [Hw [Hc Hi]]]]]]]].
  destruct (not_worker_step a) as [-> | Ha].
  - simpl. destruct (worker_step_refs P (manager st) Hi)
      as [[job [rest [Ew [Eq [Eq' [Ew' Ec']]]]]]
         | [Eq' [Hno [Hw' [Hc' Hi']]]]].
    + rewrite Eq in Hq.
      destruct (queued st) as [|r refs] eqn:Er; [discriminate|].
      simpl in Hq. injection Hq as Hjob Hrest.
      rewrite (track_pop _ _ st job r refs Ew Ew' Er).
      inversion Hr; subst.
      unfold coherent, deref in *. simpl.
      split; [rewrite Eq'; reflexivity|].
      split; [assumption|]. split; [assumption|]. split; [assumption|].
      split; [assumption|].
      split; [intros r' E; injection E as <-; assumption|].
      split.
      { intros j H. rewrite Ew' in H. simpl in H. injection H as <-.
        exists r. split; reflexivity. }
      split.
      { intros j H. rewrite Ec', (Hi Ew) in H. discriminate. }
      rewrite Ew'. discriminate.
    + rewrite (track_other _ _ st Hno).
      unfold coherent, deref in *. simpl.
      split; [rewrite Eq'; exact Hq|].
      split; [assumption|]. split; [assumption|]. split; [assumption|].
      split; [assumption|]. split; [assumption|].
      split; [intros j H; apply Hw, Hw', H|].
      split; [|exact Hi'].
      intros j H. destruct (Hc' j H) as [H1 | H1]; [apply Hc | apply Hw];
        exact H1.
  - destruct (handler_frame P (manager st) a Ha) as [F1 [_ [_ [F4 _]]]].
    destruct (handler_keeps_queue P (manager st) a Ha Hj) as [Fq _].
    rewrite track_other.
    + unfold coherent, deref in *. simpl. rewrite Fq, F1, F4.
      repeat split; assumption.
    + intros [E1 [job E2]]. rewrite F1 in E2. congruence.
Qed.

Lemma coherent_step st op : coherent st -> coherent (step P st op).
Proof.
  apply (step_passes_on (fun a b => coherent a -> coherent b)
           (fun _ => True)); auto.
  - intros job st0. apply coherent_build.
  - intros r st0. apply coherent_take_id.
  - intros k st0. apply coherent_store_id.
  - intros k st0. apply coherent_put.
  - intros k st0. apply coherent_return_id.
  - intros a st0 Hj _. apply coherent_track, Hj.
Qed.

Lemma coherent_run ops : forall st, coherent st -> coherent (run P st ops).
Proof.
  induction ops as [|op r IH]; intros st H; simpl; [exact H|].
  apply IH, coherent_step, H.
Qed.

(** A request that enqueues, taken alone: the job is a new object of
    the store, numbered with the next id, and a reference to it is
    appended to the queue; the manager moves as [App.step] has it. *)
Lemma alone_enqueue st a job :
  coherent st -> App.job_of_action a = Some job ->
  let n := App._next_id (manager st) in
  let r := List.length (store st) in
  step P st (Alone a) =
    mkState (snd (App.step P (manager st) a))
            (store st ++ [App.set_id job n]) (queued st ++ [r]) (held st)
            (taking st) (calls st) (returning st) (assigned st ++ [n])
            (returned st ++ [n]) (put_order st ++ [r]) (got_order st).
Proof.
  intros [Hq [Hr [Htk [Hcalls [Hret [Hh [Hw [Hc Hi]]]]]]]] Hj n r.
  rewrite (step_enqueues P (manager st) a job Hj). fold n.
  assert (Ed : forall objects x,
            lookup (objects ++ [x]) (List.length objects) = x).
  { intros objects x. apply lookup_nth_error, nth_error_last. }
  assert (E1 : take_id (List.length (store st)) (build job st) =
               mkState (App.set_next_id (manager st) (n + 1))
                       (store st ++ [job]) (queued st) (held st)
                       (taking st ++ [(List.length (store st), n)])
                       (calls st) (returning st) (assigned st ++ [n])
                       (returned st) (put_order st) (got_order st)).
  { unfold take_id, build.
    cbn [store manager queued held taking calls returning assigned returned
         put_order got_order].
    rewrite nth_error_last. reflexivity. }
  assert (E2 : forall st1,
            st1 = mkState (App.set_next_id (manager st) (n + 1))
                    (store st ++ [job]) (queued st) (held st)
                    (taking st ++ [(List.length (store st), n)])
                    (calls st) (returning st) (assigned st ++ [n])
                    (returned st) (put_order st) (got_order st) ->
            store_id (List.length (taking st)) st1 =
              mkState (App.set_next_id (manager st) (n + 1))
                      (store st ++ [App.set_id job n]) (queued st) (held st)
                      (taking st) (calls st ++ [List.length (store st)])
                      (returning st) (assigned st ++ [n]) (returned st)
                      (put_order st) (got_order st)).
  { intros st1 ->. unfold store_id, deref.
    cbn [store manager queued held taking calls returning assigned returned
         put_order got_order].
    rewrite nth_error_last, remove_nth_last, Ed, assign_last.
    rewrite refresh_id; [reflexivity | | |].
    - simpl. rewrite Hq. symmetry. apply map_lookup_app, Hr.
    - simpl. intros j H. destruct (Hw j H) as [r' [E ->]]. exists r'.
      split; [exact E|]. symmetry. apply lookup_app, Hh, E.
    - simpl. intros j H. destruct (Hc j H) as [r' [E ->]]. exists r'.
      split; [exact E|]. symmetry. apply lookup_app, Hh, E. }
  unfold step. rewrite Hj.
  assert (El : Nat.pred (List.length (store (build job st)))
               = List.length (store st)).
  { unfold build. simpl. apply pred_length_last. }
  rewrite El, E1. cbn [taking]. rewrite pred_length_last.
  rewrite (E2 _ eq_refl). cbn [calls]. rewrite pred_length_last.
  unfold put. cbn [calls].
  rewrite nth_error_last, remove_nth_last.
  unfold deref.
  cbn [store manager queued held taking calls returning assigned returned
       put_order got_order].
  rewrite Ed, pred_length_last. unfold return_id. cbn [returning].
  rewrite nth_error_last, remove_nth_last.
  unfold deref.
  cbn [store manager queued held taking calls returning assigned returned
       put_order got_order].
  rewrite Ed. reflexivity.
Qed.

(** Taken alone, the moves of a schedule act on the manager as
    [App.step] says. *)
Lemma alone_manager st a :
  coherent st ->
  manager (step P st (Alone a)) = snd (App.step P (manager st) a).
Proof.
  intros H. destruct (App.job_of_action a) as [job|] eqn:Hj.
  - rewrite (alone_enqueue st a job H Hj). reflexivity.
  - simpl. rewrite Hj. apply track_manager.
Qed.

Lemma alone_run sched : forall st,
  coherent st ->
  manager (run P st (map Alone sched)) = App.run P (manager st) sched.
Proof.
  induction sched as [|a r IH]; intros st H; [reflexivity|].
  cbn [map run App.run]. rewrite IH by (apply coherent_step, H).
  rewrite alone_manager by exact H. reflexivity.
Qed.

(** The objects are popped in the order in which they were put. *)
Lemma fifo_step st op :
  (got_order st ++ queued st)%list = put_order st ->
  (got_order (step P st op) ++ queued (step P st op))%list
  = put_order (step P st op).
Proof.
  apply (step_passes_on
           (fun a b => (got_order a ++ queued a)%list = put_order a ->
                       (got_order b ++ queued b)%list = put_order b)
           (fun _ => True)); auto.
  - intros r st0 H. unfold take_id.
    destruct (nth_error (store st0) r); exact H.
  - intros k st0 H. unfold store_id.
    destruct (nth_error (taking st0) k) as [[r jid]|]; exact H.
  - intros k st0 H. unfold put.
    destruct (nth_error (calls st0) k); [|exact H]. simpl.
    rewrite app_assoc, H. reflexivity.
  - intros k st0 H. unfold return_id.
    destruct (nth_error (returning st0) k); exact H.
  - intros a st0 _ _ H. unfold track.
    destruct (App.worker (manager st0)); try exact H.
    destruct (App.worker (snd (App.step P (manager st0) a))); try exact H.
    destruct (queued st0) as [|r rest]; simpl.
    + exact H.
    + rewrite <- app_assoc. exact H.
Qed.

Lemma fifo_run ops : forall st,
  (got_order st ++ queued st)%list = put_order st ->
  (got_order (run P st ops) ++ queued (run P st ops))%list
  = put_order (run P st ops).
Proof.
  induction ops as [|op r IH]; intros st H; simpl; [exact H|].
  apply IH, fifo_step, H.
Qed.

(** The counter hands out consecutive values. *)
Lemma assigned_step st op :
  exists k,
    assigned (step P st op)
    = (assigned st ++ App.iota (App._next_id (manager st)) k)%list
    /\ App._next_id (manager (step P st op))
       = App._next_id (manager st) + Z.of_nat k.
Proof.
  assert (H0 : forall a b : State,
            assigned b = assigned a ->
            App._next_id (manager b) = App._next_id (manager a) ->
            exists k,
              assigned b
              = (assigned a ++ App.iota (App._next_id (manager a)) k)%list
              /\ App._next_id (manager b)
                 = App._next_id (manager a) + Z.of_nat k).
  { intros a b E1 E2. exists 0%nat. simpl. rewrite app_nil_r, E1, E2.
    split; [reflexivity | lia]. }
  apply (step_passes_on
           (fun a b => exists k,
              assigned b
              = (assigned a ++ App.iota (App._next_id (manager a)) k)%list
              /\ App._next_id (manager b)
                 = App._next_id (manager a) + Z.of_nat k)
           (fun _ => True)); try (intros ? ?; exact I).
  - intros a b c [k1 [E1 E2]] [k2 [E3 E4]].
    exists (k1 + k2)%nat. rewrite E3, E4, E1, E2, iota_app, <- app_assoc.
    split; [reflexivity | lia].
  - intros job st0. apply H0; reflexivity.
  - intros r st0. unfold take_id.
    destruct (nth_error (store st0) r); [|apply H0; reflexivity].
    exists 1%nat. unfold App._next_job_id. simpl. split; [reflexivity | lia].
  - intros k st0. unfold store_id.
    destruct (nth_error (taking st0) k) as [[r jid]|];
      apply H0; try reflexivity.
    cbn [manager]. apply refresh_counter.
  - intros k st0. unfold put.
    destruct (nth_error (calls st0) k); apply H0; reflexivity.
  - intros k st0. unfold return_id.
    destruct (nth_error (returning st0) k); apply H0; reflexivity.
  - intros a st0 Hj _. apply H0.
    + unfold track. destruct (App.worker (manager st0)); try reflexivity.
      destruct (App.worker (snd (App.step P (manager st0) a)));
        try reflexivity.
      destruct (queued st0); reflexivity.
    + rewrite track_manager.
      destruct (not_worker_step a) as [-> | Ha].
      * apply worker_keeps_counter.
      * apply (handler_keeps_queue P (manager st0) a Ha Hj).
Qed.

Lemma assigned_run ops : forall st,
  exists k,
    assigned (run P st ops)
    = (assigned st ++ App.iota (App._next_id (manager st)) k)%list
    /\ App._next_id (manager (run P st ops))
       = App._next_id (manager st) + Z.of_nat k.
Proof.
  induction ops as [|op r IH]; intros st; simpl.
  - exists 0%nat. simpl. rewrite app_nil_r. split; [reflexivity | lia].
  - destruct (assigned_step st op) as [k1 [E1 E2]].
    destruct (IH (step P st op)) as [k2 [E3 E4]].
    exists (k1 + k2)%nat. rewrite E3, E4, E1, E2, iota_app, <- app_assoc.
    split; [reflexivity | lia].
Qed.

End Coherence.

(* ================================================================== *)
(** ** What the dispatch of a job shows *)

Section Shown.

Import App.
Variable P : Pil.Pillow.

Lemma dispatch_shows s job :
  faulty s = false ->
  effects (in_try (dispatch P job) s)
  = (effects s ++ shown_at_dispatch P (matrix s) job)%list.
Proof.
  intros Hf. unfold in_try, dispatch, shown_at_dispatch.
  destruct (type job).
  - destruct (gif_frames job) as [[|f fs]|]; destruct (image job) as [img|];
      unfold _display_gif, _display_image, bind, time_time, matrix_size,
        matrix_SetImage, print, ret;
      rewrite ?Hf; simpl; rewrite ?app_nil_r; reflexivity.
  - unfold _display_text_scroll, bind, matrix_size, lift, time_time, ret.
    destruct (Pil.getbbox P _) as [[[a b] c] bottom].
    destruct (Pil.draw_textlength P _); simpl; rewrite app_nil_r;
      reflexivity.
  - unfold _display_weather_template, _display_image, bind, time_time,
      matrix_size, matrix_SetImage, ret.
    rewrite Hf. reflexivity.
  - unfold bind, matrix_Clear, time_sleep, ret. rewrite Hf. simpl.
    rewrite <- app_assoc. reflexivity.
  - unfold bind, time_sleep, ret. reflexivity.
Qed.

(** From the waiting worker to the dispatch of the head of the queue. *)
Lemma pop_to_dispatch s job rest :
  worker s = WIdle -> _running s = true -> _job_q s = job :: rest ->
  run P s (repeat WorkerStep 3) =
    set_worker
      (set_current_job
         (set_cancel_evt (add_popped (set_job_q s rest) job) false)
         (Some job))
      (WDispatch job).
Proof.
  intros Hw Hr Hq. cbn [repeat run step snd].
  rewrite (worker_step_pop P s job rest Hw Hr Hq).
  set (s1 := set_worker _ (WPopped job)).
  rewrite (worker_step_clear P s1 job eq_refl).
  set (s2 := set_worker _ (WCleared job)).
  rewrite (worker_step_publish P s2 job eq_refl).
  reflexivity.
Qed.

Lemma pop_and_dispatch s job rest :
  worker s = WIdle -> _running s = true -> _job_q s = job :: rest ->
  faulty s = false ->
  let s4 := run P s (repeat WorkerStep 4) in
  popped s4 = (popped s ++ [job])%list
  /\ effects s4 = (effects s ++ shown_at_dispatch P (matrix s) job)%list
  /\ _job_q s4 = rest.
Proof.
  intros Hw Hr Hq Hf s4. unfold s4.
  change (repeat WorkerStep 4)
    with (repeat WorkerStep 3 ++ [WorkerStep])%list.
  rewrite run_app, (pop_to_dispatch s job rest Hw Hr Hq).
  set (s3 := set_worker _ (WDispatch job)).
  cbn [run step snd].
  rewrite (worker_step_dispatch P s3 job eq_refl).
  split; [|split].
  - destruct (in_try_world (dispatch P job) s3 (wo_dispatch P job))
      as [t [eff [pc E]]].
    rewrite E. reflexivity.
  - rewrite (dispatch_shows s3 job Hf). reflexivity.
  - destruct (in_try_world (dispatch P job) s3 (wo_dispatch P job))
      as [t [eff [pc E]]].
    rewrite E. reflexivity.
Qed.

(** The job that has ended gives way to the next one. *)
Lemma next_job_popped s next rest :
  worker s = WFinally None -> _running s = true -> _job_q s = next :: rest ->
  let s2 := worker_step P (worker_step P s) in
  worker s2 = WPopped next /\ popped s2 = (popped s ++ [next])%list.
Proof.
  intros Hw Hr Hq s2. unfold s2.
  rewrite (worker_step_finally P s None Hw).
  set (s1 := set_worker _ WIdle).
  rewrite (worker_step_pop P s1 next rest eq_refl Hr Hq).
  split; reflexivity.
Qed.

(** A worker held by a job without duration, or ended by an exception,
    pops nothing. *)
Lemma unexpired_pops_nothing sched : forall s,
  unexpired (worker s) -> _cancel_evt s = false -> no_stop sched = true ->
  popped (run P s sched) = popped s /\ _job_q (run P s sched)
  = (_job_q s ++ submitted (_next_id s) sched)%list.
Proof.
  intros s Hu Hc Hn.
  assert (Hp : forall sched s,
            unexpired (worker s) -> _cancel_evt s = false ->
            no_stop sched = true -> popped (run P s sched) = popped s).
  { clear. induction sched as [|a r IH]; intros s Hu Hc Hn; [reflexivity|].
    simpl in Hn. apply andb_prop in Hn as [Ha Hr]. cbn [run].
    destruct (not_worker_step a) as [-> | Hw].
    - cbn [step snd].
      rewrite IH; [| apply unexpired_step | apply worker_keeps_unset |];
        try assumption.
      destruct (worker_step_shape P s)
        as [[job [rest [C _]]] | [[job [C _]] | [[job [C _]]
           | [[exn [_ [pc E]]] | [t [eff [pc E]]]]]]];
        try (rewrite C in Hu; contradiction); rewrite E; reflexivity.
    - destruct (handler_frame P s a Hw) as [F1 [F2 _]].
      rewrite IH; [exact F2 | rewrite F1; exact Hu | | exact Hr].
      rewrite no_stop_handler; [exact Hc | exact Hw |].
      simpl. rewrite Ha. reflexivity. }
  split; [apply Hp; assumption|].
  destruct (run_queue P sched s) as [Hq _]. simpl in Hq.
  rewrite (Hp sched s Hu Hc Hn) in Hq.
  apply app_inv_head in Hq. exact Hq.
Qed.

End Shown.

Section CallsPop.

Import Calls.
Variable P : Pil.Pillow.

(** A step of the worker that is not waiting moves the manager and no
    reference. *)
Lemma calls_worker_busy st :
  App.worker (manager st) <> App.WIdle ->
  step P st (Alone App.WorkerStep) =
    mkState (App.worker_step P (manager st)) (store st) (queued st)
            (held st) (taking st) (calls st) (returning st) (assigned st) (returned st) (put_order st)
            (got_order st).
Proof.
  intros H. cbn [step App.job_of_action App.step snd].
  apply track_other. intros [C _]. contradiction.
Qed.

(** The waiting worker gets the object at the head of the queue; the
    job it then publishes and dispatches is that object. *)
Lemma calls_pop_to_dispatch st r rest :
  coherent st ->
  App.worker (manager st) = App.WIdle ->
  App._running (manager st) = true ->
  queued st = r :: rest ->
  run P st (repeat (Alone App.WorkerStep) 3) =
    mkState
      (App.set_worker
         (App.set_current_job
            (App.set_cancel_evt
               (App.add_popped
                  (App.set_job_q (manager st) (map (deref st) rest))
                  (deref st r)) false)
            (Some (deref st r)))
         (App.WDispatch (deref st r)))
      (store st) rest (Some r) (taking st) (calls st) (returning st) (assigned st) (returned st)
      (put_order st) (got_order st ++ [r]).
Proof.
  intros [Hq _] Hw Hr Er. rewrite Er in Hq. simpl in Hq.
  cbn [repeat run].
  assert (E1 : step P st (Alone App.WorkerStep) =
               mkState
                 (App.set_worker
                    (App.add_popped
                       (App.set_job_q (manager st) (map (deref st) rest))
                       (deref st r))
                    (App.WPopped (deref st r)))
                 (store st) rest (Some r) (taking st) (calls st) (returning st) (assigned st)
                 (returned st) (put_order st) (got_order st ++ [r])).
  { cbn [step App.job_of_action App.step snd].
    rewrite (worker_step_pop P (manager st) _ _ Hw Hr Hq).
    apply (track_pop (manager st) _ st (deref st r) r rest Hw);
      [reflexivity | exact Er]. }
  rewrite E1. set (st1 := mkState _ _ _ _ _ _ _ _ _ _ _).
  rewrite (calls_worker_busy st1) by discriminate.
  unfold st1 at 2 3 4 5 6 7 8 9 10.
  cbn [manager store queued held taking calls returning assigned returned put_order
       got_order].
  rewrite (worker_step_clear P (manager st1) (deref st r) eq_refl).
  unfold st1. cbn [manager]. set (st2 := mkState _ _ _ _ _ _ _ _ _ _ _).
  rewrite (calls_worker_busy st2) by discriminate.
  unfold st2 at 2 3 4 5 6 7 8 9 10.
  cbn [manager store queued held taking calls returning assigned returned put_order
       got_order].
  rewrite (worker_step_publish P (manager st2) (deref st r) eq_refl).
  reflexivity.
Qed.

End CallsPop.

(* ================================================================== *)
(** ** Ids and queue order *)

(** C5, as amended.  [enqueue(job)] is three statements.  The first,
    [job.id = self._next_job_id()], is a call and a store: the call
    reads the manager's counter and moves it on by one under the lock,
    and the value read is then stored in [id] on the caller's object.
    Over any schedule, calls overlapping or not, the values read are
    [n, n+1, ...] from the counter's value [n], strictly increasing and
    never reused.  The second statement appends the object to the
    queue.  The third returns the [id] the object then has.  Nothing is
    checked: the call takes any job, never fails and never blocks.  A
    call that runs alone on a job of its own returns the id it assigned
    and leaves the job in the queue under that id.  When a job that is
    already in the queue is enqueued again, the entry already there
    shows the new id as soon as it is stored. *)
Theorem enqueue_assigns_next_id :
  forall (P : Pil.Pillow) (st : Calls.State),
    (forall r job,
       nth_error (Calls.store st) r = Some job ->
       let n := App._next_id (Calls.manager st) in
       let st' := Calls.step P st (Calls.TakeId r) in
       App._next_id (Calls.manager st') = n + 1
       /\ Calls.assigned st' = (Calls.assigned st ++ [n])%list
       /\ Calls.taking st' = (Calls.taking st ++ [(r, n)])%list
       /\ Calls.store st' = Calls.store st
       /\ App._job_q (Calls.manager st') = App._job_q (Calls.manager st)
       /\ Calls.calls st' = Calls.calls st
       /\ Calls.queued st' = Calls.queued st
       /\ Calls.returned st' = Calls.returned st)
    /\ (forall k r jid job,
          nth_error (Calls.taking st) k = Some (r, jid) ->
          nth_error (Calls.store st) r = Some job ->
          let st' := Calls.step P st (Calls.StoreId k) in
          nth_error (Calls.store st') r = Some (App.set_id job jid)
          /\ (forall r', r' <> r ->
                nth_error (Calls.store st') r'
                = nth_error (Calls.store st) r')
          /\ App._next_id (Calls.manager st')
             = App._next_id (Calls.manager st)
          /\ Calls.assigned st' = Calls.assigned st
          /\ Calls.taking st' = Calls.remove_nth (Calls.taking st) k
          /\ Calls.calls st' = (Calls.calls st ++ [r])%list
          /\ Calls.queued st' = Calls.queued st
          /\ Calls.returned st' = Calls.returned st)
    /\ (forall k r,
          nth_error (Calls.calls st) k = Some r ->
          let st' := Calls.step P st (Calls.Put k) in
          Calls.queued st' = (Calls.queued st ++ [r])%list
          /\ App._job_q (Calls.manager st')
             = (App._job_q (Calls.manager st) ++ [Calls.deref st r])%list
          /\ Calls.calls st' = Calls.remove_nth (Calls.calls st) k
          /\ Calls.returning st' = (Calls.returning st ++ [r])%list
          /\ Calls.returned st' = Calls.returned st
          /\ Calls.store st' = Calls.store st
          /\ App._next_id (Calls.manager st')
             = App._next_id (Calls.manager st)
          /\ Calls.assigned st' = Calls.assigned st)
    /\ (forall k r,
          nth_error (Calls.returning st) k = Some r ->
          let st' := Calls.step P st (Calls.Return k) in
          Calls.returned st'
          = (Calls.returned st ++ [App.id (Calls.deref st r)])%list
          /\ Calls.returning st' = Calls.remove_nth (Calls.returning st) k
          /\ Calls.manager st' = Calls.manager st
          /\ Calls.store st' = Calls.store st
          /\ Calls.queued st' = Calls.queued st
          /\ Calls.assigned st' = Calls.assigned st)
    /\ (forall ops,
          let st' := Calls.run P st ops in
          exists k,
            Calls.assigned st'
            = (Calls.assigned st
               ++ App.iota (App._next_id (Calls.manager st)) k)%list
            /\ App._next_id (Calls.manager st')
               = App._next_id (Calls.manager st) + Z.of_nat k)
    /\ (forall w h t0 ops,
          let ids := Calls.assigned (Calls.run P (Calls.init w h t0) ops) in
          ids = App.iota 1 (List.length ids)
          /\ StronglySorted Z.lt ids
          /\ NoDup ids)
    /\ (forall job,
          Calls.coherent st ->
          let n := App._next_id (Calls.manager st) in
          let st' := Calls.step P st (Calls.Alone (App.CallEnqueue job)) in
          App.enqueue job (Calls.manager st) = (n, Calls.manager st')
          /\ App._job_q (Calls.manager st')
             = (App._job_q (Calls.manager st) ++ [App.set_id job n])%list
          /\ App._next_id (Calls.manager st') = n + 1
          /\ Calls.assigned st' = (Calls.assigned st ++ [n])%list
          /\ Calls.returned st' = (Calls.returned st ++ [n])%list
          /\ Calls.taking st' = Calls.taking st
          /\ Calls.calls st' = Calls.calls st
          /\ Calls.returning st' = Calls.returning st)
    /\ (forall k r jid job i,
          nth_error (Calls.taking st) k = Some (r, jid) ->
          nth_error (Calls.store st) r = Some job ->
          nth_error (Calls.queued st) i = Some r ->
          nth_error
            (App._job_q (Calls.manager (Calls.step P st (Calls.StoreId k)))) i
          = Some (App.set_id job jid))
    /\ (forall w h t0 ops,
          Calls.coherent (Calls.run P (Calls.init w h t0) ops)).
Proof.
  intros P st.
  split.
  { intros r job Hn n st'. unfold st'. simpl. unfold Calls.take_id.
    rewrite Hn. unfold App._next_job_id. cbv zeta. fold n. simpl.
    repeat split. }
  split.
  { intros k r jid job Hk Hn st'. unfold st'. simpl. unfold Calls.store_id.
    rewrite Hk. unfold Calls.deref. rewrite (lookup_nth_error _ _ _ Hn).
    simpl.
    split; [eapply nth_error_assign_same, Hn|].
    split; [intros r' Hr; apply nth_error_assign_other, Hr|].
    split; [rewrite refresh_counter; reflexivity|].
    repeat split. }
  split.
  { intros k r Hn st'. unfold st'. simpl. unfold Calls.put.
    rewrite Hn. simpl. repeat split. }
  split.
  { intros k r Hn st'. unfold st'. simpl. unfold Calls.return_id.
    rewrite Hn. simpl. repeat split. }
  split; [intros ops st'; apply assigned_run|].
  split.
  { intros w h t0 ops ids.
    destruct (assigned_run P ops (Calls.init w h t0)) as [k [E _]].
    simpl in E. fold ids in E.
    assert (Ek : List.length ids = k).
    { rewrite E. clear. generalize 1. induction k as [|k IH]; intros n;
        simpl; [reflexivity | rewrite IH; reflexivity]. }
    rewrite Ek, E.
    split; [reflexivity|]. split; [apply iota_sorted | apply iota_nodup]. }
  split.
  { intros job Hc n st'. unfold st'.
    rewrite (alone_enqueue P st (App.CallEnqueue job) job Hc eq_refl).
    fold n. simpl. repeat split. }
  split.
  { intros k r jid job i Hk Hn Hi. simpl. unfold Calls.store_id. rewrite Hk.
    unfold Calls.deref. rewrite (lookup_nth_error _ _ _ Hn). simpl.
    rewrite refresh_queue, nth_error_map, Hi. simpl. f_equal.
    apply lookup_nth_error. eapply nth_error_assign_same, Hn. }
  intros w h t0 ops. apply coherent_run, coherent_init.
Qed.

(** C5 at work: on a fresh manager the invalid job is numbered 1 and
    queued, and 1 is returned; enqueued a second time, the same object
    is in the queue twice, and once the new id is stored the entry
    already there is under the id 2. *)
Lemma enqueue_assigns_next_id_witness :
  let st := Calls.init 64 64 0 in
  let st1 := Calls.step Demo.pillow st
               (Calls.Alone (App.CallEnqueue Demo.bad_job)) in
  let st2 := Calls.step Demo.pillow st1 (Calls.TakeId 0%nat) in
  (App._job_q (Calls.manager st1) = [App.set_id Demo.bad_job 1]
   /\ Calls.returned st1 = [1])
  /\ nth_error
       (App._job_q (Calls.manager
                      (Calls.step Demo.pillow st2 (Calls.StoreId 0%nat))))
       0%nat
     = Some (App.set_id (App.set_id Demo.bad_job 1) 2).
Proof.
  intros st st1 st2. split.
  - destruct (proj1 (proj2 (proj2 (proj2 (proj2 (proj2 (proj2
                (enqueue_assigns_next_id Demo.pillow st)))))))
                Demo.bad_job
                (proj2 (proj2 (proj2 (proj2 (proj2 (proj2 (proj2 (proj2
                   (enqueue_assigns_next_id Demo.pillow st))))))))
                   64 64 0%Q []))
      as [_ [H1 [_ [_ [H2 _]]]]].
    split; [exact H1 | exact H2].
  - apply (proj1 (proj2 (proj2 (proj2 (proj2 (proj2 (proj2 (proj2
             (enqueue_assigns_next_id Demo.pillow st2))))))))
             0%nat 0%nat 2 (App.set_id Demo.bad_job 1) 0%nat
             ltac:(vm_compute; reflexivity) ltac:(vm_compute; reflexivity)
             ltac:(vm_compute; reflexivity)).
Defined.

(* ================================================================== *)
(** ** For whom the worker writes *)

Section InHand.

Import Calls.
Variable P : Pil.Pillow.

Lemma refresh_effects objects refs h m :
  App.effects (refresh objects refs h m) = App.effects m.
Proof. unfold refresh. destruct h; reflexivity. Qed.

Lemma refresh_event objects refs h m :
  App._cancel_evt (refresh objects refs h m) = App._cancel_evt m.
Proof. unfold refresh. destruct h; reflexivity. Qed.

Lemma refresh_processing objects refs h m :
  processing (App.worker (refresh objects refs h m))
  = processing (App.worker m).
Proof.
  unfold refresh. destruct h; [|reflexivity]. simpl.
  destruct (App.worker m); reflexivity.
Qed.

Lemma refresh_has_current objects refs h m :
  App._current_job m <> None ->
  App._current_job (refresh objects refs h m) <> None.
Proof.
  unfold refresh. destruct h; [|auto]. simpl.
  destruct (App._current_job m); [discriminate | auto].
Qed.

Lemma refresh_unexpired objects refs h m :
  App.unexpired (App.worker m) ->
  App.worker (refresh objects refs h m) = App.worker m.
Proof.
  unfold refresh. destruct h; [|reflexivity]. simpl.
  destruct (App.worker m); try contradiction; reflexivity.
Qed.

(** From the dispatch of a job to its [finally] a job is current. *)
Lemma processing_step s a :
  (processing (App.worker s) = true -> App._current_job s <> None) ->
  processing (App.worker (snd (App.step P s a))) = true ->
  App._current_job (snd (App.step P s a)) <> None.
Proof.
  intros H. destruct (not_worker_step a) as [-> | Ha].
  - cbn [App.step snd].
    destruct (App.worker s)
      as [ | job | job | job | d st | fr dl d w h st i | img tw d w h st x
         | exn | e | ] eqn:Ew.
    + unfold App.worker_step. rewrite Ew.
      destruct (App._running s); [|discriminate].
      destruct (App._job_q s); [rewrite Ew|]; discriminate.
    + rewrite (worker_step_clear P s job Ew). discriminate.
    + rewrite (worker_step_publish P s job Ew). discriminate.
    + destruct (dispatch_step_world P s job Ew) as [t [eff [pc [E _]]]].
      rewrite E. intros _. apply H. reflexivity.
    + destruct (render_step_world P s) as [t [eff [pc [E _]]]];
        [rewrite Ew; exact I | intros exn; congruence|].
      rewrite E. intros _. apply H. reflexivity.
    + destruct (render_step_world P s) as [t [eff [pc [E _]]]];
        [rewrite Ew; exact I | intros exn; congruence|].
      rewrite E. intros _. apply H. reflexivity.
    + destruct (render_step_world P s) as [t [eff [pc [E _]]]];
        [rewrite Ew; exact I | intros exn; congruence|].
      rewrite E. intros _. apply H. reflexivity.
    + rewrite (worker_step_finally P s exn Ew). destruct exn; discriminate.
    + unfold App.worker_step. rewrite Ew, Ew. discriminate.
    + rewrite (worker_step_exited P s Ew), Ew. discriminate.
  - destruct (handler_frame P s a Ha) as [F1 [_ [_ [F4 _]]]].
    rewrite F1, F4. exact H.
Qed.

(** Outside these positions a step of the worker writes nothing. *)
Lemma writes_only_processing s :
  processing (App.worker s) = false ->
  App.effects (App.worker_step P s) = App.effects s.
Proof.
  intros H.
  destruct (App.worker s)
    as [ | job | job | job | d st | fr dl d w h st i | img tw d w h st x
       | exn | e | ] eqn:Ew; try discriminate.
  - unfold App.worker_step. rewrite Ew.
    destruct (App._running s); [|reflexivity].
    destruct (App._job_q s); reflexivity.
  - rewrite (worker_step_clear P s job Ew). reflexivity.
  - rewrite (worker_step_publish P s job Ew). reflexivity.
  - unfold App.worker_step. rewrite Ew. reflexivity.
  - rewrite (worker_step_exited P s Ew). reflexivity.
Qed.

Lemma last_got_snoc st0 l r :
  got_order st0 = (l ++ [r])%list -> last_got st0 = Some r.
Proof. intros E. unfold last_got. rewrite E, rev_app_distr. reflexivity. Qed.

Lemma last_got_some st0 r :
  last_got st0 = Some r -> exists before, got_order st0 = (before ++ [r])%list.
Proof.
  unfold last_got. intros H.
  destruct (rev (got_order st0)) as [|r' l] eqn:E; [discriminate|].
  injection H as ->. exists (rev l).
  rewrite <- (rev_involutive (got_order st0)), E. reflexivity.
Qed.

Lemma in_hand_init w h t0 : in_hand (init w h t0).
Proof. split; [reflexivity | discriminate]. Qed.

Lemma in_hand_take_id r st : in_hand st -> in_hand (take_id r st).
Proof.
  intros [H1 H2]. unfold take_id.
  destruct (nth_error (store st) r) as [job|]; split; assumption.
Qed.

Lemma in_hand_store_id k st : in_hand st -> in_hand (store_id k st).
Proof.
  intros [H1 H2]. unfold store_id.
  destruct (nth_error (taking st) k) as [[r jid]|]; [|split; assumption].
  split; [exact H1|].
  cbn [manager]. rewrite refresh_processing. intros Hp.
  apply refresh_has_current. apply H2, Hp.
Qed.

Lemma in_hand_put k st : in_hand st -> in_hand (put k st).
Proof.
  intros [H1 H2]. unfold put.
  destruct (nth_error (calls st) k) as [r|]; split; assumption.
Qed.

Lemma in_hand_return_id k st : in_hand st -> in_hand (return_id k st).
Proof.
  intros [H1 H2]. unfold return_id.
  destruct (nth_error (returning st) k) as [r|]; split; assumption.
Qed.

Lemma in_hand_track a st :
  in_hand st ->
  in_hand (track (manager st) (snd (App.step P (manager st) a)) st).
Proof.
  intros [H1 H2].
  pose proof (processing_step (manager st) a H2) as Hp.
  assert (Hsame : in_hand
            (mkState (snd (App.step P (manager st) a)) (store st)
               (queued st) (held st) (taking st) (calls st) (returning st)
               (assigned st) (returned st) (put_order st) (got_order st)))
    by (split; [exact H1 | exact Hp]).
  unfold track.
  destruct (App.worker (manager st)); try exact Hsame.
  destruct (App.worker (snd (App.step P (manager st) a))) eqn:Ea;
    try exact Hsame.
  destruct (queued st) as [|r rest]; [exact Hsame|].
  split.
  - symmetry. apply (last_got_snoc _ (got_order st) r). reflexivity.
  - cbn [manager]. rewrite Ea. discriminate.
Qed.

Lemma in_hand_step st op : in_hand st -> in_hand (step P st op).
Proof.
  apply (step_passes_on P (fun a b => in_hand a -> in_hand b)
           (fun _ => True)); try (intros ? ?; exact I).
  - auto.
  - intros job st0 H. exact H.
  - intros r st0. apply in_hand_take_id.
  - intros k st0. apply in_hand_store_id.
  - intros k st0. apply in_hand_put.
  - intros k st0. apply in_hand_return_id.
  - intros a st0 _ _. apply in_hand_track.
Qed.

Lemma in_hand_run ops : forall st, in_hand st -> in_hand (run P st ops).
Proof.
  induction ops as [|op r IH]; intros st H; simpl; [exact H|].
  apply IH, in_hand_step, H.
Qed.

(** Whatever the worker writes, it writes while the object it got last
    is the current job. *)
Lemma calls_writes_for_current st :
  coherent st -> in_hand st ->
  App.effects (App.worker_step P (manager st)) <> App.effects (manager st) ->
  exists r before,
    held st = Some r
    /\ got_order st = (before ++ [r])%list
    /\ App._current_job (manager st) = Some (deref st r).
Proof.
  intros [_ [_ [_ [_ [_ [_ [_ [Hc _]]]]]]]] [H1 H2] Hneq.
  destruct (processing (App.worker (manager st))) eqn:Hp.
  - specialize (H2 eq_refl).
    destruct (App._current_job (manager st)) as [j|] eqn:Ej; [|congruence].
    destruct (Hc j eq_refl) as [r [Eh ->]].
    rewrite Eh in H1. symmetry in H1.
    destruct (last_got_some st r H1) as [before Eb].
    exists r, before. repeat split; assumption.
  - exfalso. apply Hneq, writes_only_processing, Hp.
Qed.

(** Nothing but a step of the worker writes. *)
Lemma calls_only_worker_writes st op :
  op <> Alone App.WorkerStep ->
  App.effects (manager (step P st op)) = App.effects (manager st).
Proof.
  intros Hop.
  apply (step_passes_on P
           (fun a b => App.effects (manager b) = App.effects (manager a))
           (fun a => a <> App.WorkerStep)).
  - intros a b c E1 E2. rewrite E2, E1. reflexivity.
  - reflexivity.
  - intros r st0. unfold take_id.
    destruct (nth_error (store st0) r); reflexivity.
  - intros k st0. unfold store_id.
    destruct (nth_error (taking st0) k) as [[r jid]|]; [|reflexivity].
    cbn [manager]. apply refresh_effects.
  - intros k st0. unfold put.
    destruct (nth_error (calls st0) k); reflexivity.
  - intros k st0. unfold return_id.
    destruct (nth_error (returning st0) k); reflexivity.
  - intros a st0 _ Ha. rewrite track_manager.
    apply (handler_frame P (manager st0) a Ha).
  - intros a -> C. apply Hop. rewrite C. reflexivity.
Qed.

(** A worker held by a job without duration gets no other job, whoever
    calls [enqueue] meanwhile. *)
Lemma calls_unexpired_step st op :
  App.unexpired (App.worker (manager st)) ->
  App._cancel_evt (manager st) = false ->
  no_stop [op] = true ->
  let st' := step P st op in
  App.unexpired (App.worker (manager st'))
  /\ App._cancel_evt (manager st') = false
  /\ got_order st' = got_order st
  /\ App.popped (manager st') = App.popped (manager st).
Proof.
  intros Hu Hc Hn. cbv zeta. revert Hu Hc.
  apply (step_passes_on P
           (fun a b =>
              App.unexpired (App.worker (manager a)) ->
              App._cancel_evt (manager a) = false ->
              App.unexpired (App.worker (manager b))
              /\ App._cancel_evt (manager b) = false
              /\ got_order b = got_order a
              /\ App.popped (manager b) = App.popped (manager a))
           (fun a => a <> App.PostStop)).
  - intros a b c H1 H2 Hu Hc.
    destruct (H1 Hu Hc) as [A1 [A2 [A3 A4]]].
    destruct (H2 A1 A2) as [B1 [B2 [B3 B4]]].
    rewrite B3, B4, A3, A4. auto.
  - intros job st0 Hu Hc. auto.
  - intros r st0 Hu Hc. unfold take_id.
    destruct (nth_error (store st0) r); auto.
  - intros k st0 Hu Hc. unfold store_id.
    destruct (nth_error (taking st0) k) as [[r jid]|]; [|auto].
    cbn [manager got_order].
    rewrite refresh_unexpired, refresh_event, refresh_popped by exact Hu.
    auto.
  - intros k st0 Hu Hc. unfold put.
    destruct (nth_error (calls st0) k); auto.
  - intros k st0 Hu Hc. unfold return_id.
    destruct (nth_error (returning st0) k); auto.
  - intros a st0 Hj Ha Hu Hc.
    assert (Hnot : ~ (App.worker (manager st0) = App.WIdle
                      /\ exists job,
                           App.worker (snd (App.step P (manager st0) a))
                           = App.WPopped job)).
    { intros [C _]. rewrite C in Hu. contradiction. }
    rewrite (track_other _ _ st0 Hnot). cbn [manager got_order].
    destruct (not_worker_step a) as [-> | Hw].
    + cbn [App.step snd].
      destruct (unexpired_pops_nothing P [App.WorkerStep] (manager st0)
                  Hu Hc eq_refl) as [Hpop _].
      split; [apply unexpired_step; assumption|].
      split; [apply worker_keeps_unset; assumption|].
      split; [reflexivity | exact Hpop].
    + destruct (handler_frame P (manager st0) a Hw) as [F1 [F2 _]].
      rewrite F1, F2. split; [exact Hu|].
      split; [|auto].
      rewrite no_stop_handler; [exact Hc | exact Hw |].
      destruct a; try reflexivity. contradiction Ha. reflexivity.
  - intros a -> C. rewrite C in Hn. discriminate.
Qed.

Lemma calls_unexpired_run ops : forall st,
  App.unexpired (App.worker (manager st)) ->
  App._cancel_evt (manager st) = false ->
  no_stop ops = true ->
  let st' := run P st ops in
  App.unexpired (App.worker (manager st'))
  /\ got_order st' = got_order st
  /\ App.popped (manager st') = App.popped (manager st).
Proof.
  induction ops as [|op r IH]; intros st Hu Hc Hn; [simpl; auto|].
  cbn [no_stop forallb] in Hn. apply andb_prop in Hn as [Ho Hr].
  destruct (calls_unexpired_step st op Hu Hc) as [S1 [S2 [S3 S4]]].
  { cbn [no_stop forallb]. rewrite Ho. reflexivity. }
  cbn [run]. destruct (IH (step P st op) S1 S2 Hr) as [I1 [I2 I3]].
  rewrite I2, I3, S3, S4. auto.
Qed.

End InHand.

(** C1, as stated, fails in three ways.  Two calls of [enqueue]
    overlap: the first takes id 1, the second takes id 2, both store
    their ids, the second puts its job and returns, then the first puts
    its job and returns; the worker pops id 2 before id 1, and clears
    the matrix for the second job before it sleeps for the first.  One
    job is enqueued twice: the second call renumbers the object already
    in the queue, and the worker pops id 2 twice and id 1 never.  And behind an animation without duration a Clear job is
    never popped: after a hundred steps of the worker it is still in
    the queue and the matrix has not been cleared. *)
Lemma overlapping_enqueues_pop_out_of_order :
  let first := App.Job_ App.NOOP in
  let second := App.Job_ App.CLEAR in
  let worker := repeat (Calls.Alone App.WorkerStep) 10 in
  let overlap :=
    Calls.run Demo.pillow (Calls.init 64 64 0)
      ([Calls.Build first; Calls.Build second; Calls.TakeId 0%nat;
        Calls.TakeId 1%nat; Calls.StoreId 0%nat; Calls.StoreId 0%nat;
        Calls.Put 1%nat; Calls.Return 0%nat;
        Calls.Put 0%nat; Calls.Return 0%nat] ++ worker) in
  let twice :=
    Calls.run Demo.pillow (Calls.init 64 64 0)
      ([Calls.Build first; Calls.TakeId 0%nat; Calls.StoreId 0%nat;
        Calls.Put 0%nat; Calls.Return 0%nat; Calls.TakeId 0%nat;
        Calls.StoreId 0%nat; Calls.Put 0%nat; Calls.Return 0%nat]
       ++ worker) in
  let blocked :=
    App.run Demo.pillow Demo.dm0
      (App.CallEnqueue (Demo.gif_job None) :: App.PostClear
       :: repeat App.WorkerStep 100) in
  (Calls.assigned overlap = [1; 2]
   /\ Calls.returned overlap = [2; 1]
   /\ Calls.put_order overlap = [1%nat; 0%nat]
   /\ Calls.popped_ids overlap = [2; 1]
   /\ map App.type (App.popped (Calls.manager overlap))
      = [App.CLEAR; App.NOOP]
   /\ App.effects (Calls.manager overlap)
      = [App.Clear; App.Sleep (5 # 100); App.Sleep (1 # 100)])
  /\ (Calls.assigned twice = [1; 2]
      /\ Calls.returned twice = [1; 2]
      /\ Calls.put_order twice = [0%nat; 0%nat]
      /\ Calls.popped_ids twice = [2; 2])
  /\ (map App.id (App.popped blocked) = [1]
      /\ map App.id (App._job_q blocked) = [2]
      /\ map App.type (App._job_q blocked) = [App.CLEAR]
      /\ List.length (App.frames_written (App.effects blocked)) = 96%nat
      /\ filter (fun e => match e with
                          | App.Clear => true
                          | _ => false
                          end) (App.effects blocked) = []).
Proof.
  intros first second worker overlap twice blocked.
  split; [repeat split; vm_compute; reflexivity|].
  split; repeat split; vm_compute; reflexivity.
Qed.

(** C1, as amended.  The worker gets the jobs in the order in which
    they were put on the queue: after any schedule - calls of [enqueue]
    overlapping or not, jobs shared or not - the objects got so far
    followed by the objects still queued are the objects put, in the
    order of the puts.  The waiting worker gets the head of the queue
    and then publishes and dispatches that very job: no reordering, no
    priority.  When every call of [enqueue] runs alone on a job of its
    own, the order of the puts is the order of the calls, and the jobs
    popped and queued carry the ids n, n+1, ... in that order.  What
    reaches the matrix follows the same order: the dispatch of the job
    got writes what that job shows at once (the clearing of a Clear job,
    the frame of a still image or of the weather template), the worker
    writes only while the object it got last is the current job, and
    nothing but the worker writes.  The next job is popped when the job
    before it has ended; behind a job without duration that nobody
    stops, nothing more is got, whoever enqueues meanwhile: what has
    been popped is a prefix of what has been put. *)
Theorem worker_pops_in_enqueue_order :
  forall (P : Pil.Pillow),
    (forall st ops,
       (Calls.got_order st ++ Calls.queued st)%list = Calls.put_order st ->
       let st' := Calls.run P st ops in
       (Calls.got_order st' ++ Calls.queued st')%list = Calls.put_order st')
    /\ (forall w h t0 ops,
          let st' := Calls.run P (Calls.init w h t0) ops in
          (Calls.got_order st' ++ Calls.queued st')%list
          = Calls.put_order st'
          /\ Calls.coherent st')
    /\ (forall st r rest,
          Calls.coherent st ->
          App.worker (Calls.manager st) = App.WIdle ->
          App._running (Calls.manager st) = true ->
          Calls.queued st = r :: rest ->
          let st3 := Calls.run P st (repeat (Calls.Alone App.WorkerStep) 3) in
          let job := Calls.deref st r in
          Calls.got_order st3 = (Calls.got_order st ++ [r])%list
          /\ Calls.queued st3 = rest
          /\ Calls.held st3 = Some r
          /\ App.popped (Calls.manager st3)
             = (App.popped (Calls.manager st) ++ [job])%list
          /\ App._current_job (Calls.manager st3) = Some job
          /\ App.worker (Calls.manager st3) = App.WDispatch job)
    /\ (forall st sched,
          Calls.coherent st ->
          let m := Calls.manager st in
          let m' := Calls.manager (Calls.run P st (map Calls.Alone sched)) in
          let jobs := App.submitted (App._next_id m) sched in
          m' = App.run P m sched
          /\ (App.popped m' ++ App._job_q m'
              = App.popped m ++ App._job_q m ++ jobs)%list
          /\ map App.id jobs = App.iota (App._next_id m) (List.length jobs))
    /\ (forall w h t0 sched,
          let m' := Calls.manager
                      (Calls.run P (Calls.init w h t0)
                         (map Calls.Alone sched)) in
          map App.id (App.popped m' ++ App._job_q m')
          = App.iota 1 (List.length (App.popped m' ++ App._job_q m')))
    /\ (forall s job rest,
          App.worker s = App.WIdle -> App._running s = true ->
          App._job_q s = job :: rest -> App.faulty s = false ->
          let s4 := App.run P s (repeat App.WorkerStep 4) in
          App.popped s4 = (App.popped s ++ [job])%list
          /\ App.effects s4
             = (App.effects s
                ++ App.shown_at_dispatch P (App.matrix s) job)%list
          /\ App._job_q s4 = rest)
    /\ (forall w h t0 ops,
          let st := Calls.run P (Calls.init w h t0) ops in
          let m := Calls.manager st in
          App.effects (App.worker_step P m) <> App.effects m ->
          exists r before,
            Calls.held st = Some r
            /\ Calls.got_order st = (before ++ [r])%list
            /\ App._current_job m = Some (Calls.deref st r))
    /\ (forall st op,
          op <> Calls.Alone App.WorkerStep ->
          App.effects (Calls.manager (Calls.step P st op))
          = App.effects (Calls.manager st))
    /\ (forall s next rest,
          App.worker s = App.WFinally None -> App._running s = true ->
          App._job_q s = next :: rest ->
          let s2 := App.worker_step P (App.worker_step P s) in
          App.worker s2 = App.WPopped next
          /\ App.popped s2 = (App.popped s ++ [next])%list)
    /\ (forall st ops,
          App.unexpired (App.worker (Calls.manager st)) ->
          App._cancel_evt (Calls.manager st) = false ->
          Calls.no_stop ops = true ->
          let st' := Calls.run P st ops in
          App.unexpired (App.worker (Calls.manager st'))
          /\ Calls.got_order st' = Calls.got_order st
          /\ App.popped (Calls.manager st') = App.popped (Calls.manager st)).
Proof.
  intros P.
  split; [intros st ops H st'; apply fifo_run, H|].
  split.
  { intros w h t0 ops st'. split.
    - apply fifo_run. reflexivity.
    - apply coherent_run, coherent_init. }
  split.
  { intros st r rest Hc Hw Hr Hq st3 job. unfold st3.
    rewrite (calls_pop_to_dispatch P st r rest Hc Hw Hr Hq).
    repeat split. }
  split.
  { intros st sched Hc m m' jobs.
    assert (E : m' = App.run P m sched) by (apply alone_run, Hc).
    split; [exact E|]. rewrite E.
    split; [apply run_queue | apply submitted_ids]. }
  split.
  { intros w h t0 sched m'.
    assert (E : m' = App.run P (App.init w h t0) sched)
      by (apply (alone_run P sched (Calls.init w h t0)), coherent_init).
    destruct (run_queue P sched (App.init w h t0)) as [Hq _].
    simpl in Hq. rewrite <- E in Hq. rewrite Hq. apply submitted_ids. }
  split; [intros s job rest; apply pop_and_dispatch|].
  split.
  { intros w h t0 ops st m. apply calls_writes_for_current.
    - apply coherent_run, coherent_init.
    - apply in_hand_run, in_hand_init. }
  split; [intros st op; apply calls_only_worker_writes|].
  split; [intros s next rest; apply next_job_popped|].
  intros st ops. apply calls_unexpired_run.
Qed.

(** C1 at work: a still image and a Clear job are submitted, one call
    after the other, to a fresh manager.  Three steps of the worker
    later the image is being dispatched, a fourth step writes it, and
    the two jobs carry the ids 1 and 2. *)
Lemma worker_pops_in_enqueue_order_witness :
  let st := Calls.run Demo.pillow (Calls.init 64 64 0)
              (map Calls.Alone
                 [App.CallEnqueue (Demo.still_job None); App.PostClear]) in
  let st3 := Calls.run Demo.pillow st
               (repeat (Calls.Alone App.WorkerStep) 3) in
  let s4 := App.run Demo.pillow (Calls.manager st)
              (repeat App.WorkerStep 4) in
  (Calls.got_order st3 = [0%nat]
   /\ Calls.queued st3 = [1%nat]
   /\ App.worker (Calls.manager st3)
      = App.WDispatch (App.set_id (Demo.still_job None) 1))
  /\ App.effects s4 = [App.SetImage Demo.red]
  /\ map App.id (App.popped s4 ++ App._job_q s4) = [1; 2].
Proof.
  intros st st3 s4.
  pose proof (worker_pops_in_enqueue_order Demo.pillow)
    as [_ [H2 [H3 [_ [_ [H6 _]]]]]].
  split; [|split].
  - destruct (H3 st 0%nat [1%nat]
                (proj2 (H2 64 64 0%Q
                   (map Calls.Alone
                      [App.CallEnqueue (Demo.still_job None);
                       App.PostClear])))
                ltac:(vm_compute; reflexivity) ltac:(vm_compute; reflexivity)
                ltac:(vm_compute; reflexivity))
      as [E1 [E2 [_ [_ [_ E6]]]]].
    split; [exact E1|]. split; [exact E2 | exact E6].
  - destruct (H6 (Calls.manager st) (App.set_id (Demo.still_job None) 1)
                [App.set_id (App.Job_ App.CLEAR) 2]
                ltac:(vm_compute; reflexivity) ltac:(vm_compute; reflexivity)
                ltac:(vm_compute; reflexivity) ltac:(vm_compute; reflexivity))
      as [_ [E _]].
    exact E.
  - vm_compute. reflexivity.
Defined.
